(** * sls-memory: the playbook, the keyword matcher, the TF-IDF index and
      the extraction pipeline, embedded in Rocq.

    Conventions of the embedding.
    - A JavaScript string is a [string]; character-level functions work on
      [list ascii].  The alphabet is ASCII: [toLowerCase] maps [A-Z] to
      [a-z], [\d] is [0-9], [\w] is [A-Za-z0-9_] and [\s] is the six ASCII
      white-space characters.
    - A JavaScript number is an exact number: keyword scores are rationals
      ([Q]), feedback counters and row counts are integers ([Z]), TF-IDF
      weights are reals ([R], for [Math.sqrt] and [Math.log]).  Rounding of
      IEEE doubles is not modelled.
    - The regular-expression engine behind [new RegExp(src, flags)] and
      [regex.test(s)] is a parameter of the matcher and of the validator;
      the five fixed expressions of [generateFingerprint] are written out
      as matchers.
    - [Math.random] is a stream of draws; the playbook file is a store
      holding at most one playbook. *)

From Stdlib Require Import ZArith QArith Reals Lia Lra String Ascii List Sorted.
From stdpp Require Import base list strings gmap sets pretty.

Open Scope string_scope.

(** ** JavaScript strings *)

Module JsString.

Definition code (c : ascii) : N := N_of_ascii c.

Definition in_range (lo hi : N) (c : ascii) : bool :=
  ((lo <=? code c) && (code c <=? hi))%N.

(** [\d] *)
Definition is_digit (c : ascii) : bool := in_range 48 57 c.

Definition is_upper (c : ascii) : bool := in_range 65 90 c.

Definition is_lower (c : ascii) : bool := in_range 97 122 c.

(** [\w] is [A-Za-z0-9_] *)
Definition is_word (c : ascii) : bool :=
  is_digit c || is_upper c || is_lower c || (code c =? 95)%N.

(** [\s] on ASCII: tab, line feed, vertical tab, form feed, carriage
    return, space *)
Definition is_space (c : ascii) : bool :=
  in_range 9 13 c || (code c =? 32)%N.

Definition lower_char (c : ascii) : ascii :=
  if is_upper c then ascii_of_N (code c + 32) else c.

(** [s.toLowerCase()] *)
Definition toLowerCase_chars (s : list ascii) : list ascii := map lower_char s.

Definition toLowerCase (s : string) : string :=
  string_of_list_ascii (toLowerCase_chars (list_ascii_of_string s)).

(** [s.split(/[class]+/)]: the pieces between the maximal runs of separator
    characters; a leading or trailing run leaves an empty piece, and the
    empty string splits into one empty piece. *)
Fixpoint split_go (sep : ascii -> bool) (cur : list ascii) (in_sep : bool)
    (s : list ascii) : list (list ascii) :=
  match s with
  | [] => [rev cur]
  | c :: s' =>
      if sep c then
        if in_sep then split_go sep [] true s'
        else rev cur :: split_go sep [] true s'
      else split_go sep (c :: cur) false s'
  end.

Definition split_chars (sep : ascii -> bool) (s : list ascii) : list (list ascii) :=
  split_go sep [] false s.

Definition split (sep : ascii -> bool) (s : string) : list string :=
  map string_of_list_ascii (split_chars sep (list_ascii_of_string s)).

(** [a.join(sep)] *)
Fixpoint join (sep : string) (l : list string) : string :=
  match l with
  | [] => ""
  | [x] => x
  | x :: l' => x ++ sep ++ join sep l'
  end.

(** [s.includes(sub)] *)
Fixpoint prefix_chars (p s : list ascii) : bool :=
  match p, s with
  | [], _ => true
  | _ :: _, [] => false
  | a :: p', b :: s' => if ascii_dec a b then prefix_chars p' s' else false
  end.

Fixpoint includes_chars (sub s : list ascii) : bool :=
  prefix_chars sub s ||
  match s with
  | [] => false
  | _ :: s' => includes_chars sub s'
  end.

Definition includes (s sub : string) : bool :=
  includes_chars (list_ascii_of_string sub) (list_ascii_of_string s).

(** [s.slice(0, n)] for a non-negative [n] *)
Definition slice0 (n : nat) (s : string) : string :=
  string_of_list_ascii (take n (list_ascii_of_string s)).

(** [n.toString().padStart(3, '0')] *)
Definition padStart3 (s : string) : string :=
  match String.length s with
  | 0 => "000" ++ s
  | 1 => "00" ++ s
  | 2 => "0" ++ s
  | _ => s
  end.

End JsString.

(** ** JavaScript arrays *)

Module JsArray.

(** [a.slice(0, limit)] for an integer [limit]: a negative limit counts
    from the end. *)
Definition slice0 {A} (limit : Z) (l : list A) : list A :=
  if (limit <? 0)%Z then take (Z.to_nat (Z.max (Z.of_nat (length l) + limit) 0)) l
  else take (Z.to_nat limit) l.

Section Sort.
Context {A K : Type} (ltb : K -> K -> bool) (key : A -> K).

(** [a.sort((x, y) => y.key - x.key)]: the sort is stable, so an element
    goes before the first one that does not have a strictly larger key. *)
Fixpoint insert_desc (x : A) (l : list A) : list A :=
  match l with
  | [] => [x]
  | y :: l' => if ltb (key x) (key y) then y :: insert_desc x l' else x :: l
  end.

Definition sort_desc (l : list A) : list A := foldr insert_desc [] l.

End Sort.

Definition Qltb (a b : Q) : bool := if Qlt_le_dec a b then true else false.

Definition Rltb (a b : R) : bool := if Rlt_le_dec a b then true else false.

End JsArray.

(** ** JavaScript [Set] and [Map] objects with string keys, in insertion
    order *)

Module JsSet.

Definition add (s : list string) (x : string) : list string :=
  if bool_decide (x ∈ s) then s else s ++ [x].

Definition of_list (l : list string) : list string := foldl add [] l.

Definition has (s : list string) (x : string) : bool := bool_decide (x ∈ s).

End JsSet.

Module JsMap.

(** [m.set(k, v)]: a key that is present keeps its place. *)
Fixpoint set {V} (m : list (string * V)) (k : string) (v : V) : list (string * V) :=
  match m with
  | [] => [(k, v)]
  | (k', v') :: rest => if String.eqb k k' then (k, v) :: rest else (k', v') :: set rest k v
  end.

Fixpoint get {V} (m : list (string * V)) (k : string) : option V :=
  match m with
  | [] => None
  | (k', v') :: rest => if String.eqb k k' then Some v' else get rest k
  end.

End JsMap.

(** ** The regular-expression engine

    [RegExp src flags] is [new RegExp(src, flags)]: [None] when the
    constructor throws a SyntaxError.  [test r s] is [r.test(s)] for an
    expression without the [g] and [y] flags, which keeps no state. *)

Class RegexEngine := {
  Regex : Type;
  RegExp : string -> string -> option Regex;
  test : Regex -> string -> bool
}.

(** ** Untyped JavaScript values, as [YAML.parse] returns them *)

#[local] Set Warnings "-register-all".
#[local] Unset Elimination Schemes.

Inductive JSValue :=
  | JSUndefined
  | JSNull
  | JSBool (b : bool)
  | JSNumber (n : Q)
  | JSString (s : string)
  | JSArray (l : list JSValue)
  | JSObject (fields : list (string * JSValue)).

#[local] Set Elimination Schemes.

Module Js.

Inductive TypeOf := TUndefined | TObject | TBoolean | TNumber | TString.

Definition typeof (v : JSValue) : TypeOf :=
  match v with
  | JSUndefined => TUndefined
  | JSNull => TObject
  | JSBool _ => TBoolean
  | JSNumber _ => TNumber
  | JSString _ => TString
  | JSArray _ => TObject
  | JSObject _ => TObject
  end.

Definition is_object (v : JSValue) : bool :=
  match v with
  | JSArray _ | JSObject _ => true
  | _ => false
  end.

Definition isArray (v : JSValue) : bool :=
  match v with
  | JSArray _ => true
  | _ => false
  end.

Fixpoint assoc (k : string) (fields : list (string * JSValue)) : JSValue :=
  match fields with
  | [] => JSUndefined
  | (k', v) :: rest => if String.eqb k k' then v else assoc k rest
  end.

(** [v[k]] and [v?.k] for a property name that is not an array index,
    [length] or a method: only a plain object has it. *)
Definition get (v : JSValue) (k : string) : JSValue :=
  match v with
  | JSObject fields => assoc k fields
  | _ => JSUndefined
  end.

End Js.

(** ** core/playbook.ts *)

Module Playbook.

Inductive Severity := low | medium | high.

Record Fix := { step : string; command : option string }.

Record Feedback := { helpful : Z; harmful : Z }.

Record Pattern := {
  id : string;
  fingerprint : string;
  pattern : string;
  severity : Severity;
  category : string;
  title : string;
  symptoms : list string;
  root_causes : list string;
  fixes : list Fix;
  feedback : Feedback
}.

Record Playbook := { patterns : list Pattern }.

Record ValidationError := { path : string; message : string }.

Inductive FeedbackType := Helpful | Harmful.

(** The playbook file: [None] when [playbook.yaml] does not exist or holds
    no document. *)
Definition Store := option Playbook.

Definition loadPlaybook (st : Store) : Playbook :=
  match st with
  | None => {| patterns := [] |}
  | Some pb => pb
  end.

Definition savePlaybook (pb : Playbook) : Store := Some pb.

Definition findPatternById (pb : Playbook) (i : string) : option Pattern :=
  find (fun p => bool_decide (id p = i)) (patterns pb).

(** [r] is the value of [Math.floor(Math.random() * 1000)]. *)
Definition generatePatternId (r : nat) : string :=
  "slsm-" ++ JsString.padStart3 (pretty r).

(** [Partial<Pattern>] *)
Record Overrides := {
  o_id : option string;
  o_fingerprint : option string;
  o_pattern : option string;
  o_severity : option Severity;
  o_category : option string;
  o_title : option string;
  o_symptoms : option (list string);
  o_root_causes : option (list string);
  o_fixes : option (list Fix);
  o_feedback : option Feedback
}.

Definition no_overrides : Overrides :=
  {| o_id := None; o_fingerprint := None; o_pattern := None; o_severity := None;
     o_category := None; o_title := None; o_symptoms := None;
     o_root_causes := None; o_fixes := None; o_feedback := None |}.

(** [createPattern(overrides)]; [r] is the draw consumed by the call of
    [generatePatternId] that the object literal always makes. *)
Definition createPattern (r : nat) (o : Overrides) : Pattern :=
  {| id := default (generatePatternId r) (o_id o);
     fingerprint := default "" (o_fingerprint o);
     pattern := default "" (o_pattern o);
     severity := default medium (o_severity o);
     category := default "general" (o_category o);
     title := default "" (o_title o);
     symptoms := default [] (o_symptoms o);
     root_causes := default [] (o_root_causes o);
     fixes := default [] (o_fixes o);
     feedback := default {| helpful := 0; harmful := 0 |} (o_feedback o) |}.

Definition addFix (p : Pattern) (s : string) (c : option string) : Pattern :=
  {| id := id p; fingerprint := fingerprint p; pattern := pattern p;
     severity := severity p; category := category p; title := title p;
     symptoms := symptoms p; root_causes := root_causes p;
     fixes := fixes p ++ [{| step := s; command := c |}];
     feedback := feedback p |}.

Definition bump (f : Feedback) (ty : FeedbackType) : Feedback :=
  match ty with
  | Helpful => {| helpful := helpful f + 1; harmful := harmful f |}
  | Harmful => {| helpful := helpful f; harmful := harmful f + 1 |}
  end.

(** [pattern.feedback[type]++] *)
Definition recordFeedback (p : Pattern) (ty : FeedbackType) : Pattern :=
  {| id := id p; fingerprint := fingerprint p; pattern := pattern p;
     severity := severity p; category := category p; title := title p;
     symptoms := symptoms p; root_causes := root_causes p;
     fixes := fixes p;
     feedback := bump (feedback p) ty |}.

Section Validation.
Context `{RegexEngine}.

Definition mkError (p m : string) : ValidationError := {| path := p; message := m |}.

Definition check_required_string (prefix : string) (p : JSValue) (field : string)
    : list ValidationError :=
  match Js.get p field with
  | JSString s =>
      if String.eqb s "" then
        [mkError (prefix ++ "." ++ field)
                 (field ++ " is required and must be a non-empty string")]
      else []
  | _ => [mkError (prefix ++ "." ++ field)
                  (field ++ " is required and must be a non-empty string")]
  end.

Definition validSeverities : list string := ["low"; "medium"; "high"].

Definition check_severity (prefix : string) (p : JSValue) : list ValidationError :=
  match Js.get p "severity" with
  | JSString s =>
      if existsb (String.eqb s) validSeverities then []
      else [mkError (prefix ++ ".severity")
                    ("severity must be one of: " ++ JsString.join ", " validSeverities)]
  | _ => [mkError (prefix ++ ".severity")
                  ("severity must be one of: " ++ JsString.join ", " validSeverities)]
  end.

Definition check_array (prefix : string) (p : JSValue) (field : string)
    : list ValidationError :=
  if Js.isArray (Js.get p field) then []
  else [mkError (prefix ++ "." ++ field) (field ++ " must be an array")].

Definition check_number (prefix : string) (fb : JSValue) (field : string)
    : list ValidationError :=
  match Js.typeof (Js.get fb field) with
  | Js.TNumber => []
  | _ => [mkError (prefix ++ ".feedback." ++ field) (field ++ " must be a number")]
  end.

Definition check_feedback (prefix : string) (p : JSValue) : list ValidationError :=
  let fb := Js.get p "feedback" in
  if Js.is_object fb then
    check_number prefix fb "helpful" ++ check_number prefix fb "harmful"
  else [mkError (prefix ++ ".feedback") "feedback must be an object"].

Definition check_regex (prefix : string) (p : JSValue) : list ValidationError :=
  match Js.get p "pattern" with
  | JSString src =>
      match RegExp src "" with
      | Some _ => []
      | None => [mkError (prefix ++ ".pattern") "Invalid regex pattern"]
      end
  | _ => []
  end.

Definition validatePattern (p : JSValue) (index : nat) : list ValidationError :=
  let prefix := "patterns[" ++ pretty index ++ "]" in
  if negb (Js.is_object p) then [mkError prefix "Pattern must be an object"]
  else
    flat_map (check_required_string prefix p)
             ["id"; "fingerprint"; "pattern"; "category"; "title"]
    ++ check_severity prefix p
    ++ flat_map (check_array prefix p) ["symptoms"; "root_causes"; "fixes"]
    ++ check_feedback prefix p
    ++ check_regex prefix p.

(** The loop of [validatePlaybook] from index [i] on, with the set [ids]
    of the ids seen so far. *)
Fixpoint validate_from (ids : list string) (i : nat) (ps : list JSValue)
    : list ValidationError :=
  match ps with
  | [] => []
  | p :: rest =>
      match Js.get p "id" with
      | JSString pid =>
          (if bool_decide (pid ∈ ids) then
             [mkError ("patterns[" ++ pretty i ++ "].id")
                      ("Duplicate pattern ID: " ++ pid)]
           else [])
          ++ validatePattern p i
          ++ validate_from (if bool_decide (pid ∈ ids) then ids else ids ++ [pid])
                           (S i) rest
      | _ => validatePattern p i ++ validate_from ids (S i) rest
      end
  end.

Definition validatePlaybook (data : JSValue) : list ValidationError :=
  if negb (Js.is_object data) then [mkError "" "Playbook must be an object"]
  else
    match Js.get data "patterns" with
    | JSArray ps => validate_from [] 0 ps
    | _ => [mkError "patterns" "patterns must be an array"]
    end.

End Validation.

(** The object that a typed record is at run time. *)
Definition severity_name (s : Severity) : string :=
  match s with
  | low => "low"
  | medium => "medium"
  | high => "high"
  end.

Definition fix_value (f : Fix) : JSValue :=
  JSObject (("step", JSString (step f)) ::
            match command f with
            | Some c => [("command", JSString c)]
            | None => []
            end).

Definition pattern_value (p : Pattern) : JSValue :=
  JSObject [("id", JSString (id p));
            ("fingerprint", JSString (fingerprint p));
            ("pattern", JSString (pattern p));
            ("severity", JSString (severity_name (severity p)));
            ("category", JSString (category p));
            ("title", JSString (title p));
            ("symptoms", JSArray (map JSString (symptoms p)));
            ("root_causes", JSArray (map JSString (root_causes p)));
            ("fixes", JSArray (map fix_value (fixes p)));
            ("feedback", JSObject [("helpful", JSNumber (inject_Z (helpful (feedback p))));
                                   ("harmful", JSNumber (inject_Z (harmful (feedback p))))])].

Definition playbook_value (pb : Playbook) : JSValue :=
  JSObject [("patterns", JSArray (map pattern_value (patterns pb)))].

End Playbook.

(** ** core/matching.ts *)

Module Matching.

Record MatchResult := {
  pattern : Playbook.Pattern;
  score : Q;
  matchedKeywords : list string
}.

Definition stopWords : list string :=
  ["a"; "an"; "the"; "is"; "are"; "was"; "were"; "be"; "been"; "being";
   "have"; "has"; "had"; "do"; "does"; "did"; "will"; "would"; "could";
   "should"; "may"; "might"; "must"; "shall"; "can"; "need"; "to"; "of";
   "in"; "for"; "on"; "with"; "at"; "by"; "from"; "as"; "into"; "through";
   "during"; "before"; "after"; "above"; "below"; "between"; "under";
   "again"; "further"; "then"; "once"; "here"; "there"; "when"; "where";
   "why"; "how"; "all"; "each"; "few"; "more"; "most"; "other"; "some";
   "such"; "no"; "nor"; "not"; "only"; "own"; "same"; "so"; "than"; "too";
   "very"; "just"; "and"; "but"; "or"; "if"; "because"; "until"; "while"].

(** [[^a-z0-9_]] *)
Definition keyword_sep (c : ascii) : bool :=
  negb (JsString.is_lower c || JsString.is_digit c || (JsString.code c =? 95)%N).

Definition extractKeywords (message : string) : list string :=
  filter (fun word => (3 <= String.length word)%nat /\ word ∉ stopWords)
         (JsString.split keyword_sep (JsString.toLowerCase message)).

Definition ratio (a b : nat) : Q := inject_Z (Z.of_nat a) / inject_Z (Z.of_nat b).

Definition calculateScore (keywords1 keywords2 : list string) : Q :=
  if (length keywords1 =? 0)%nat || (length keywords2 =? 0)%nat then 0
  else
    let set1 := JsSet.of_list keywords1 in
    let set2 := JsSet.of_list keywords2 in
    let matches := foldl (fun n word => if JsSet.has set2 word then S n else n) 0%nat set1 in
    let union := JsSet.of_list (set1 ++ set2) in
    ratio matches (length union) * 100.

Section Matcher.
Context `{RegexEngine}.

(** The [try] block: [true] when the expression compiles with the [i]
    flag and matches the message. *)
Definition regex_hit (p : Playbook.Pattern) (errorMessage : string) : bool :=
  match RegExp (Playbook.pattern p) "i" with
  | Some regex => test regex errorMessage
  | None => false
  end.

Definition patternKeywords (p : Playbook.Pattern) : list string :=
  extractKeywords (Playbook.title p ++ " " ++ JsString.join " " (Playbook.symptoms p)).

(** One iteration of the loop: what it pushes on [results]. *)
Definition match_one (keywords : list string) (errorMessage : string)
    (p : Playbook.Pattern) : list MatchResult :=
  if regex_hit p errorMessage then
    [{| pattern := p; score := 100; matchedKeywords := keywords |}]
  else
    let pk := patternKeywords p in
    let sc := calculateScore keywords pk in
    if Qlt_le_dec 20 sc then
      [{| pattern := p; score := sc;
          matchedKeywords := filter (fun k => k ∈ pk) keywords |}]
    else [].

(** [results] when the loop ends. *)
Definition candidates (pb : Playbook.Playbook) (errorMessage : string) : list MatchResult :=
  flat_map (match_one (extractKeywords errorMessage) errorMessage) (Playbook.patterns pb).

Definition findMatchingPatterns (pb : Playbook.Playbook) (errorMessage : string)
    (limit : Z) : list MatchResult :=
  JsArray.slice0 limit (JsArray.sort_desc JsArray.Qltb score (candidates pb errorMessage)).

End Matcher.

End Matching.

(** A small engine for closed examples: an expression made of letters,
    digits and spaces only matches where it occurs, whatever the case; any
    other source is taken to be malformed. *)
Module LiteralEngine.

Definition plain (c : ascii) : bool :=
  JsString.is_word c || (JsString.code c =? 32)%N.

Definition compile (src flags : string) : option string :=
  if forallb plain (list_ascii_of_string src) then Some src else None.

Definition run (r s : string) : bool :=
  JsString.includes (JsString.toLowerCase s) (JsString.toLowerCase r).

Definition engine : RegexEngine :=
  {| Regex := string; RegExp := compile; test := run |}.

End LiteralEngine.

(** ** core/embeddings.ts *)

Module Embeddings.

(** [TfIdfVector]; the weights of a vector are read by key only, so the
    [Map] is a finite map. *)
Record TfIdfVector := {
  terms : gmap string R;
  magnitude : R
}.

(** A row of the [embeddings] table without its [updated_at] column, and
    the [vocabulary] table as term to idf. *)
Record Database := {
  embeddings : gmap string (gmap string R * string);
  vocabulary : gmap string R
}.

(** The private fields of [EmbeddingsManager] and the database it holds
    open.  [vectors] is kept in insertion order, the order in which
    [findSimilar] scores the patterns. *)
Record Manager := {
  db : Database;
  idf : gmap string R;
  vectors : list (string * TfIdfVector)
}.

Definition initEmbeddingsDb (d : Database) : Manager :=
  {| db := d; idf := ∅; vectors := [] |}.

(** [[^a-z0-9_\s]] *)
Definition punctuation (c : ascii) : bool :=
  negb (JsString.is_lower c || JsString.is_digit c || (JsString.code c =? 95)%N
        || JsString.is_space c).

Definition blank (c : ascii) : ascii := if punctuation c then " "%char else c.

Definition tokenize (text : string) : list string :=
  filter (fun term => (2 <= String.length term)%nat)
    (map string_of_list_ascii
       (JsString.split_chars JsString.is_space
          (map blank (JsString.toLowerCase_chars (list_ascii_of_string text))))).

(** [x || d] on numbers *)
Definition or_number (x : option R) (d : R) : R :=
  match x with
  | Some v => if Req_dec_T v 0 then d else v
  | None => d
  end.

Definition count_terms (terms : list string) : gmap string R :=
  foldl (fun tf term => <[term := (or_number (tf !! term) 0 + 1)%R]> tf) ∅ terms.

Definition computeTf (terms : list string) : gmap string R :=
  let docLength := INR (length terms) in
  (fun count => (count / docLength)%R) <$> count_terms terms.

Definition includes (doc : list string) (term : string) : bool :=
  bool_decide (term ∈ doc).

Definition termDocCount (documents : list (list string)) (term : string) : nat :=
  foldl (fun n doc => if includes doc term then S n else n) 0%nat documents.

Definition computeIdf (documents : list (list string)) (vocab : list string)
    : gmap string R :=
  let docCount := length documents in
  foldl (fun idf term =>
           <[term := (ln ((INR docCount + 1) / (INR (termDocCount documents term) + 1)) + 1)%R]> idf)
        ∅ vocab.

Definition toVector (tf idf : gmap string R) : TfIdfVector :=
  let '(terms, sumSquares) :=
    map_fold (fun term tfValue '(terms, sumSquares) =>
                let idfValue := or_number (idf !! term) 1 in
                let tfidf := (tfValue * idfValue)%R in
                (<[term := tfidf]> terms, (sumSquares + tfidf * tfidf)%R))
             (∅, 0%R) tf in
  {| terms := terms; magnitude := sqrt sumSquares |}.

Definition dotProduct (v1 v2 : TfIdfVector) : R :=
  map_fold (fun term value1 dot =>
              match terms v2 !! term with
              | Some value2 => (dot + value1 * value2)%R
              | None => dot
              end) 0%R (terms v1).

Definition cosineSimilarity (v1 v2 : TfIdfVector) : R :=
  if Req_dec_T (magnitude v1) 0 then 0%R
  else if Req_dec_T (magnitude v2) 0 then 0%R
  else (dotProduct v1 v2 / (magnitude v1 * magnitude v2))%R.

Definition patternToText (p : Playbook.Pattern) : string :=
  JsString.join " "
    ([Playbook.title p; Playbook.category p] ++ Playbook.symptoms p
     ++ Playbook.root_causes p
     ++ [JsString.join " " (map Playbook.step (Playbook.fixes p))]).

(** The second loop of [buildFromPatterns]: one vector per pattern, kept
    in memory and written to the [embeddings] table. *)
Definition store_vector (tab : gmap string R) (m : Manager) (p : Playbook.Pattern) : Manager :=
  let text := patternToText p in
  let vector := toVector (computeTf (tokenize text)) tab in
  {| db := {| embeddings := <[Playbook.id p := (terms vector, text)]> (embeddings (db m));
              vocabulary := vocabulary (db m) |};
     idf := idf m;
     vectors := JsMap.set (vectors m) (Playbook.id p) vector |}.

Definition buildFromPatterns (patterns : list Playbook.Pattern) (m : Manager) : Manager :=
  match patterns with
  | [] => m
  | _ =>
      let documents := map (fun p => tokenize (patternToText p)) patterns in
      let vocab := JsSet.of_list (concat documents) in
      let tab := computeIdf documents vocab in
      let m1 := foldl (store_vector tab)
                  {| db := db m; idf := tab; vectors := vectors m |} patterns in
      {| db := {| embeddings := embeddings (db m1);
                  vocabulary := tab ∪ vocabulary (db m1) |};
         idf := idf m1;
         vectors := vectors m1 |}
  end.

Definition sumSquares (t : gmap string R) : R :=
  map_fold (fun _ value acc => (acc + value * value)%R) 0%R t.

(** The two lazy loads at the head of [findSimilar]; the rows of the
    [embeddings] table come in the order of [map_to_list]. *)
Definition load (m : Manager) : Manager :=
  let idf1 := if (size (idf m) =? 0)%nat then vocabulary (db m) else idf m in
  let vectors1 :=
    if (length (vectors m) =? 0)%nat then
      map (fun row : string * (gmap string R * string) =>
             (row.1, {| terms := row.2.1; magnitude := sqrt (sumSquares row.2.1) |}))
          (map_to_list (embeddings (db m)))
    else vectors m in
  {| db := db m; idf := idf1; vectors := vectors1 |}.

Definition queryVector (m : Manager) (query : string) : TfIdfVector :=
  toVector (computeTf (tokenize query)) (idf m).

(** [results] when the scoring loop ends. *)
Definition scored (m : Manager) (query : string) : list (string * R) :=
  flat_map (fun entry : string * TfIdfVector =>
              let sc := cosineSimilarity (queryVector m query) entry.2 in
              if Rlt_le_dec 0 sc then [(entry.1, sc)] else [])
           (vectors m).

Definition findSimilar (query : string) (limit : Z) (m : Manager)
    : Manager * list (string * R) :=
  let m1 := load m in
  (m1, JsArray.slice0 limit (JsArray.sort_desc JsArray.Rltb snd (scored m1 query))).

(** cli/similar.ts: the action of [similarCommand] up to the matches that
    [findSimilar] returns, on the database [d] that earlier runs left.
    What follows in the command only looks the matches up in the playbook
    and prints them. *)
Definition similarCommand (patterns : list Playbook.Pattern) (query : string)
    (limit : Z) (rebuild : bool) (d : Database) : Manager * list (string * R) :=
  let embeddings := initEmbeddingsDb d in
  let built :=
    if rebuild || (0 <? length patterns)%nat then buildFromPatterns patterns embeddings
    else embeddings in
  findSimilar query limit built.

End Embeddings.

(** ** Global replacement by a fixed regular expression

    A matcher answers, for a position of the subject, whether the expression
    matches there and how many characters it takes.  It sees whether the
    character before the position is a word character (for [\b]) and the
    rest of the subject from the position on. *)

Module JsRegex.

Definition Matcher := bool -> list ascii -> option nat.

(** The length of the longest prefix in a class: a greedy [[class]*]. *)
Fixpoint span (P : ascii -> bool) (s : list ascii) : nat :=
  match s with
  | [] => 0
  | c :: s' => if P c then S (span P s') else 0
  end.

(** A piece of an expression: the number of characters it takes. *)
Definition Piece := list ascii -> option nat.

(** [[class]+], greedy.  In the expressions below, what follows such a run
    never starts with a character of the class, so giving characters back
    cannot turn a failure into a match. *)
Definition many1 (P : ascii -> bool) : Piece :=
  fun s => match span P s with 0 => None | n => Some n end.

(** A single character of a class. *)
Definition one (P : ascii -> bool) : Piece :=
  fun s => match s with
           | c :: _ => if P c then Some 1 else None
           | [] => None
           end.

(** Concatenation *)
Definition seq (p q : Piece) : Piece :=
  fun s => match p s with
           | Some n => match q (drop n s) with
                       | Some k => Some (n + k)
                       | None => None
                       end
           | None => None
           end.

(** [p{n}] *)
Fixpoint times (n : nat) (p : Piece) : Piece :=
  match n with
  | 0 => fun _ => Some 0
  | S k => seq p (times k p)
  end.

Definition chr (a : ascii) (c : ascii) : bool := bool_decide (c = a).

(** [s.replace(/re/g, tok)] for an expression that matches no empty string
    and a replacement without [$]: scan from the left, copy a character
    where the expression does not match, and where it does, emit the
    replacement and resume after the match.  [skip] counts the characters
    of the current match still to pass over. *)
Fixpoint replace_go (m : Matcher) (tok : list ascii) (skip : nat) (pw : bool)
    (s : list ascii) : list ascii :=
  match s with
  | [] => []
  | c :: s' =>
      match skip with
      | S k => replace_go m tok k (JsString.is_word c) s'
      | 0 =>
          match m pw s with
          | Some (S n) => tok ++ replace_go m tok n (JsString.is_word c) s'
          | _ => c :: replace_go m tok 0 (JsString.is_word c) s'
          end
      end
  end.

Definition replace_all (m : Matcher) (tok : string) (s : list ascii) : list ascii :=
  replace_go m (list_ascii_of_string tok) 0 false s.

(** [s.trim()] *)
Fixpoint trim_start (s : list ascii) : list ascii :=
  match s with
  | [] => []
  | c :: s' => if JsString.is_space c then trim_start s' else s
  end.

Definition trim_end (s : list ascii) : list ascii := rev (trim_start (rev s)).

Definition trim (s : list ascii) : list ascii := trim_end (trim_start s).

(** [free m pw s]: the expression matches at no position of [s], where
    [pw] tells whether a word character stands before [s]. *)
Fixpoint free (m : Matcher) (pw : bool) (s : list ascii) : Prop :=
  match s with
  | [] => True
  | c :: s' => m pw s = None ∧ free m (JsString.is_word c) s'
  end.

(** What the pieces of the expressions below have in common.  A piece
    stays [within] a class when it takes characters of the class only; it
    is [rigid] when what it takes does not depend on what follows,
    [exact_unless F] when that holds as long as a character outside [F]
    follows, and it [extends] when it still matches, maybe further, whatever
    follows; it [starts_outside F] when it takes at least one character and
    the first is outside [F]. *)
Definition within (inner : ascii -> bool) (p : Piece) : Prop :=
  ∀ s n, p s = Some n → (n ≤ length s)%nat ∧ Forall (fun c => inner c = true) (take n s).

Definition exact_unless (F : ascii -> bool) (p : Piece) : Prop :=
  ∀ w r r', p (w ++ r)%list = Some (length w) →
            (∀ c r'', r' = c :: r'' → F c = false) →
            p (w ++ r')%list = Some (length w).

Definition rigid (p : Piece) : Prop :=
  ∀ w r r', p (w ++ r)%list = Some (length w) → p (w ++ r')%list = Some (length w).

Definition extends (p : Piece) : Prop :=
  ∀ w r r', p (w ++ r)%list = Some (length w) → is_Some (p (w ++ r')%list).

Definition starts_outside (F : ascii -> bool) (p : Piece) : Prop :=
  ∀ s n, p s = Some n → (1 ≤ n)%nat ∧ ∃ c s', s = c :: s' ∧ F c = false.

(** A digit run that a word character follows, so that [\b] fails after
    it. *)
Definition blocked (s : list ascii) : bool :=
  match drop (span JsString.is_digit s) s with
  | c :: _ => JsString.is_word c
  | [] => false
  end.

(** A string in which every white-space character is a single space
    between two other characters or at an end. *)
Fixpoint collapsed (s : list ascii) : Prop :=
  match s with
  | [] => True
  | c :: s' =>
      (JsString.is_space c = true →
       c = " "%char ∧ match s' with
                      | [] => True
                      | c' :: _ => JsString.is_space c' = false
                      end)
      ∧ collapsed s'
  end.

End JsRegex.

(** ** cli/reflect.ts *)

Module Reflect.

Import JsRegex.

Record RecurringError := {
  message : string;
  count : Z;
  level : string;
  service : option string;
  firstSeen : Z;
  lastSeen : Z;
  fingerprint : option string
}.

(** [/\d+\.\d+\.\d+\.\d+/] *)
Definition re_ip : Matcher :=
  fun _ => seq (many1 JsString.is_digit) (seq (one (chr "."))
          (seq (many1 JsString.is_digit) (seq (one (chr "."))
          (seq (many1 JsString.is_digit) (seq (one (chr "."))
               (many1 JsString.is_digit)))))).

(** [/:\d+/] *)
Definition re_port : Matcher :=
  fun _ => seq (one (chr ":")) (many1 JsString.is_digit).

(** [[a-f0-9-]] under the [i] flag *)
Definition hex_dash (c : ascii) : bool :=
  JsString.in_range 97 102 c || JsString.in_range 65 70 c || JsString.is_digit c
  || chr "-" c.

(** [/\/[a-f0-9-]{36}/i] *)
Definition re_uuid : Matcher :=
  fun _ => seq (one (chr "/")) (times 36 (one hex_dash)).

(** [/\b\d+\b/]: a digit run is a word, so the first boundary asks for no
    word character before it and the second for none after it. *)
Definition re_number : Matcher :=
  fun pw s =>
    if pw then None
    else match many1 JsString.is_digit s with
         | Some n =>
             match drop n s with
             | c :: _ => if JsString.is_word c then None else Some n
             | [] => Some n
             end
         | None => None
         end.

(** [/\s+/] *)
Definition re_spaces : Matcher := fun _ => many1 JsString.is_space.

(** [generateFingerprint] before the final [slice(0, 100)] *)
Definition normal_form (message : list ascii) : list ascii :=
  trim
    (replace_all re_spaces " "
       (replace_all re_number "<n>"
          (replace_all re_uuid "/<uuid>"
             (replace_all re_port ":<port>"
                (replace_all re_ip "<ip>"
                   (JsString.toLowerCase_chars message)))))).

Definition generateFingerprint_chars (message : list ascii) : list ascii :=
  take 100 (normal_form message).

Definition generateFingerprint (message : string) : string :=
  string_of_list_ascii (generateFingerprint_chars (list_ascii_of_string message)).

Definition categorizError (message : string) : string :=
  let lowerMsg := JsString.toLowerCase message in
  if JsString.includes lowerMsg "econnrefused" || JsString.includes lowerMsg "connection"
  then "network"
  else if JsString.includes lowerMsg "permission" || JsString.includes lowerMsg "eacces"
  then "filesystem"
  else if JsString.includes lowerMsg "not found" || JsString.includes lowerMsg "enoent"
  then "filesystem"
  else if JsString.includes lowerMsg "timeout" then "network"
  else if JsString.includes lowerMsg "database" || JsString.includes lowerMsg "sql"
  then "database"
  else if JsString.includes lowerMsg "memory" || JsString.includes lowerMsg "heap"
  then "memory"
  else "general".

(** [[.*+?^${}()|[\]\\]] *)
Definition metachar (c : ascii) : bool :=
  bool_decide (c ∈ list_ascii_of_string ".*+?^${}()|[]\").

(** [s.replace(/[.*+?^${}()|[\]\\]/g, '\\$&')] *)
Definition escape (s : string) : string :=
  string_of_list_ascii
    (flat_map (fun c => if metachar c then ["\"%char; c] else [c])
              (list_ascii_of_string s)).

Definition severity_of_count (n : Z) : Playbook.Severity :=
  if (10 <=? n)%Z then Playbook.high
  else if (5 <=? n)%Z then Playbook.medium
  else Playbook.low.

(** [a || b] on strings that may be null *)
Definition or_string (a : option string) (b : string) : string :=
  match a with
  | Some s => if String.eqb s "" then b else s
  | None => b
  end.

Record Suggestion := {
  error : RecurringError;
  pattern : Playbook.Pattern;
  isNew : bool
}.

Section Command.
Context `{RegexEngine}.

Definition isKnown (matches : list Matching.MatchResult) : bool :=
  match matches with
  | [] => false
  | best :: _ => JsArray.Qltb 80 (Matching.score best)
  end.

Definition suggest_new (r : nat) (row : RecurringError) : Playbook.Pattern :=
  Playbook.createPattern r
    {| Playbook.o_id := None;
       Playbook.o_fingerprint :=
         Some (or_string (fingerprint row) (generateFingerprint (message row)));
       Playbook.o_pattern := Some (JsString.slice0 50 (escape (message row)) ++ ".*");
       Playbook.o_severity := Some (severity_of_count (count row));
       Playbook.o_category := Some (categorizError (message row));
       Playbook.o_title :=
         Some (JsString.slice0 60 (message row)
               ++ (if (60 <? String.length (message row))%nat then "..." else ""));
       Playbook.o_symptoms := Some [message row];
       Playbook.o_root_causes := Some ["Unknown - investigate logs"];
       Playbook.o_fixes := Some [];
       Playbook.o_feedback := None |}.

(** The state of the loop over the rows: how many draws [Math.random] has
    given, and the two arrays. *)
Record Loop := {
  drawn : nat;
  suggestions : list Suggestion;
  newPatterns : list Playbook.Pattern
}.

Definition classify (random : nat -> nat) (pb : Playbook.Playbook) (st : Loop)
    (row : RecurringError) : Loop :=
  let matches := Matching.findMatchingPatterns pb (message row) 1 in
  match matches with
  | best :: _ =>
      if isKnown matches then
        {| drawn := drawn st;
           suggestions := suggestions st
             ++ [{| error := row; pattern := Matching.pattern best; isNew := false |}];
           newPatterns := newPatterns st |}
      else
        let p := suggest_new (random (drawn st)) row in
        {| drawn := S (drawn st);
           suggestions := suggestions st ++ [{| error := row; pattern := p; isNew := true |}];
           newPatterns := newPatterns st ++ [p] |}
  | [] =>
      let p := suggest_new (random (drawn st)) row in
      {| drawn := S (drawn st);
         suggestions := suggestions st ++ [{| error := row; pattern := p; isNew := true |}];
         newPatterns := newPatterns st ++ [p] |}
  end.

Definition classify_all (random : nat -> nat) (pb : Playbook.Playbook)
    (rows : list RecurringError) : Loop :=
  foldl (classify random pb) {| drawn := 0; suggestions := []; newPatterns := [] |} rows.

(** The action of [reflectCommand] on the rows that the query returned:
    the playbook file afterwards, and the loop's final state.  [random n]
    is the value of the [n]-th [Math.floor(Math.random() * 1000)]. *)
Definition reflect (random : nat -> nat) (dryRun : bool) (rows : list RecurringError)
    (st : Playbook.Store) : Playbook.Store * Loop :=
  let playbook := Playbook.loadPlaybook st in
  let final := classify_all random playbook rows in
  if negb dryRun && negb (length (newPatterns final) =? 0)%nat then
    (Playbook.savePlaybook
       {| Playbook.patterns := Playbook.patterns playbook ++ newPatterns final |},
     final)
  else (st, final).

End Command.

End Reflect.

(** ** cli/mark.ts *)

Module Mark.

Inductive Outcome :=
  | InvalidFeedback
  | NotFound
  | Marked (newCounts : Playbook.Feedback).

Definition parse_feedback (feedback : string) : option Playbook.FeedbackType :=
  let normalizedFeedback := JsString.toLowerCase feedback in
  if String.eqb normalizedFeedback "helpful" then Some Playbook.Helpful
  else if String.eqb normalizedFeedback "harmful" then Some Playbook.Harmful
  else None.

(** [recordFeedback] changes the object that [find] returned, which is the
    first element of the array with that id. *)
Fixpoint mark_first (i : string) (ty : Playbook.FeedbackType)
    (ps : list Playbook.Pattern) : list Playbook.Pattern :=
  match ps with
  | [] => []
  | p :: rest =>
      if bool_decide (Playbook.id p = i) then Playbook.recordFeedback p ty :: rest
      else p :: mark_first i ty rest
  end.

(** The action of [markCommand]: the playbook file afterwards and what the
    command reports; the first two outcomes exit with status 1. *)
Definition markCommand (i feedback : string) (st : Playbook.Store)
    : Playbook.Store * Outcome :=
  match parse_feedback feedback with
  | None => (st, InvalidFeedback)
  | Some ty =>
      let playbook := Playbook.loadPlaybook st in
      match Playbook.findPatternById playbook i with
      | None => (st, NotFound)
      | Some p =>
          (Playbook.savePlaybook
             {| Playbook.patterns := mark_first i ty (Playbook.patterns playbook) |},
           Marked (Playbook.feedback (Playbook.recordFeedback p ty)))
      end
  end.

End Mark.

(** ** Notions of the specification, in its own words *)

Module Spec.

(** Jaccard similarity of two sets: intersection size over union size. *)
Definition jaccard (X Y : gset string) : Q :=
  inject_Z (Z.of_nat (size (X ∩ Y))) / inject_Z (Z.of_nat (size (X ∪ Y))).

(** A similarity vector of the data model: a mapping from term to TF-IDF
    weight, which is not negative, with its Euclidean norm cached. *)
Definition similarity_vector (v : Embeddings.TfIdfVector) : Prop :=
  Embeddings.magnitude v = sqrt (Embeddings.sumSquares (Embeddings.terms v))
  ∧ ∀ t w, Embeddings.terms v !! t = Some w → (0 <= w)%R.

(** The databases that runs of the [similar] command leave behind. *)
Inductive persisted : Embeddings.Database → Prop :=
  | persisted_fresh :
      persisted {| Embeddings.embeddings := ∅; Embeddings.vocabulary := ∅ |}
  | persisted_run d patterns query limit rebuild :
      persisted d →
      persisted (Embeddings.db (Embeddings.similarCommand patterns query limit rebuild d).1).

(** A vector without one of its terms. *)
Definition without (t : string) (v : Embeddings.TfIdfVector) : Embeddings.TfIdfVector :=
  {| Embeddings.terms := delete t (Embeddings.terms v);
     Embeddings.magnitude := sqrt (Embeddings.sumSquares (delete t (Embeddings.terms v))) |}.

(** A text that ends in neither a white-space character nor a digit (the
    empty text included). *)
Definition clean_end (s : list ascii) : bool :=
  match last s with
  | Some c => negb (JsString.is_space c) && negb (JsString.is_digit c)
  | None => true
  end.

End Spec.

#[global] Instance FeedbackType_eq_dec : EqDecision Playbook.FeedbackType.
Proof. solve_decision. Defined.

#[global] Instance Severity_eq_dec : EqDecision Playbook.Severity.
Proof. solve_decision. Defined.

(** ** Numbers read from the command line *)

Module JsNumber.

(** The value of the decimal digits at the head of a string. *)
Fixpoint digits_value (acc : Z) (s : list ascii) : Z :=
  match s with
  | c :: s' =>
      if JsString.is_digit c
      then digits_value (10 * acc + (Z.of_N (JsString.code c) - 48)) s'
      else acc
  | [] => acc
  end.

(** [parseInt(s, 10)]: white space at the head is skipped, one sign is
    read, then the digits up to the first other character; [None] is
    [NaN], the answer when no digit stands there. *)
Definition parseInt (s : string) : option Z :=
  let t := JsRegex.trim_start (list_ascii_of_string s) in
  let '(sign, body) :=
    match t with
    | "-"%char :: r => ((-1)%Z, r)
    | "+"%char :: r => (1%Z, r)
    | _ => (1%Z, t)
    end in
  match body with
  | c :: _ => if JsString.is_digit c then Some (sign * digits_value 0 body)%Z else None
  | [] => None
  end.

(** How [slice] reads a bound: [NaN] counts as 0. *)
Definition to_integer (x : option Z) : Z := default 0%Z x.

(** [Math.round] *)
Definition round (x : R) : Z := Zfloor (x + / 2).

End JsNumber.

(** ** cli/context.ts *)

Module ContextCommand.

Section Command.
Context `{RegexEngine}.

(** The [results] of [contextCommand], which both outputs list in this
    order.  [service] and [limit] are the values of the options; an absent
    or empty [--limit] reads as 5, an absent or empty [--service] filters
    nothing. *)
Definition contextCommand (error : string) (service limit : option string)
    (st : Playbook.Store) : list Matching.MatchResult :=
  let limit := JsNumber.parseInt (Reflect.or_string limit "5") in
  let playbook := Playbook.loadPlaybook st in
  let results := Matching.findMatchingPatterns playbook error (JsNumber.to_integer limit) in
  match service with
  | Some s =>
      if String.eqb s "" then results
      else filter (fun r => JsString.includes
                              (JsString.toLowerCase (Playbook.category (Matching.pattern r)))
                              (JsString.toLowerCase s) = true)
                  results
  | None => results
  end.

End Command.

(** The share of helpful votes that the command prints for a pattern, in
    percent before [toFixed]: printed only when there is a vote. *)
Definition feedback_ratio (f : Playbook.Feedback) : option Q :=
  let total := (Playbook.helpful f + Playbook.harmful f)%Z in
  if (0 <? total)%Z then Some (inject_Z (Playbook.helpful f) / inject_Z total * 100)%Q
  else None.

End ContextCommand.

(** ** cli/similar.ts *)

Module Similar.

Record Enriched := {
  patternId : string;
  score : Z;
  pattern : option Playbook.Pattern
}.

Definition enrich (playbook : Playbook.Playbook) (m : string * R) : Enriched :=
  {| patternId := m.1;
     score := JsNumber.round (m.2 * 100);
     pattern := Playbook.findPatternById playbook m.1 |}.

(** [enrichedMatches], which both outputs list in this order, and the
    database that the run leaves.  [limit] is the value of [--limit]. *)
Definition similarCommand (query limit : string) (rebuild : bool)
    (st : Playbook.Store) (d : Embeddings.Database) : Embeddings.Database * list Enriched :=
  let limit := JsNumber.parseInt limit in
  let playbook := Playbook.loadPlaybook st in
  let run := Embeddings.similarCommand (Playbook.patterns playbook) query
               (JsNumber.to_integer limit) rebuild d in
  (Embeddings.db run.1,
   filter (fun m => is_Some (pattern m)) (map (enrich playbook) run.2)).

End Similar.

(** ** cli/stats.ts *)

Module Stats.

(** What a key of [patternsByCategory] holds: a number, or the string
    that [+ 1] makes of a method inherited from [Object.prototype]. *)
Inductive Count := Number (n : Z) | Text.

(** The properties that an object literal inherits. *)
Definition inherited : list string :=
  ["constructor"; "__defineGetter__"; "__defineSetter__"; "hasOwnProperty";
   "__lookupGetter__"; "__lookupSetter__"; "isPrototypeOf"; "propertyIsEnumerable";
   "toString"; "valueOf"; "__proto__"; "toLocaleString"].

(** [patternsByCategory[c] = (patternsByCategory[c] || 0) + 1].  A key
    that the object does not own is read from the prototype: an inherited
    method is truthy and [+ 1] appends to its text; the assignment then
    makes an own property, except for [__proto__], whose setter ignores a
    string. *)
Definition count_category (m : gmap string Count) (c : string) : gmap string Count :=
  match m !! c with
  | Some (Number n) => <[c := Number (n + 1)]> m
  | Some Text => <[c := Text]> m
  | None =>
      if bool_decide (c = "__proto__") then m
      else if bool_decide (c ∈ inherited) then <[c := Text]> m
      else <[c := Number 1]> m
  end.

Record SeverityCounts := { low : Z; medium : Z; high : Z }.

Definition count_severity (c : SeverityCounts) (s : Playbook.Severity) : SeverityCounts :=
  match s with
  | Playbook.low => {| low := low c + 1; medium := medium c; high := high c |}
  | Playbook.medium => {| low := low c; medium := medium c + 1; high := high c |}
  | Playbook.high => {| low := low c; medium := medium c; high := high c + 1 |}
  end.

Record FeedbackStats := { helpful : Z; harmful : Z; total : Z }.

Record Statistics := {
  patternsTotal : nat;
  patternsByCategory : gmap string Count;
  patternsBySeverity : SeverityCounts;
  feedbackStats : FeedbackStats
}.

(** The four variables of the loop over the patterns. *)
Record Tally := {
  byCategory : gmap string Count;
  bySeverity : SeverityCounts;
  totalHelpful : Z;
  totalHarmful : Z
}.

Definition tally (t : Tally) (p : Playbook.Pattern) : Tally :=
  {| byCategory := count_category (byCategory t) (Playbook.category p);
     bySeverity := count_severity (bySeverity t) (Playbook.severity p);
     totalHelpful := totalHelpful t + Playbook.helpful (Playbook.feedback p);
     totalHarmful := totalHarmful t + Playbook.harmful (Playbook.feedback p) |}.

(** The [stats] object of [statsCommand] without [playbookPath]. *)
Definition statsCommand (st : Playbook.Store) : Statistics :=
  let playbook := Playbook.loadPlaybook st in
  let t := foldl tally
             {| byCategory := ∅; bySeverity := {| low := 0; medium := 0; high := 0 |};
                totalHelpful := 0; totalHarmful := 0 |}
             (Playbook.patterns playbook) in
  {| patternsTotal := length (Playbook.patterns playbook);
     patternsByCategory := byCategory t;
     patternsBySeverity := bySeverity t;
     feedbackStats := {| helpful := totalHelpful t; harmful := totalHarmful t;
                         total := totalHelpful t + totalHarmful t |} |}.

(** The approval rate that the command prints, in percent before
    [toFixed]: printed only when there is a vote. *)
Definition approval (f : FeedbackStats) : option Q :=
  if (0 <? helpful f + harmful f)%Z
  then Some (inject_Z (helpful f) / inject_Z (helpful f + harmful f) * 100)%Q
  else None.

End Stats.

(** ** cli/reflect.ts: what the command reports *)

Module ReflectReport.

(** The counts of the JSON output. *)
Record Report := {
  totalRecurringErrors : nat;
  newPatternsFound : nat;
  knownPatternMatches : nat
}.

Definition report (rows : list Reflect.RecurringError) (final : Reflect.Loop) : Report :=
  {| totalRecurringErrors := length rows;
     newPatternsFound := length (Reflect.newPatterns final);
     knownPatternMatches :=
       length (filter (fun s => Reflect.isNew s = false) (Reflect.suggestions final)) |}.

End ReflectReport.

(** ** Closed examples *)

Module Examples.

(** The pattern of the repository's matcher test. *)
Definition refused : Playbook.Pattern :=
  {| Playbook.id := "slsm-001";
     Playbook.fingerprint := "conn-refused";
     Playbook.pattern := "ECONNREFUSED";
     Playbook.severity := Playbook.high;
     Playbook.category := "network";
     Playbook.title := "Connection refused";
     Playbook.symptoms := ["ECONNREFUSED 127.0.0.1:5432"];
     Playbook.root_causes := ["Service down"];
     Playbook.fixes := [];
     Playbook.feedback := {| Playbook.helpful := 0; Playbook.harmful := 0 |} |}.

Definition refused_query : string := "ECONNREFUSED 127.0.0.1:5432".

(** A recurring error that the example playbook does not know. *)
Definition quota : Reflect.RecurringError :=
  {| Reflect.message := "disk quota exceeded";
     Reflect.count := 3;
     Reflect.level := "error";
     Reflect.service := None;
     Reflect.firstSeen := 0;
     Reflect.lastSeen := 0;
     Reflect.fingerprint := None |}.

(** The playbook file after [slsm reflect] found [quota] and
    [Math.random] gave a number in [0.001, 0.002). *)
Definition after_reflect : Playbook.Playbook :=
  Playbook.loadPlaybook
    (Reflect.reflect (H := LiteralEngine.engine) (fun _ => 1%nat) false [quota]
       (Some {| Playbook.patterns := [Examples.refused] |})).1.

(** The two records of the repository's validation test. *)
Definition bad_severity : JSValue :=
  JSObject [("id", JSString "slsm-001"); ("fingerprint", JSString "a");
            ("pattern", JSString "test"); ("severity", JSString "critical");
            ("category", JSString "general"); ("title", JSString "Bad severity");
            ("symptoms", JSArray []); ("root_causes", JSArray []); ("fixes", JSArray []);
            ("feedback", JSObject [("helpful", JSNumber 0); ("harmful", JSNumber 0)])].

Definition duplicate_id : JSValue :=
  JSObject [("id", JSString "slsm-001"); ("fingerprint", JSString "b");
            ("pattern", JSString "test2"); ("severity", JSString "low");
            ("category", JSString "general"); ("title", JSString "Duplicate ID");
            ("symptoms", JSArray []); ("root_causes", JSArray []); ("fixes", JSArray []);
            ("feedback", JSObject [("helpful", JSNumber 0); ("harmful", JSNumber 0)])].

Definition invalid_playbook : JSValue :=
  JSObject [("patterns", JSArray [bad_severity; duplicate_id])].

Definition fresh : Embeddings.Database :=
  {| Embeddings.embeddings := ∅; Embeddings.vocabulary := ∅ |}.

(** A message of 101 characters: 99 times [a], a space and [b]. *)
Definition long_message : string :=
  string_of_list_ascii (replicate 99 "a"%char) ++ " b".

(** A message of 101 characters whose 99th to 101st are [ 1x]: the slice
    cuts the word [1x] after its digit. *)
Definition cut_word : string :=
  string_of_list_ascii (replicate 98 "a"%char) ++ " 1x".

(** A message of 120 characters, all of them [a]. *)
Definition long_word : string := string_of_list_ascii (replicate 120 "a"%char).

End Examples.

(** * Properties *)

(** ** JavaScript sets *)

Section JsSetFacts.

Lemma JsSet_add_elem s x y : y ∈ JsSet.add s x ↔ y ∈ s ∨ y = x.
Proof.
  unfold JsSet.add. case_bool_decide as Hx.
  - split; [auto | intros [Hy | ->]; done].
  - rewrite elem_of_app, list_elem_of_singleton. tauto.
Qed.

Lemma JsSet_add_NoDup s x : NoDup s → NoDup (JsSet.add s x).
Proof.
  intros Hs. unfold JsSet.add. case_bool_decide as Hx; [done |].
  apply NoDup_app. split; [done |]. split.
  - intros y Hy Hyx. apply list_elem_of_singleton in Hyx. by subst.
  - apply NoDup_singleton.
Qed.

Lemma JsSet_fold_elem l acc y : y ∈ foldl JsSet.add acc l ↔ y ∈ acc ∨ y ∈ l.
Proof.
  revert acc. induction l as [| x l IH]; intros acc; simpl.
  - rewrite elem_of_nil. tauto.
  - rewrite IH, JsSet_add_elem, elem_of_cons. tauto.
Qed.

Lemma JsSet_fold_NoDup l acc : NoDup acc → NoDup (foldl JsSet.add acc l).
Proof.
  revert acc. induction l as [| x l IH]; intros acc Hacc; simpl; [done |].
  by apply IH, JsSet_add_NoDup.
Qed.

Lemma JsSet_of_list_elem l y : y ∈ JsSet.of_list l ↔ y ∈ l.
Proof. unfold JsSet.of_list. rewrite JsSet_fold_elem, elem_of_nil. tauto. Qed.

Lemma JsSet_of_list_NoDup l : NoDup (JsSet.of_list l).
Proof. apply JsSet_fold_NoDup, NoDup_nil_2. Qed.

(** The size of a set object is the cardinal of the set of its elements. *)
Lemma JsSet_size l : length (JsSet.of_list l) = size (list_to_set l : gset string).
Proof.
  rewrite <- (size_list_to_set (C := gset string) (JsSet.of_list l))
    by apply JsSet_of_list_NoDup.
  f_equal. apply set_eq. intros y.
  by rewrite !elem_of_list_to_set, JsSet_of_list_elem.
Qed.

End JsSetFacts.

(** ** The keyword score *)

Section Score.

Lemma count_hits_filter (s2 s1 : list string) (n : nat) :
  foldl (fun n word => if JsSet.has s2 word then S n else n) n s1
  = (n + length (filter (fun w => w ∈ s2) s1))%nat.
Proof.
  revert n. induction s1 as [| w s1 IH]; intros n; simpl; [lia |].
  rewrite IH, filter_cons. unfold JsSet.has.
  case_bool_decide; destruct (decide (w ∈ s2)); simpl; try done; lia.
Qed.

Lemma matches_size (k1 k2 : list string) :
  foldl (fun n word => if JsSet.has (JsSet.of_list k2) word then S n else n) 0%nat
        (JsSet.of_list k1)
  = size ((list_to_set k1 : gset string) ∩ list_to_set k2).
Proof.
  rewrite count_hits_filter. simpl.
  rewrite <- (size_list_to_set (C := gset string))
    by apply NoDup_filter, JsSet_of_list_NoDup.
  f_equal. apply set_eq. intros y.
  rewrite elem_of_list_to_set, list_elem_of_filter, elem_of_intersection,
    !elem_of_list_to_set, !JsSet_of_list_elem. tauto.
Qed.

Lemma union_size (k1 k2 : list string) :
  length (JsSet.of_list (JsSet.of_list k1 ++ JsSet.of_list k2))
  = size ((list_to_set k1 : gset string) ∪ list_to_set k2).
Proof.
  rewrite JsSet_size. f_equal. apply set_eq. intros y.
  rewrite elem_of_list_to_set, elem_of_app, elem_of_union,
    !elem_of_list_to_set, !JsSet_of_list_elem. tauto.
Qed.

Lemma calculateScore_nonempty (k1 k2 : list string) :
  k1 ≠ [] → k2 ≠ [] →
  Matching.calculateScore k1 k2 = (Spec.jaccard (list_to_set k1) (list_to_set k2) * 100)%Q.
Proof.
  intros H1 H2. unfold Matching.calculateScore.
  destruct k1 as [| a k1]; [done |]. destruct k2 as [| b k2]; [done |].
  cbn [length Nat.eqb orb]. cbv zeta.
  rewrite matches_size, union_size. reflexivity.
Qed.

Lemma ratio_bounds (a b : nat) :
  (a ≤ b)%nat → (0 < b)%nat → (0 <= Matching.ratio a b * 100 <= 100)%Q.
Proof.
  intros Hab Hb. unfold Matching.ratio.
  assert (Hb' : (0 < inject_Z (Z.of_nat b))%Q).
  { replace 0%Q with (inject_Z 0) by reflexivity. rewrite <- Zlt_Qlt. lia. }
  assert (Ha' : (0 <= inject_Z (Z.of_nat a))%Q).
  { replace 0%Q with (inject_Z 0) by reflexivity. rewrite <- Zle_Qle. lia. }
  assert (Hab' : (inject_Z (Z.of_nat a) <= inject_Z (Z.of_nat b))%Q).
  { rewrite <- Zle_Qle. lia. }
  split.
  - apply Qmult_le_0_compat; [| discriminate].
    apply Qle_shift_div_l; [done |]. by rewrite Qmult_0_l.
  - apply Qle_trans with (1 * 100)%Q; [| discriminate].
    apply Qmult_le_compat_r; [| discriminate].
    apply Qle_shift_div_r; [done |]. by rewrite Qmult_1_l.
Qed.

Lemma calculateScore_bounds (k1 k2 : list string) :
  (0 <= Matching.calculateScore k1 k2 <= 100)%Q.
Proof.
  destruct (decide (k1 = [])) as [-> | H1]; [by cbn |].
  destruct (decide (k2 = [])) as [-> | H2].
  { unfold Matching.calculateScore. destruct k1; by cbn. }
  rewrite calculateScore_nonempty by done. unfold Spec.jaccard.
  apply ratio_bounds.
  - apply subseteq_size. intros x [Hx _]%elem_of_intersection.
    apply elem_of_union. by left.
  - destruct k1 as [| a k1]; [done |].
    assert (Ha : a ∈ (list_to_set (a :: k1) : gset string) ∪ list_to_set k2).
    { apply elem_of_union. left. apply elem_of_list_to_set. left. }
    destruct (size _) eqn:Hs; [| lia].
    apply size_empty_inv in Hs. rewrite Hs in Ha. by apply elem_of_empty in Ha.
Qed.

End Score.

(** C3.  [calculateScore] lies between 0 and 100, is 0 as soon as one of
    the two keyword lists is empty, and on two non-empty lists it is the
    Jaccard similarity of the two keyword sets, intersection size over
    union size, times 100. *)
Theorem calculateScore_jaccard (keywords1 keywords2 : list string) :
  (0 <= Matching.calculateScore keywords1 keywords2 <= 100)%Q
  ∧ (keywords1 = [] ∨ keywords2 = [] → Matching.calculateScore keywords1 keywords2 = 0%Q)
  ∧ (keywords1 ≠ [] → keywords2 ≠ [] →
     Matching.calculateScore keywords1 keywords2
     = (Spec.jaccard (list_to_set keywords1) (list_to_set keywords2) * 100)%Q).
Proof.
  split; [apply calculateScore_bounds |]. split.
  - intros [-> | ->]; [done |]. unfold Matching.calculateScore.
    by destruct keywords1.
  - apply calculateScore_nonempty.
Qed.

Lemma calculateScore_jaccard_witness :
  Matching.calculateScore [] ["timeout"] = 0%Q
  ∧ Matching.calculateScore ["database"; "timeout"; "query"] ["timeout"; "query"; "slow"; "query"]
    = (Spec.jaccard {[ "database"; "timeout"; "query" ]} {[ "timeout"; "query"; "slow" ]} * 100)%Q.
Proof.
  split.
  - exact (proj1 (proj2 (calculateScore_jaccard [] ["timeout"])) (or_introl eq_refl)).
  - replace ({[ "database"; "timeout"; "query" ]} : gset string)
      with (list_to_set ["database"; "timeout"; "query"] : gset string)
      by (apply set_eq; intros y; set_solver).
    replace ({[ "timeout"; "query"; "slow" ]} : gset string)
      with (list_to_set ["timeout"; "query"; "slow"; "query"] : gset string)
      by (apply set_eq; intros y; set_solver).
    apply (proj2 (proj2 (calculateScore_jaccard ["database"; "timeout"; "query"]
                           ["timeout"; "query"; "slow"; "query"]))); discriminate.
Defined.

(** ** Arrays: sorting and slicing *)

Section SortFacts.
Context {A K : Type} (ltb : K -> K -> bool) (key : A -> K).
Hypothesis ltb_asym : ∀ a b, ltb a b = true → ltb b a = false.
Hypothesis geb_trans : ∀ a b c, ltb a b = false → ltb b c = false → ltb a c = false.

#[local] Abbreviation insert_desc := (JsArray.insert_desc ltb key).
#[local] Abbreviation sort_desc := (JsArray.sort_desc ltb key).

(** [not_below x y]: [x] does not come after [y] in a descending order. *)
#[local] Abbreviation not_below := (fun x y : A => ltb (key x) (key y) = false).

Lemma insert_desc_perm x l : insert_desc x l ≡ₚ x :: l.
Proof.
  induction l as [| y l IH]; simpl; [done |].
  destruct (ltb (key x) (key y)); [| done].
  rewrite IH. apply Permutation_swap.
Qed.

Lemma sort_desc_perm l : sort_desc l ≡ₚ l.
Proof.
  induction l as [| x l IH]; simpl; [done |].
  by rewrite insert_desc_perm, IH.
Qed.

Lemma sort_desc_elem l x : x ∈ sort_desc l ↔ x ∈ l.
Proof. by rewrite sort_desc_perm. Qed.

Lemma insert_desc_sorted x l :
  StronglySorted not_below l → StronglySorted not_below (insert_desc x l).
Proof.
  induction 1 as [| y l Hl IH Hy]; simpl.
  - repeat constructor.
  - destruct (ltb (key x) (key y)) eqn:Hxy.
    + constructor; [done |].
      rewrite insert_desc_perm. constructor; [| done].
      by apply ltb_asym.
    + constructor; [by constructor |].
      constructor; [done |].
      eapply Forall_impl; [exact Hy |]. intros z Hz. by eapply geb_trans.
Qed.

Lemma sort_desc_sorted l : StronglySorted not_below (sort_desc l).
Proof.
  induction l as [| x l IH]; simpl; [constructor |].
  by apply insert_desc_sorted.
Qed.

(** The first element of the sorted array has a largest key. *)
Lemma sort_desc_head l x rest :
  sort_desc l = x :: rest → x ∈ l ∧ ∀ y, y ∈ l → y = x ∨ not_below x y.
Proof.
  intros Hs. pose proof (sort_desc_sorted l) as Hsorted.
  rewrite Hs in Hsorted. apply StronglySorted_inv in Hsorted as [_ Hall].
  split.
  - apply sort_desc_elem. rewrite Hs. left.
  - intros y Hy. apply sort_desc_elem in Hy. rewrite Hs in Hy.
    apply elem_of_cons in Hy as [-> | Hy]; [by left | right].
    rewrite Forall_forall in Hall. exact (Hall y Hy).
Qed.

Lemma sort_desc_nil l : sort_desc l = [] → l = [].
Proof.
  intros Hs. apply Permutation_nil_r. by rewrite <- Hs, sort_desc_perm.
Qed.

End SortFacts.

Section SliceFacts.
Context {A : Type}.

Lemma slice0_elem (limit : Z) (l : list A) x : x ∈ JsArray.slice0 limit l → x ∈ l.
Proof.
  unfold JsArray.slice0. destruct (limit <? 0)%Z; intros Hx;
    by eapply subseteq_take.
Qed.

Lemma slice0_all (limit : Z) (l : list A) :
  (Z.of_nat (length l) <= limit)%Z → JsArray.slice0 limit l = l.
Proof.
  intros Hl. unfold JsArray.slice0.
  destruct (limit <? 0)%Z eqn:Hneg; [lia |].
  apply take_ge. lia.
Qed.

Lemma slice0_one (l : list A) : JsArray.slice0 1 l = take 1 l.
Proof. reflexivity. Qed.

End SliceFacts.

Lemma Qltb_asym a b : JsArray.Qltb a b = true → JsArray.Qltb b a = false.
Proof.
  unfold JsArray.Qltb. destruct (Qlt_le_dec a b) as [Hab |]; [| done].
  intros _. destruct (Qlt_le_dec b a) as [Hba |]; [| done].
  exfalso. apply (Qlt_irrefl a). by eapply Qlt_trans.
Qed.

Lemma Qgeb_trans a b c :
  JsArray.Qltb a b = false → JsArray.Qltb b c = false → JsArray.Qltb a c = false.
Proof.
  unfold JsArray.Qltb.
  destruct (Qlt_le_dec a b) as [| Hba]; [done |].
  destruct (Qlt_le_dec b c) as [| Hcb]; [done |]. intros _ _.
  destruct (Qlt_le_dec a c) as [Hac |]; [| done].
  exfalso. apply (Qlt_irrefl a). eapply Qlt_le_trans; [exact Hac |].
  by eapply Qle_trans.
Qed.

Lemma Qltb_true a b : JsArray.Qltb a b = true ↔ (a < b)%Q.
Proof.
  unfold JsArray.Qltb. destruct (Qlt_le_dec a b) as [H | H]; split; try done.
  intros Hab. exfalso. apply (Qlt_irrefl a). by eapply Qlt_le_trans.
Qed.

Lemma Qltb_false a b : JsArray.Qltb a b = false ↔ (b <= a)%Q.
Proof.
  unfold JsArray.Qltb. destruct (Qlt_le_dec a b) as [H | H]; split; try done.
  intros Hab. exfalso. apply (Qlt_irrefl a). by eapply Qlt_le_trans.
Qed.

(** ** The keyword matcher *)

Section MatcherFacts.
Context `{RegexEngine}.

Lemma regex_hit_true p q :
  Matching.regex_hit p q = true
  ↔ ∃ regex, RegExp (Playbook.pattern p) "i" = Some regex ∧ test regex q = true.
Proof.
  unfold Matching.regex_hit. destruct (RegExp _ _) as [regex |].
  - split; [eauto | by intros (? & [= <-] & ?)].
  - split; [done | by intros (? & ? & _)].
Qed.

Lemma match_one_hit kw q p :
  Matching.regex_hit p q = true →
  Matching.match_one kw q p
  = [{| Matching.pattern := p; Matching.score := 100; Matching.matchedKeywords := kw |}].
Proof. intros Hhit. unfold Matching.match_one. by rewrite Hhit. Qed.

Lemma match_one_pattern kw q p r :
  r ∈ Matching.match_one kw q p → Matching.pattern r = p.
Proof.
  unfold Matching.match_one.
  destruct (Matching.regex_hit p q); [| destruct (Qlt_le_dec _ _)];
    rewrite ?list_elem_of_singleton, ?elem_of_nil; by intros; subst.
Qed.

Lemma match_one_score kw q p r :
  r ∈ Matching.match_one kw q p → (Matching.score r <= 100)%Q.
Proof.
  unfold Matching.match_one.
  destruct (Matching.regex_hit p q); [| destruct (Qlt_le_dec _ _)];
    rewrite ?list_elem_of_singleton, ?elem_of_nil; intros Hr; subst; simpl.
  - apply Qle_refl.
  - apply calculateScore_bounds.
  - done.
Qed.

Lemma match_one_length kw q p : (length (Matching.match_one kw q p) ≤ 1)%nat.
Proof.
  unfold Matching.match_one.
  destruct (Matching.regex_hit p q); [| destruct (Qlt_le_dec _ _)]; simpl; lia.
Qed.

Lemma candidates_elem pb q r :
  r ∈ Matching.candidates pb q
  ↔ ∃ p, p ∈ Playbook.patterns pb
         ∧ r ∈ Matching.match_one (Matching.extractKeywords q) q p.
Proof.
  unfold Matching.candidates. rewrite list_elem_of_In, in_flat_map.
  split; intros (p & Hp & Hr); exists p; by rewrite ?list_elem_of_In in *.
Qed.

Lemma candidates_length pb q :
  (length (Matching.candidates pb q) ≤ length (Playbook.patterns pb))%nat.
Proof.
  unfold Matching.candidates.
  induction (Playbook.patterns pb) as [| p ps IH]; simpl; [lia |].
  rewrite length_app.
  pose proof (match_one_length (Matching.extractKeywords q) q p). lia.
Qed.

Lemma candidates_pattern pb q r :
  r ∈ Matching.candidates pb q → Matching.pattern r ∈ Playbook.patterns pb.
Proof.
  intros (p & Hp & Hr)%candidates_elem. by rewrite (match_one_pattern _ _ _ _ Hr).
Qed.

Lemma findMatchingPatterns_elem pb q limit r :
  r ∈ Matching.findMatchingPatterns pb q limit → r ∈ Matching.candidates pb q.
Proof.
  unfold Matching.findMatchingPatterns. intros Hr%slice0_elem.
  by apply sort_desc_elem in Hr.
Qed.

Lemma findMatchingPatterns_all pb q limit r :
  (Z.of_nat (length (Playbook.patterns pb)) <= limit)%Z →
  r ∈ Matching.candidates pb q → r ∈ Matching.findMatchingPatterns pb q limit.
Proof.
  intros Hlimit Hr. unfold Matching.findMatchingPatterns.
  rewrite slice0_all.
  - by apply sort_desc_elem.
  - rewrite (Permutation_length (sort_desc_perm _ _ _)).
    pose proof (candidates_length pb q). lia.
Qed.

(** With limit 1, what comes back is a candidate with a largest score. *)
Lemma findMatchingPatterns_best pb q :
  match Matching.findMatchingPatterns pb q 1 with
  | [] => Matching.candidates pb q = []
  | best :: rest =>
      rest = [] ∧ best ∈ Matching.candidates pb q
      ∧ ∀ r, r ∈ Matching.candidates pb q → (Matching.score r <= Matching.score best)%Q
  end.
Proof.
  unfold Matching.findMatchingPatterns. rewrite slice0_one.
  destruct (JsArray.sort_desc _ _ _) as [| best rest] eqn:Hs; simpl.
  - by eapply sort_desc_nil.
  - rewrite take_0.
    apply (sort_desc_head _ _ Qltb_asym Qgeb_trans) in Hs as [Hbest Hmax].
    repeat split; [done |]. intros r Hr.
    destruct (Hmax r Hr) as [-> | Hle]; [apply Qle_refl |].
    by apply Qltb_false.
Qed.

End MatcherFacts.

(** C1.  A pattern whose [pattern] field compiles with the [i] flag and
    matches the query is pushed with score 100 and the query's keywords,
    whatever its own keywords are: its iteration pushes that result and
    nothing else, every result returned for it has score exactly 100, the
    result is returned when the limit does not cut the array, and no
    result scores more than 100. *)
Theorem regex_match_scores_100 `{RegexEngine} (pb : Playbook.Playbook) (q : string) (limit : Z) :
  (∀ r regex,
     r ∈ Matching.findMatchingPatterns pb q limit →
     RegExp (Playbook.pattern (Matching.pattern r)) "i" = Some regex →
     test regex q = true →
     Matching.score r = 100%Q ∧ Matching.matchedKeywords r = Matching.extractKeywords q)
  ∧ (∀ p regex,
       p ∈ Playbook.patterns pb →
       RegExp (Playbook.pattern p) "i" = Some regex →
       test regex q = true →
       let hit := {| Matching.pattern := p; Matching.score := 100;
                     Matching.matchedKeywords := Matching.extractKeywords q |} in
       Matching.match_one (Matching.extractKeywords q) q p = [hit]
       ∧ hit ∈ Matching.candidates pb q
       ∧ ((Z.of_nat (length (Playbook.patterns pb)) <= limit)%Z →
          hit ∈ Matching.findMatchingPatterns pb q limit))
  ∧ (∀ r, r ∈ Matching.findMatchingPatterns pb q limit → (Matching.score r <= 100)%Q).
Proof.
  split; [| split].
  - intros r regex Hr Hc Ht.
    apply findMatchingPatterns_elem, candidates_elem in Hr as (p & Hp & Hr).
    pose proof (match_one_pattern _ _ _ _ Hr) as Hrp. rewrite Hrp in Hc.
    rewrite match_one_hit in Hr by (apply regex_hit_true; eauto).
    apply list_elem_of_singleton in Hr. by subst r.
  - intros p regex Hp Hc Ht hit.
    assert (Hone : Matching.match_one (Matching.extractKeywords q) q p = [hit])
      by (apply match_one_hit, regex_hit_true; eauto).
    assert (Hcand : hit ∈ Matching.candidates pb q).
    { apply candidates_elem. exists p. split; [done |]. rewrite Hone. left. }
    repeat split; [done | done |]. intros Hlimit.
    by apply findMatchingPatterns_all.
  - intros r Hr.
    apply findMatchingPatterns_elem, candidates_elem in Hr as (p & Hp & Hr).
    by eapply match_one_score.
Qed.

Lemma regex_match_scores_100_witness :
  {| Matching.pattern := Examples.refused; Matching.score := 100;
     Matching.matchedKeywords := Matching.extractKeywords Examples.refused_query |}
  ∈ Matching.findMatchingPatterns (H := LiteralEngine.engine)
      {| Playbook.patterns := [Examples.refused] |} Examples.refused_query 10.
Proof.
  refine (proj2 (proj2 (proj1 (proj2
            (regex_match_scores_100 (H := LiteralEngine.engine)
               {| Playbook.patterns := [Examples.refused] |} Examples.refused_query 10))
            Examples.refused "ECONNREFUSED" _ _ _)) _).
  - left.
  - reflexivity.
  - vm_compute. reflexivity.
  - simpl. lia.
Defined.

(** ** The extraction pipeline *)

Section ReflectFacts.
Context `{RegexEngine}.


Lemma suggest_new_severity r row :
  Playbook.severity (Reflect.suggest_new r row)
  = Reflect.severity_of_count (Reflect.count row).
Proof. reflexivity. Qed.

(** The row is known exactly when some candidate scores above 80. *)
Lemma isKnown_iff pb q :
  Reflect.isKnown (Matching.findMatchingPatterns pb q 1) = true
  ↔ ∃ r, r ∈ Matching.candidates pb q ∧ (80 < Matching.score r)%Q.
Proof.
  pose proof (findMatchingPatterns_best pb q) as Hbest.
  destruct (Matching.findMatchingPatterns pb q 1) as [| best rest]; simpl.
  - rewrite Hbest. split; [done |]. by intros (r & Hr%elem_of_nil & _).
  - destruct Hbest as (_ & Hin & Hmax). rewrite Qltb_true. split.
    + intros Hlt. by exists best.
    + intros (r & Hr & Hlt). eapply Qlt_le_trans; [exact Hlt |]. by apply Hmax.
Qed.

Lemma classify_all_snoc random pb rows row :
  Reflect.classify_all random pb (rows ++ [row])%list
  = Reflect.classify random pb (Reflect.classify_all random pb rows) row.
Proof. unfold Reflect.classify_all. by rewrite foldl_app. Qed.

Lemma classify_errors random pb st row :
  map Reflect.error (Reflect.suggestions (Reflect.classify random pb st row))
  = (map Reflect.error (Reflect.suggestions st) ++ [row])%list.
Proof.
  unfold Reflect.classify.
  destruct (Matching.findMatchingPatterns pb _ 1) as [| best rest];
    [| destruct (Reflect.isKnown _)]; simpl; by rewrite map_app.
Qed.

Lemma classify_all_errors random pb rows :
  map Reflect.error (Reflect.suggestions (Reflect.classify_all random pb rows)) = rows.
Proof.
  induction rows as [| row rows IH] using rev_ind; [done |].
  by rewrite classify_all_snoc, classify_errors, IH.
Qed.

End ReflectFacts.



(** ** Validation *)

Section ValidationFacts.
Context `{RegexEngine}.

#[local] Abbreviation dup_error j pid :=
  (Playbook.mkError ("patterns[" ++ pretty j ++ "].id")%string
                    ("Duplicate pattern ID: " ++ pid)%string).

Lemma string_app_assoc (a b c : string) : ((a ++ b) ++ c = a ++ (b ++ c))%string.
Proof.
  induction a as [| x a IH]; [done |].
  change (String x ((a ++ b) ++ c) = String x (a ++ (b ++ c)))%string.
  by rewrite IH.
Qed.

Lemma seen_grows (ids : list string) pid x :
  x ∈ ids ∨ x = pid → x ∈ (if bool_decide (pid ∈ ids) then ids else (ids ++ [pid])%list).
Proof.
  case_bool_decide; intros [Hx | ->]; try done;
    rewrite elem_of_app, list_elem_of_singleton; tauto.
Qed.

Lemma validate_from_pattern ids i0 ps i n p e :
  n = (i0 + i)%nat →
  ps !! i = Some p →
  e ∈ Playbook.validatePattern p n →
  e ∈ Playbook.validate_from ids i0 ps.
Proof.
  revert ids i0 i. induction ps as [| p0 ps IH]; intros ids i0 i Hn Hp He; [done |].
  destruct i as [| i]; simpl in Hp.
  - injection Hp as ->. replace n with i0 in He by lia. simpl.
    destruct (Js.get p "id"); rewrite ?elem_of_app; auto.
  - assert (Hrest : ∀ ids', e ∈ Playbook.validate_from ids' (S i0) ps)
      by (intros ids'; apply (IH ids' (S i0) i); [lia | done | done]).
    simpl. destruct (Js.get p0 "id"); rewrite ?elem_of_app; auto.
Qed.

Lemma validate_from_seen ids i0 ps j n p pid :
  n = (i0 + j)%nat →
  pid ∈ ids →
  ps !! j = Some p →
  Js.get p "id" = JSString pid →
  dup_error n pid ∈ Playbook.validate_from ids i0 ps.
Proof.
  revert ids i0 j. induction ps as [| p0 ps IH]; intros ids i0 j Hn Hin Hp Hid; [done |].
  destruct j as [| j]; simpl in Hp.
  - injection Hp as ->. replace n with i0 by lia. simpl. rewrite Hid.
    rewrite bool_decide_eq_true_2 by done. left.
  - assert (Hrest : ∀ ids', pid ∈ ids' →
                dup_error n pid ∈ Playbook.validate_from ids' (S i0) ps)
      by (intros ids' Hin'; apply (IH ids' (S i0) j); [lia | done | done | done]).
    simpl. destruct (Js.get p0 "id") eqn:Hid0; rewrite ?elem_of_app; auto.
    right. right. apply Hrest, seen_grows. by left.
Qed.

Lemma validate_from_duplicate ids i0 ps i j n p p' pid :
  n = (i0 + j)%nat →
  (i < j)%nat →
  ps !! i = Some p → Js.get p "id" = JSString pid →
  ps !! j = Some p' → Js.get p' "id" = JSString pid →
  dup_error n pid ∈ Playbook.validate_from ids i0 ps.
Proof.
  revert ids i0 i j.
  induction ps as [| p0 ps IH]; intros ids i0 i j Hn Hij Hp Hid Hp' Hid'; [done |].
  destruct j as [| j]; [lia |]. simpl in Hp'.
  destruct i as [| i]; simpl in Hp.
  - injection Hp as ->. simpl. rewrite Hid. rewrite !elem_of_app. right. right.
    apply (validate_from_seen _ (S i0) ps j n p' pid); [lia | | done | done].
    apply seen_grows. by right.
  - assert (Hrest : ∀ ids', dup_error n pid ∈ Playbook.validate_from ids' (S i0) ps)
      by (intros ids'; apply (IH ids' (S i0) i j); [lia | lia | done ..]).
    simpl. destruct (Js.get p0 "id"); rewrite ?elem_of_app; auto.
Qed.

(** What [validatePattern] reports on an object is every report of every
    check. *)
Lemma validatePattern_checks p index e :
  Js.is_object p = true →
  let prefix := "patterns[" ++ pretty index ++ "]" in
  (∃ field, field ∈ ["id"; "fingerprint"; "pattern"; "category"; "title"]
            ∧ e ∈ Playbook.check_required_string prefix p field)
  ∨ e ∈ Playbook.check_severity prefix p
  ∨ (∃ field, field ∈ ["symptoms"; "root_causes"; "fixes"]
              ∧ e ∈ Playbook.check_array prefix p field)
  ∨ e ∈ Playbook.check_feedback prefix p
  ∨ e ∈ Playbook.check_regex prefix p →
  e ∈ Playbook.validatePattern p index.
Proof.
  intros Hobj prefix. unfold Playbook.validatePattern. rewrite Hobj. simpl negb.
  cbv iota. fold prefix. rewrite !elem_of_app.
  intros [(field & Hf & He) | [He | [(field & Hf & He) | [He | He]]]]; auto.
  - left. apply list_elem_of_In, in_flat_map. exists field.
    by rewrite <- !list_elem_of_In.
  - right. right. left. apply list_elem_of_In, in_flat_map. exists field.
    by rewrite <- !list_elem_of_In.
Qed.

Lemma check_severity_invalid prefix p :
  (∀ s, s ∈ Playbook.validSeverities → Js.get p "severity" ≠ JSString s) →
  Playbook.check_severity prefix p
  = [Playbook.mkError (prefix ++ ".severity") "severity must be one of: low, medium, high"].
Proof.
  intros Hbad. unfold Playbook.check_severity.
  destruct (Js.get p "severity") as [| | b | n | s | l | fields]; try done.
  destruct (existsb (String.eqb s) Playbook.validSeverities) eqn:Hex; [| done].
  apply existsb_exists in Hex as (s' & Hs' & ->%String.eqb_eq).
  apply list_elem_of_In in Hs'. by destruct (Hbad s' Hs').
Qed.

End ValidationFacts.

(** C6.  On a playbook whose [patterns] array has two entries with the
    same id, one of them with a severity outside low, medium and high,
    [validatePlaybook] reports the duplicate id at the second entry and the
    severity at the offending entry.  In general every report of
    [validatePattern] on every entry is in the result, every entry that
    repeats the id of an earlier one is reported, and [validatePattern]
    on an object reports what each of its checks reports. *)
Theorem validatePlaybook_accumulates `{RegexEngine} (data : JSValue) (ps : list JSValue) :
  Js.is_object data = true →
  Js.get data "patterns" = JSArray ps →
  (∀ p0 p1 pid k bad,
     ps = [p0; p1] →
     Js.get p0 "id" = JSString pid → Js.get p1 "id" = JSString pid →
     [p0; p1] !! k = Some bad →
     (∀ s, s ∈ Playbook.validSeverities → Js.get bad "severity" ≠ JSString s) →
     Playbook.mkError "patterns[1].id" ("Duplicate pattern ID: " ++ pid)
       ∈ Playbook.validatePlaybook data
     ∧ Playbook.mkError ("patterns[" ++ pretty k ++ "].severity")
         "severity must be one of: low, medium, high"
       ∈ Playbook.validatePlaybook data)
  ∧ (∀ i p e, ps !! i = Some p → e ∈ Playbook.validatePattern p i →
              e ∈ Playbook.validatePlaybook data)
  ∧ (∀ i j p p' pid,
       (i < j)%nat →
       ps !! i = Some p → Js.get p "id" = JSString pid →
       ps !! j = Some p' → Js.get p' "id" = JSString pid →
       Playbook.mkError ("patterns[" ++ pretty j ++ "].id") ("Duplicate pattern ID: " ++ pid)
         ∈ Playbook.validatePlaybook data)
  ∧ (∀ p index e,
       Js.is_object p = true →
       let prefix := "patterns[" ++ pretty index ++ "]" in
       (∃ field, field ∈ ["id"; "fingerprint"; "pattern"; "category"; "title"]
                 ∧ e ∈ Playbook.check_required_string prefix p field)
       ∨ e ∈ Playbook.check_severity prefix p
       ∨ (∃ field, field ∈ ["symptoms"; "root_causes"; "fixes"]
                   ∧ e ∈ Playbook.check_array prefix p field)
       ∨ e ∈ Playbook.check_feedback prefix p
       ∨ e ∈ Playbook.check_regex prefix p →
       e ∈ Playbook.validatePattern p index).
Proof.
  intros Hobj Hps.
  assert (Hall : ∀ i p e, ps !! i = Some p → e ∈ Playbook.validatePattern p i →
                          e ∈ Playbook.validatePlaybook data).
  { intros i p e Hp He. unfold Playbook.validatePlaybook. rewrite Hobj, Hps. simpl.
    by apply (validate_from_pattern [] 0%nat ps i i p e). }
  assert (Hdup : ∀ i j p p' pid,
             (i < j)%nat →
             ps !! i = Some p → Js.get p "id" = JSString pid →
             ps !! j = Some p' → Js.get p' "id" = JSString pid →
             Playbook.mkError ("patterns[" ++ pretty j ++ "].id")
               ("Duplicate pattern ID: " ++ pid) ∈ Playbook.validatePlaybook data).
  { intros i j p p' pid Hij Hp Hid Hp' Hid'.
    unfold Playbook.validatePlaybook. rewrite Hobj, Hps. simpl.
    by apply (validate_from_duplicate [] 0%nat ps i j j p p' pid). }
  split; [| split; [done | split; [done |]]].
  - intros p0 p1 pid k bad -> Hid0 Hid1 Hk Hbad. split.
    + by apply (Hdup 0%nat 1%nat p0 p1 pid); [lia | | | |].
    + apply (Hall k bad); [done |].
      assert (Hbo : Js.is_object bad = true).
      { destruct k as [| [| k]]; simpl in Hk; [| | done]; injection Hk as <-.
        - by destruct p0.
        - by destruct p1. }
      apply validatePattern_checks; [done |]. right. left.
      rewrite check_severity_invalid by done.
      rewrite !string_app_assoc. left.
  - intros p index e Hp. by apply validatePattern_checks.
Qed.

Lemma validatePlaybook_accumulates_witness :
  Playbook.mkError "patterns[1].id" "Duplicate pattern ID: slsm-001"
    ∈ Playbook.validatePlaybook (H := LiteralEngine.engine) Examples.invalid_playbook
  ∧ Playbook.mkError "patterns[0].severity" "severity must be one of: low, medium, high"
    ∈ Playbook.validatePlaybook (H := LiteralEngine.engine) Examples.invalid_playbook.
Proof.
  refine (proj1 (validatePlaybook_accumulates (H := LiteralEngine.engine)
                   Examples.invalid_playbook [Examples.bad_severity; Examples.duplicate_id] _ _)
            Examples.bad_severity Examples.duplicate_id "slsm-001" 0%nat Examples.bad_severity _ _ _ _ _);
    try reflexivity.
  intros s Hs. vm_compute in Hs.
  repeat (apply elem_of_cons in Hs as [-> | Hs]; [discriminate |]).
  by apply elem_of_nil in Hs.
Defined.

(** ** Feedback *)

Section FeedbackFacts.

Lemma findPatternById_None pb i :
  Playbook.findPatternById pb i = None ↔ ∀ p, p ∈ Playbook.patterns pb → Playbook.id p ≠ i.
Proof.
  unfold Playbook.findPatternById.
  induction (Playbook.patterns pb) as [| q ps IH]; simpl.
  - split; [by intros _ p Hp%elem_of_nil | done].
  - case_bool_decide as Hq.
    + split; [done |]. intros Hall. destruct (Hall q); [left | done].
    + rewrite IH. split.
      * intros Hall p [-> | Hp]%elem_of_cons; auto.
      * intros Hall p Hp. apply Hall. by right.
Qed.

(** The object that [find] returns is the first element with the id, and
    marking replaces that element alone. *)
Lemma mark_first_found ps i ty p :
  find (fun p => bool_decide (Playbook.id p = i)) ps = Some p →
  ∃ k, ps !! k = Some p ∧ Playbook.id p = i
       ∧ (∀ j q, (j < k)%nat → ps !! j = Some q → Playbook.id q ≠ i)
       ∧ Mark.mark_first i ty ps = <[k := Playbook.recordFeedback p ty]> ps.
Proof.
  induction ps as [| q ps IH]; simpl; [done |].
  case_bool_decide as Hq.
  - intros [= ->]. exists 0%nat.
    split; [done |]. split; [done |]. split; [| done].
    intros j q' Hj. lia.
  - intros (k & Hk & Hid & Hfirst & Hmark)%IH. exists (S k).
    split; [done |]. split; [done |]. split; [| by rewrite Hmark].
    intros [| j] q' Hj Hq'; simpl in Hq'.
    + by injection Hq' as <-.
    + apply (Hfirst j); [lia | done].
Qed.

Lemma bump_counts f ty :
  match ty with
  | Playbook.Helpful =>
      Playbook.helpful (Playbook.bump f ty) = (Playbook.helpful f + 1)%Z
      ∧ Playbook.harmful (Playbook.bump f ty) = Playbook.harmful f
  | Playbook.Harmful =>
      Playbook.helpful (Playbook.bump f ty) = Playbook.helpful f
      ∧ Playbook.harmful (Playbook.bump f ty) = (Playbook.harmful f + 1)%Z
  end.
Proof. by destruct ty. Qed.

End FeedbackFacts.

(** C7.  [markCommand] with an id that no record of the playbook has
    leaves the playbook file as it was and reports the failure.  With an
    id that some record has and a feedback word that reads helpful or
    harmful, it saves the playbook in which the first record with that id
    has the named counter one higher, and the other counter, the other
    fields and the other records are as before.  Whatever the arguments,
    no counter of any record is lower afterwards. *)
Theorem markCommand_feedback (i feedback : string) (store : Playbook.Store) :
  let before := Playbook.patterns (Playbook.loadPlaybook store) in
  let after := Playbook.patterns (Playbook.loadPlaybook (Mark.markCommand i feedback store).1) in
  ((∀ p, p ∈ before → Playbook.id p ≠ i) →
   (Mark.markCommand i feedback store).1 = store
   ∧ ((Mark.markCommand i feedback store).2 = Mark.NotFound
      ∨ (Mark.markCommand i feedback store).2 = Mark.InvalidFeedback))
  ∧ (∀ ty, Mark.parse_feedback feedback = Some ty →
       (∃ p, p ∈ before ∧ Playbook.id p = i) →
       ∃ k p, before !! k = Some p ∧ Playbook.id p = i
              ∧ (∀ j q, (j < k)%nat → before !! j = Some q → Playbook.id q ≠ i)
              ∧ Mark.markCommand i feedback store
                = (Some {| Playbook.patterns := <[k := Playbook.recordFeedback p ty]> before |},
                   Mark.Marked (Playbook.feedback (Playbook.recordFeedback p ty)))
              ∧ Playbook.recordFeedback p ty
                = {| Playbook.id := Playbook.id p;
                     Playbook.fingerprint := Playbook.fingerprint p;
                     Playbook.pattern := Playbook.pattern p;
                     Playbook.severity := Playbook.severity p;
                     Playbook.category := Playbook.category p;
                     Playbook.title := Playbook.title p;
                     Playbook.symptoms := Playbook.symptoms p;
                     Playbook.root_causes := Playbook.root_causes p;
                     Playbook.fixes := Playbook.fixes p;
                     Playbook.feedback :=
                       match ty with
                       | Playbook.Helpful =>
                           {| Playbook.helpful := Playbook.helpful (Playbook.feedback p) + 1;
                              Playbook.harmful := Playbook.harmful (Playbook.feedback p) |}
                       | Playbook.Harmful =>
                           {| Playbook.helpful := Playbook.helpful (Playbook.feedback p);
                              Playbook.harmful := Playbook.harmful (Playbook.feedback p) + 1 |}
                       end |})
  ∧ (∀ k p, before !! k = Some p →
       ∃ p', after !! k = Some p'
             ∧ (Playbook.helpful (Playbook.feedback p)
                <= Playbook.helpful (Playbook.feedback p'))%Z
             ∧ (Playbook.harmful (Playbook.feedback p)
                <= Playbook.harmful (Playbook.feedback p'))%Z).
Proof.
  intros before after. subst after. unfold Mark.markCommand.
  split; [| split].
  - intros Hnone. apply (proj2 (findPatternById_None _ _)) in Hnone.
    destruct (Mark.parse_feedback feedback); [| by auto].
    rewrite Hnone. auto.
  - intros ty -> (p0 & Hp0 & Hid0).
    destruct (Playbook.findPatternById _ i) as [p |] eqn:Hfind.
    + unfold Playbook.findPatternById in Hfind.
      destruct (mark_first_found _ _ ty _ Hfind) as (k & Hk & Hid & Hfirst & Hmark).
      exists k, p.
      split; [done |]. split; [done |]. split; [done |].
      split; [by rewrite Hmark | by destruct ty].
    + pose proof (proj1 (findPatternById_None _ _) Hfind p0 Hp0) as Hne. done.
  - intros k p Hk.
    destruct (Mark.parse_feedback feedback) as [ty |]; [| exists p; simpl; split; [done | lia]].
    destruct (Playbook.findPatternById _ i) as [q |] eqn:Hfind;
      [| exists p; simpl; split; [done | lia]].
    unfold Playbook.findPatternById in Hfind.
    destruct (mark_first_found _ _ ty _ Hfind) as (k' & Hk' & Hid & Hfirst & Hmark).
    simpl. rewrite Hmark. destruct (decide (k = k')) as [-> | Hne].
    + exists (Playbook.recordFeedback q ty). split.
      * apply list_lookup_insert_eq. by eapply lookup_lt_Some.
      * fold before in Hk'. assert (p = q) as -> by congruence.
        destruct ty; simpl; lia.
    + exists p. split; [by rewrite list_lookup_insert_ne | lia].
Qed.

Lemma markCommand_feedback_witness :
  Mark.markCommand "slsm-404" "helpful" (Some {| Playbook.patterns := [Examples.refused] |})
  = (Some {| Playbook.patterns := [Examples.refused] |}, Mark.NotFound)
  ∧ ∃ p, Playbook.patterns
           (Playbook.loadPlaybook
              (Mark.markCommand "slsm-001" "Helpful"
                 (Some {| Playbook.patterns := [Examples.refused] |})).1) !! 0%nat = Some p
         ∧ (0 <= Playbook.helpful (Playbook.feedback p))%Z.
Proof.
  split; [reflexivity |].
  destruct (proj2 (proj2 (markCommand_feedback "slsm-001" "Helpful"
                            (Some {| Playbook.patterns := [Examples.refused] |})))
              0%nat Examples.refused eq_refl) as (p & Hp & Hh & _).
  exists p. split; [exact Hp |]. exact Hh.
Defined.

(** C8.  A run of [reflectCommand] on a playbook whose ids are distinct
    can save a playbook in which two records share an id: the new record
    takes the id that [Math.random] gives, and nothing compares it with the
    ids in use.  [validatePlaybook] then reports the saved playbook. *)
Theorem reflect_duplicate_id :
  NoDup (map Playbook.id [Examples.refused])
  ∧ map Playbook.id (Playbook.patterns Examples.after_reflect) = ["slsm-001"; "slsm-001"]
  ∧ ¬ NoDup (map Playbook.id (Playbook.patterns Examples.after_reflect))
  ∧ Playbook.mkError "patterns[1].id" "Duplicate pattern ID: slsm-001"
    ∈ Playbook.validatePlaybook (H := LiteralEngine.engine)
        (Playbook.playbook_value Examples.after_reflect).
Proof.
  assert (Hids : map Playbook.id (Playbook.patterns Examples.after_reflect)
                 = ["slsm-001"; "slsm-001"]) by (vm_compute; reflexivity).
  split; [apply NoDup_singleton |]. split; [exact Hids |]. split.
  - rewrite Hids. intros Hnd. apply NoDup_cons in Hnd as [Hnotin _].
    apply Hnotin. left.
  - vm_compute. left.
Qed.

(** ** Inverse document frequency *)

Section IdfFacts.

Lemma termDocCount_filter documents term n :
  foldl (fun n doc => if Embeddings.includes doc term then S n else n) n documents
  = (n + length (filter (fun doc => term ∈ doc) documents))%nat.
Proof.
  revert n. induction documents as [| doc documents IH]; intros n; simpl; [lia |].
  rewrite IH, filter_cons. unfold Embeddings.includes.
  case_bool_decide; destruct (decide (term ∈ doc)); simpl; try done; lia.
Qed.

(** The document frequency of a term: in how many documents it occurs. *)
Lemma termDocCount_df documents term :
  Embeddings.termDocCount documents term
  = length (filter (fun doc => term ∈ doc) documents).
Proof. unfold Embeddings.termDocCount. by rewrite termDocCount_filter. Qed.

Lemma termDocCount_le documents term :
  (Embeddings.termDocCount documents term ≤ length documents)%nat.
Proof. rewrite termDocCount_df. apply length_filter. Qed.

Lemma fold_insert_lookup (f : string → R) (l : list string) (m : gmap string R) t :
  foldl (fun m t => <[t := f t]> m) m l !! t
  = if decide (t ∈ l) then Some (f t) else m !! t.
Proof.
  revert m. induction l as [| x l IH]; intros m; simpl; [done |].
  rewrite IH. destruct (decide (t ∈ l)) as [Hin | Hnin].
  - rewrite decide_True by (by right). done.
  - destruct (decide (t = x)) as [-> | Hne].
    + rewrite decide_True by left. by rewrite lookup_insert_eq.
    + rewrite decide_False by (intros [? | ?]%elem_of_cons; done).
      by rewrite lookup_insert_ne.
Qed.

Lemma computeIdf_lookup documents vocab term :
  Embeddings.computeIdf documents vocab !! term
  = if decide (term ∈ vocab) then
      Some (ln ((INR (length documents) + 1)
                / (INR (Embeddings.termDocCount documents term) + 1)) + 1)%R
    else None.
Proof.
  unfold Embeddings.computeIdf.
  rewrite (fold_insert_lookup
             (fun term => (ln ((INR (length documents) + 1)
                               / (INR (Embeddings.termDocCount documents term) + 1)) + 1)%R)).
  by destruct (decide (term ∈ vocab)).
Qed.

Lemma smoothed_ratio (N df : nat) :
  (df ≤ N)%nat → (1 <= (INR N + 1) / (INR df + 1))%R.
Proof.
  intros Hle. pose proof (pos_INR df) as Hdf. apply le_INR in Hle.
  apply (Rmult_le_reg_r (INR df + 1)); [lra |].
  unfold Rdiv. rewrite Rmult_assoc, Rinv_l by lra. lra.
Qed.

Lemma ln_nonneg (x : R) : (1 <= x)%R → (0 <= ln x)%R.
Proof.
  intros [Hlt | <-].
  - rewrite <- ln_1. left. apply ln_increasing; lra.
  - rewrite ln_1. lra.
Qed.

Lemma computeIdf_ge_1 documents vocab term v :
  Embeddings.computeIdf documents vocab !! term = Some v → (1 <= v)%R.
Proof.
  rewrite computeIdf_lookup. destruct (decide (term ∈ vocab)); [| done].
  intros [= <-].
  pose proof (ln_nonneg _ (smoothed_ratio _ _ (termDocCount_le documents term))).
  lra.
Qed.

End IdfFacts.

(** C9.  For [N] documents and a term of the vocabulary that occurs in
    [df] of them, the table of [computeIdf] holds ln((N+1)/(df+1)) + 1.
    The quotient is at least 1, so the logarithm is taken of a positive
    number and the value is at least 1, hence strictly positive; for a
    term of no document it is ln(N+1) + 1 and for a term of every document
    it is 1. *)
Theorem computeIdf_smoothed (documents : list (list string)) (vocab : list string)
    (term : string) :
  let N := length documents in
  let df := length (filter (fun doc => term ∈ doc) documents) in
  term ∈ vocab →
  Embeddings.computeIdf documents vocab !! term
  = Some (ln ((INR N + 1) / (INR df + 1)) + 1)%R
  ∧ (df ≤ N)%nat
  ∧ (INR df + 1 ≠ 0)%R
  ∧ (1 <= (INR N + 1) / (INR df + 1))%R
  ∧ (1 <= ln ((INR N + 1) / (INR df + 1)) + 1)%R
  ∧ (0 < ln ((INR N + 1) / (INR df + 1)) + 1)%R
  ∧ (df = 0%nat → Embeddings.computeIdf documents vocab !! term = Some (ln (INR N + 1) + 1)%R)
  ∧ (df = N → Embeddings.computeIdf documents vocab !! term = Some 1%R).
Proof.
  intros N df Hin.
  assert (Hle : (df ≤ N)%nat) by apply length_filter.
  assert (Hlook : Embeddings.computeIdf documents vocab !! term
                  = Some (ln ((INR N + 1) / (INR df + 1)) + 1)%R).
  { rewrite computeIdf_lookup, decide_True by done. by rewrite termDocCount_df. }
  pose proof (smoothed_ratio N df Hle) as Hratio.
  pose proof (ln_nonneg _ Hratio) as Hln.
  pose proof (pos_INR df) as Hdf.
  split; [done |]. split; [done |]. split; [lra |]. split; [done |].
  split; [lra |]. split; [lra |]. split.
  - intros H0. rewrite Hlook, H0. simpl INR. do 3 f_equal. field.
  - intros HN. rewrite Hlook, HN. do 2 f_equal.
    replace ((INR N + 1) / (INR N + 1))%R with 1%R.
    + rewrite ln_1. lra.
    + field. pose proof (pos_INR N). lra.
Qed.

Lemma computeIdf_smoothed_witness :
  Embeddings.computeIdf [["disk"; "full"]; ["disk"; "error"]] ["disk"; "full"; "error"] !! "full"
  = Some (ln ((INR 2 + 1) / (INR 1 + 1)) + 1)%R.
Proof.
  refine (proj1 (computeIdf_smoothed [["disk"; "full"]; ["disk"; "error"]]
                   ["disk"; "full"; "error"] "full" _)).
  right. left.
Defined.

(** ** Vectors: sums of squares and dot products *)

Section VectorAlgebra.
Open Scope R_scope.

(** The dot product loop of [cosineSimilarity] on two term maps. *)
#[local] Abbreviation dot t1 t2 :=
  (Embeddings.dotProduct {| Embeddings.terms := t1; Embeddings.magnitude := 0 |}
                         {| Embeddings.terms := t2; Embeddings.magnitude := 0 |}).

#[local] Abbreviation at0 t k := (default 0 (t !! k)).

Lemma dotProduct_terms v1 v2 :
  Embeddings.dotProduct v1 v2 = dot (Embeddings.terms v1) (Embeddings.terms v2).
Proof. reflexivity. Qed.

Lemma sumSquares_empty : Embeddings.sumSquares ∅ = 0.
Proof. reflexivity. Qed.

Lemma sumSquares_insert (t : gmap string R) k x :
  t !! k = None →
  Embeddings.sumSquares (<[k := x]> t) = Embeddings.sumSquares t + x * x.
Proof.
  intros Hk. unfold Embeddings.sumSquares.
  rewrite map_fold_insert_L; [done | intros; lra | done].
Qed.

Lemma sumSquares_delete (t : gmap string R) k x :
  t !! k = Some x →
  Embeddings.sumSquares t = Embeddings.sumSquares (delete k t) + x * x.
Proof.
  intros Hk. rewrite <- (insert_delete_id t k x) at 1 by done.
  apply sumSquares_insert, lookup_delete_eq.
Qed.

Lemma sumSquares_nonneg (t : gmap string R) : 0 <= Embeddings.sumSquares t.
Proof.
  induction t as [| k x t Hk IH] using map_ind; [rewrite sumSquares_empty; lra |].
  rewrite sumSquares_insert by done. nra.
Qed.

Lemma dot_empty_l (t2 : gmap string R) : dot ∅ t2 = 0.
Proof. reflexivity. Qed.

Lemma dot_insert_l (t1 t2 : gmap string R) k x :
  t1 !! k = None → dot (<[k := x]> t1) t2 = dot t1 t2 + x * at0 t2 k.
Proof.
  intros Hk. unfold Embeddings.dotProduct. simpl.
  rewrite map_fold_insert_L; [| | done].
  - destruct (t2 !! k); simpl; lra.
  - intros j1 j2 z1 z2 y _ _ _. destruct (t2 !! j1), (t2 !! j2); lra.
Qed.

Lemma dot_empty_r (t1 : gmap string R) : dot t1 ∅ = 0.
Proof.
  induction t1 as [| k x t1 Hk IH] using map_ind; [done |].
  rewrite dot_insert_l, IH, lookup_empty by done. simpl. lra.
Qed.

Lemma dot_insert_r (t1 t2 : gmap string R) k y :
  t2 !! k = None → dot t1 (<[k := y]> t2) = dot t1 t2 + at0 t1 k * y.
Proof.
  intros Hk. induction t1 as [| j x t1 Hj IH] using map_ind.
  - rewrite !dot_empty_l, lookup_empty. simpl. lra.
  - rewrite !dot_insert_l, IH by done.
    destruct (decide (j = k)) as [-> | Hne].
    + rewrite !lookup_insert_eq, Hj, Hk. simpl. lra.
    + rewrite !lookup_insert_ne by done. lra.
Qed.

Lemma dot_delete_r (t1 t2 : gmap string R) k :
  t1 !! k = None → dot t1 (delete k t2) = dot t1 t2.
Proof.
  intros Hk. destruct (t2 !! k) as [y |] eqn:Hy.
  - rewrite <- (insert_delete_id t2 k y) at 2 by done.
    rewrite dot_insert_r by apply lookup_delete_eq. rewrite Hk. simpl. lra.
  - by rewrite delete_id.
Qed.

Lemma dot_comm (t1 t2 : gmap string R) : dot t1 t2 = dot t2 t1.
Proof.
  induction t1 as [| k x t1 Hk IH] using map_ind.
  - by rewrite dot_empty_l, dot_empty_r.
  - rewrite dot_insert_l, dot_insert_r, IH by done. lra.
Qed.


Lemma dot_nonneg (t1 t2 : gmap string R) :
  (∀ k x, t1 !! k = Some x → 0 <= x) →
  (∀ k y, t2 !! k = Some y → 0 <= y) →
  0 <= dot t1 t2.
Proof.
  intros H1 H2. induction t1 as [| k x t1 Hk IH] using map_ind;
    [rewrite dot_empty_l; lra |].
  rewrite dot_insert_l by done.
  assert (0 <= x) by (apply (H1 k); apply lookup_insert_eq).
  assert (0 <= at0 t2 k) by (destruct (t2 !! k) eqn:Hy; simpl; [by eapply H2 | lra]).
  assert (0 <= dot t1 t2).
  { apply IH. intros j z Hj. apply (H1 j).
    rewrite lookup_insert_ne; [done | congruence]. }
  nra.
Qed.

(** One step of the Cauchy-Schwarz inequality. *)
Lemma cauchy_step (A B C x y : R) :
  0 <= A → 0 <= B → C * C <= A * B →
  (C + x * y) * (C + x * y) <= (A + x * x) * (B + y * y).
Proof.
  intros HA HB HC.
  assert (Hmix : 2 * C * (x * y) <= A * (y * y) + B * (x * x)).
  { destruct (Rle_lt_dec (2 * C * (x * y)) 0) as [Hneg | Hpos]; [nra |].
    assert (Hsq : (2 * C * (x * y)) * (2 * C * (x * y))
                  <= (A * (y * y) + B * (x * x)) * (A * (y * y) + B * (x * x))).
    { assert (0 <= (A * (y * y) - B * (x * x)) * (A * (y * y) - B * (x * x)))
        by apply Rle_0_sqr.
      assert (0 <= (x * y) * (x * y)) by apply Rle_0_sqr.
      nra. }
    assert (0 <= A * (y * y) + B * (x * x)) by nra.
    nra. }
  nra.
Qed.

Lemma cauchy_schwarz (t1 t2 : gmap string R) :
  dot t1 t2 * dot t1 t2 <= Embeddings.sumSquares t1 * Embeddings.sumSquares t2.
Proof.
  revert t2. induction t1 as [| k x t1 Hk IH] using map_ind; intros t2.
  - rewrite dot_empty_l, sumSquares_empty. lra.
  - rewrite dot_insert_l, sumSquares_insert by done.
    rewrite <- (dot_delete_r t1 t2 k) by done.
    pose proof (IH (delete k t2)) as Hrec.
    pose proof (sumSquares_nonneg t1). pose proof (sumSquares_nonneg (delete k t2)).
    destruct (t2 !! k) as [y |] eqn:Hy; simpl.
    + rewrite (sumSquares_delete t2 k y) by done. by apply cauchy_step.
    + rewrite delete_id in * by done. nra.
Qed.

End VectorAlgebra.

(** ** TF-IDF vectors and their cosine *)

Section VectorFacts.
Open Scope R_scope.

Lemma or_number_1_nonzero (x : option R) : Embeddings.or_number x 1 ≠ 0.
Proof.
  unfold Embeddings.or_number. destruct x as [v |]; [| lra].
  destruct (Req_dec_T v 0); lra.
Qed.

Lemma or_number_1_ge (x : option R) :
  (∀ v, x = Some v → 0 <= v) → 0 < Embeddings.or_number x 1.
Proof.
  intros Hx. unfold Embeddings.or_number. destruct x as [v |]; [| lra].
  destruct (Req_dec_T v 0); [lra |]. specialize (Hx v eq_refl). lra.
Qed.

(** The weight that [toVector] gives a term. *)
#[local] Abbreviation weight idf :=
  (fun (term : string) (tfValue : R) =>
     tfValue * Embeddings.or_number (idf !! term) 1).

Lemma toVector_spec (tf idf : gmap string R) :
  (∀ t, Embeddings.terms (Embeddings.toVector tf idf) !! t = weight idf t <$> tf !! t)
  ∧ Embeddings.magnitude (Embeddings.toVector tf idf)
    = sqrt (Embeddings.sumSquares (Embeddings.terms (Embeddings.toVector tf idf))).
Proof.
  unfold Embeddings.toVector.
  match goal with
  | |- context [map_fold ?f ?b tf] =>
      assert (Hfold : (∀ t, (map_fold f b tf).1 !! t = weight idf t <$> tf !! t)
                      ∧ (map_fold f b tf).2 = Embeddings.sumSquares (map_fold f b tf).1);
      [ apply (map_fold_weak_ind
                 (fun r m => (∀ t, r.1 !! t = weight idf t <$> m !! t)
                             ∧ r.2 = Embeddings.sumSquares r.1))
      | destruct (map_fold f b tf) as [terms ss] ]
  end.
  - split; [intros t; by rewrite !lookup_empty | done].
  - intros i x m [terms ss] Hi [Hterms Hss]. simpl in *. split.
    + intros t. destruct (decide (i = t)) as [-> | Hne].
      * by rewrite !lookup_insert_eq.
      * by rewrite !lookup_insert_ne.
    + rewrite sumSquares_insert; [by rewrite Hss |].
      by rewrite Hterms, Hi.
  - simpl in *. destruct Hfold as [Hterms ->]. done.
Qed.

Lemma count_terms_lookup (terms : list string) t :
  match Embeddings.count_terms terms !! t with
  | Some c => t ∈ terms ∧ 1 <= c
  | None => t ∉ terms
  end.
Proof.
  unfold Embeddings.count_terms.
  induction terms as [| x terms IH] using rev_ind; simpl.
  - rewrite lookup_empty. apply not_elem_of_nil.
  - rewrite foldl_app. simpl. destruct (decide (x = t)) as [-> | Hne].
    + rewrite lookup_insert_eq. split; [apply elem_of_app; right; left |].
      destruct (foldl _ ∅ terms !! t) as [c |]; simpl.
      * destruct IH as [_ Hc]. destruct (Req_dec_T c 0); lra.
      * lra.
    + rewrite lookup_insert_ne by done.
      destruct (foldl _ ∅ terms !! t) as [c |].
      * destruct IH as [Hin Hc]. split; [apply elem_of_app; by left | done].
      * rewrite elem_of_app, list_elem_of_singleton. intros [? | ?]; done.
Qed.

Lemma computeTf_lookup (terms : list string) t :
  match Embeddings.computeTf terms !! t with
  | Some x => t ∈ terms ∧ 0 < x
  | None => t ∉ terms
  end.
Proof.
  unfold Embeddings.computeTf. rewrite lookup_fmap.
  pose proof (count_terms_lookup terms t) as Hc.
  destruct (Embeddings.count_terms terms !! t) as [c |]; simpl; [| done].
  destruct Hc as [Hin Hc]. split; [done |].
  assert (0 < INR (length terms)).
  { apply lt_0_INR. destruct terms; [by apply elem_of_nil in Hin | simpl; lia]. }
  apply Rdiv_lt_0_compat; lra.
Qed.

Lemma toVector_similarity_vector (terms : list string) (idf : gmap string R) :
  (∀ t w, idf !! t = Some w → 0 <= w) →
  Spec.similarity_vector (Embeddings.toVector (Embeddings.computeTf terms) idf).
Proof.
  intros Hidf. destruct (toVector_spec (Embeddings.computeTf terms) idf) as [Hterms Hmag].
  split; [done |]. intros t w. rewrite Hterms.
  pose proof (computeTf_lookup terms t) as Htf.
  destruct (Embeddings.computeTf terms !! t) as [x |]; simpl; [| done].
  intros [= <-]. destruct Htf as [_ Hx].
  pose proof (or_number_1_ge (idf !! t) (Hidf t)). nra.
Qed.

Lemma toVector_positive (terms : list string) (idf : gmap string R) :
  terms ≠ [] →
  0 < Embeddings.sumSquares
        (Embeddings.terms (Embeddings.toVector (Embeddings.computeTf terms) idf)).
Proof.
  intros Hne. destruct terms as [| t terms]; [done |].
  destruct (toVector_spec (Embeddings.computeTf (t :: terms)) idf) as [Hterms _].
  specialize (Hterms t).
  pose proof (computeTf_lookup (t :: terms) t) as Htf.
  destruct (Embeddings.computeTf (t :: terms) !! t) as [x |]; simpl in *.
  - rewrite (sumSquares_delete _ t _ Hterms).
    pose proof (sumSquares_nonneg
                  (delete t (Embeddings.terms
                               (Embeddings.toVector (Embeddings.computeTf (t :: terms)) idf)))).
    pose proof (or_number_1_nonzero (idf !! t)). destruct Htf as [_ Hx].
    assert (x * Embeddings.or_number (idf !! t) 1 ≠ 0) by nra.
    nra.
  - destruct Htf. left.
Qed.



Lemma magnitude_nonneg v : Spec.similarity_vector v → 0 <= Embeddings.magnitude v.
Proof. intros [-> _]. apply sqrt_pos. Qed.

Lemma magnitude_sqr v :
  Spec.similarity_vector v →
  Embeddings.magnitude v * Embeddings.magnitude v
  = Embeddings.sumSquares (Embeddings.terms v).
Proof. intros [-> _]. apply sqrt_sqrt, sumSquares_nonneg. Qed.

Lemma dotProduct_bounds v1 v2 :
  Spec.similarity_vector v1 → Spec.similarity_vector v2 →
  0 <= Embeddings.dotProduct v1 v2 <= Embeddings.magnitude v1 * Embeddings.magnitude v2.
Proof.
  intros Hv1 Hv2.
  pose proof (magnitude_nonneg v1 Hv1). pose proof (magnitude_nonneg v2 Hv2).
  pose proof (magnitude_sqr v1 Hv1) as Hs1. pose proof (magnitude_sqr v2 Hv2) as Hs2.
  pose proof (cauchy_schwarz (Embeddings.terms v1) (Embeddings.terms v2)) as Hcs.
  rewrite <- Hs1, <- Hs2 in Hcs. rewrite dotProduct_terms.
  assert (Hdot : 0 <= Embeddings.dotProduct
                        {| Embeddings.terms := Embeddings.terms v1; Embeddings.magnitude := 0 |}
                        {| Embeddings.terms := Embeddings.terms v2; Embeddings.magnitude := 0 |})
    by (apply dot_nonneg; [apply Hv1 | apply Hv2]).
  split; [done |].
  apply Rnot_lt_le. intros Hlt.
  assert (0 <= Embeddings.magnitude v1 * Embeddings.magnitude v2) by nra.
  nra.
Qed.

Lemma cosineSimilarity_bounds v1 v2 :
  Spec.similarity_vector v1 → Spec.similarity_vector v2 →
  0 <= Embeddings.cosineSimilarity v1 v2 <= 1.
Proof.
  intros Hv1 Hv2. unfold Embeddings.cosineSimilarity.
  destruct (Req_dec_T (Embeddings.magnitude v1) 0) as [| Hm1]; [lra |].
  destruct (Req_dec_T (Embeddings.magnitude v2) 0) as [| Hm2]; [lra |].
  pose proof (magnitude_nonneg v1 Hv1). pose proof (magnitude_nonneg v2 Hv2).
  pose proof (dotProduct_bounds v1 v2 Hv1 Hv2) as [Hlo Hhi].
  assert (Hpos : 0 < Embeddings.magnitude v1 * Embeddings.magnitude v2) by nra.
  split.
  - apply Rmult_le_pos; [done |]. left. by apply Rinv_0_lt_compat.
  - apply (Rmult_le_reg_r (Embeddings.magnitude v1 * Embeddings.magnitude v2)); [done |].
    unfold Rdiv. rewrite Rmult_assoc, Rinv_l by lra. lra.
Qed.


End VectorFacts.

(** ** The index that [findSimilar] reads *)

Section IndexFacts.
Open Scope R_scope.

(** Every term of a stored row is in the vocabulary table, no stored weight
    is negative and every stored idf is at least 1. *)
#[local] Abbreviation db_consistent d :=
  ((∀ id row t, Embeddings.embeddings d !! id = Some row →
                is_Some (row.1 !! t) → is_Some (Embeddings.vocabulary d !! t))
   ∧ (∀ id row t w, Embeddings.embeddings d !! id = Some row →
                    row.1 !! t = Some w → 0 <= w)
   ∧ (∀ t w, Embeddings.vocabulary d !! t = Some w → 1 <= w)).

(** Every vector in memory is a similarity vector over terms of the idf
    table in memory, and every idf is at least 1. *)
#[local] Abbreviation index_consistent m :=
  ((∀ e, e ∈ Embeddings.vectors m →
         Spec.similarity_vector e.2
         ∧ ∀ t, is_Some (Embeddings.terms e.2 !! t) → is_Some (Embeddings.idf m !! t))
   ∧ (∀ t w, Embeddings.idf m !! t = Some w → 1 <= w)).

#[local] Abbreviation vector_of tab p :=
  (Embeddings.toVector
     (Embeddings.computeTf (Embeddings.tokenize (Embeddings.patternToText p))) tab).

Lemma JsMap_set_elem {V} (m : list (string * V)) k v e :
  e ∈ JsMap.set m k v → e = (k, v) ∨ e ∈ m.
Proof.
  induction m as [| [k' v'] m IH]; simpl.
  - intros ->%list_elem_of_singleton. by left.
  - destruct (String.eqb k k').
    + intros [-> | He]%elem_of_cons; [by left | right; by right].
    + intros [-> | He]%elem_of_cons; [right; left |].
      destruct (IH He) as [-> | Hm]; [by left | right; by right].
Qed.

Lemma JsMap_set_nonempty {V} (m : list (string * V)) k v : JsMap.set m k v ≠ [].
Proof. destruct m as [| [k' v'] m]; simpl; [done |]. by destruct (String.eqb k k'). Qed.

Lemma store_fold tab patterns m0 :
  let m1 := foldl (Embeddings.store_vector tab) m0 patterns in
  Embeddings.idf m1 = Embeddings.idf m0
  ∧ Embeddings.vocabulary (Embeddings.db m1) = Embeddings.vocabulary (Embeddings.db m0)
  ∧ (∀ e, e ∈ Embeddings.vectors m1 →
          e ∈ Embeddings.vectors m0 ∨ ∃ p, p ∈ patterns ∧ e.2 = vector_of tab p)
  ∧ (∀ id row, Embeddings.embeddings (Embeddings.db m1) !! id = Some row →
               Embeddings.embeddings (Embeddings.db m0) !! id = Some row
               ∨ ∃ p, p ∈ patterns ∧ row.1 = Embeddings.terms (vector_of tab p))
  ∧ (patterns ≠ [] → Embeddings.vectors m1 ≠ []).
Proof.
  induction patterns as [| p patterns IH] using rev_ind; simpl.
  - repeat split; auto.
  - rewrite foldl_app. simpl.
    destruct IH as (Hidf & Hvoc & Hvec & Hemb & _).
    split; [done |]. split; [done |]. split; [| split].
    + intros e [-> | He]%JsMap_set_elem.
      * right. exists p. split; [apply elem_of_app; right; left | done].
      * destruct (Hvec e He) as [? | (q & Hq & ?)]; [by left | right].
        exists q. split; [apply elem_of_app; by left | done].
    + intros id row. destruct (decide (Playbook.id p = id)) as [<- | Hne].
      * rewrite lookup_insert_eq. intros [= <-]. right. exists p.
        split; [apply elem_of_app; right; left | done].
      * rewrite lookup_insert_ne by done. intros Hrow.
        destruct (Hemb id row Hrow) as [? | (q & Hq & ?)]; [by left | right].
        exists q. split; [apply elem_of_app; by left | done].
    + intros _. apply JsMap_set_nonempty.
Qed.

(** The table that [buildFromPatterns] computes. *)
#[local] Abbreviation table_of patterns :=
  (Embeddings.computeIdf
     (map (fun p => Embeddings.tokenize (Embeddings.patternToText p)) patterns)
     (JsSet.of_list
        (concat (map (fun p => Embeddings.tokenize (Embeddings.patternToText p)) patterns)))).

Lemma vector_of_terms patterns p t :
  p ∈ patterns →
  is_Some (Embeddings.terms (vector_of (table_of patterns) p) !! t) →
  is_Some (table_of patterns !! t).
Proof.
  intros Hp. destruct (toVector_spec
    (Embeddings.computeTf (Embeddings.tokenize (Embeddings.patternToText p)))
    (table_of patterns)) as [-> _].
  pose proof (computeTf_lookup (Embeddings.tokenize (Embeddings.patternToText p)) t) as Htf.
  destruct (Embeddings.computeTf _ !! t); simpl; [| by intros [? ?]].
  intros _. destruct Htf as [Ht _].
  rewrite computeIdf_lookup, decide_True; [done |].
  apply JsSet_of_list_elem, list_elem_of_In, in_concat.
  exists (Embeddings.tokenize (Embeddings.patternToText p)).
  split; [| by apply list_elem_of_In].
  apply in_map_iff. exists p. split; [done | by apply list_elem_of_In].
Qed.

Lemma table_of_ge_1 patterns t w : table_of patterns !! t = Some w → 1 <= w.
Proof. apply computeIdf_ge_1. Qed.

Lemma vector_of_similarity patterns p :
  Spec.similarity_vector (vector_of (table_of patterns) p).
Proof.
  apply toVector_similarity_vector. intros t w Hw%table_of_ge_1. lra.
Qed.

Lemma buildFromPatterns_nonempty patterns m :
  patterns ≠ [] →
  Embeddings.buildFromPatterns patterns m
  = let m1 := foldl (Embeddings.store_vector (table_of patterns))
                {| Embeddings.db := Embeddings.db m;
                   Embeddings.idf := table_of patterns;
                   Embeddings.vectors := Embeddings.vectors m |} patterns in
    {| Embeddings.db :=
         {| Embeddings.embeddings := Embeddings.embeddings (Embeddings.db m1);
            Embeddings.vocabulary :=
              table_of patterns ∪ Embeddings.vocabulary (Embeddings.db m1) |};
       Embeddings.idf := Embeddings.idf m1;
       Embeddings.vectors := Embeddings.vectors m1 |}.
Proof. by destruct patterns. Qed.

Lemma buildFromPatterns_consistent patterns d :
  patterns ≠ [] →
  db_consistent d →
  let m := Embeddings.buildFromPatterns patterns (Embeddings.initEmbeddingsDb d) in
  db_consistent (Embeddings.db m)
  ∧ Embeddings.vectors m ≠ []
  ∧ Embeddings.idf m = table_of patterns
  ∧ (∀ t, is_Some (table_of patterns !! t) →
          is_Some (Embeddings.vocabulary (Embeddings.db m) !! t))
  ∧ (∀ e, e ∈ Embeddings.vectors m →
          Spec.similarity_vector e.2
          ∧ ∀ t, is_Some (Embeddings.terms e.2 !! t) → is_Some (table_of patterns !! t)).
Proof.
  intros Hne (Hterms & Hweights & Hidf).
  rewrite buildFromPatterns_nonempty by done. cbv zeta.
  match goal with
  | |- context [foldl (Embeddings.store_vector ?tab) ?m0 patterns] =>
      destruct (store_fold tab patterns m0) as (Hi & Hv & Hvec & Hemb & Hnonempty);
      set (m1 := foldl (Embeddings.store_vector tab) m0 patterns) in *
  end.
  simpl in Hi, Hv, Hvec, Hemb. cbn [Embeddings.db Embeddings.idf Embeddings.vectors
                                    Embeddings.embeddings Embeddings.vocabulary].
  rewrite Hi, Hv.
  assert (Hunion : ∀ t, is_Some (table_of patterns !! t) →
                        is_Some ((table_of patterns ∪ Embeddings.vocabulary d) !! t)).
  { intros t [w Hw]. exists w. by apply lookup_union_Some_l. }
  split; [| split; [by apply Hnonempty | split; [done | split; [done |]]]].
  - split; [| split].
    + intros id row t Hrow Ht.
      destruct (Hemb id row Hrow) as [Hold | (p & Hp & Hrow1)].
      * destruct (Hterms id row t Hold Ht) as [w Hw].
        destruct (table_of patterns !! t) as [w' |] eqn:Hw'.
        -- exists w'. by apply lookup_union_Some_l.
        -- exists w. rewrite lookup_union_r; done.
      * apply Hunion. rewrite Hrow1 in Ht. by eapply vector_of_terms.
    + intros id row t w Hrow Hw.
      destruct (Hemb id row Hrow) as [Hold | (p & Hp & Hrow1)]; [by eapply Hweights |].
      rewrite Hrow1 in Hw. by eapply (vector_of_similarity patterns p).
    + intros t w [Hw | [_ Hw]]%lookup_union_Some_raw;
        [by eapply table_of_ge_1 | by eapply Hidf].
  - intros e He. destruct (Hvec e He) as [Hnil | (p & Hp & ->)];
      [by apply elem_of_nil in Hnil |].
    split; [apply vector_of_similarity |]. intros t. by apply vector_of_terms.
Qed.

Lemma similarCommand_consistent patterns query limit rebuild d :
  db_consistent d →
  let m := (Embeddings.similarCommand patterns query limit rebuild d).1 in
  db_consistent (Embeddings.db m) ∧ index_consistent m.
Proof.
  intros Hd. unfold Embeddings.similarCommand, Embeddings.findSimilar. cbn [fst].
  destruct (decide (patterns = [])) as [-> | Hne].
  - (* nothing is built: both tables are read back *)
    assert (Hbuilt : (if rebuild || (0 <? length (@nil Playbook.Pattern))%nat
                      then Embeddings.buildFromPatterns [] (Embeddings.initEmbeddingsDb d)
                      else Embeddings.initEmbeddingsDb d) = Embeddings.initEmbeddingsDb d)
      by (by destruct rebuild).
    rewrite Hbuilt. unfold Embeddings.load. simpl.
    rewrite map_size_empty. simpl. split; [done |].
    destruct Hd as (Hterms & Hweights & Hidf). split; [| done].
    intros e ([id row] & <- & Hrow%list_elem_of_In%elem_of_map_to_list)%list_elem_of_In%in_map_iff.
    simpl in *. split.
    + split; [done |]. simpl. intros t w. by apply (Hweights id).
    + intros t. by apply (Hterms id).
  - assert (Hbuilt : (if rebuild || (0 <? length patterns)%nat
                      then Embeddings.buildFromPatterns patterns (Embeddings.initEmbeddingsDb d)
                      else Embeddings.initEmbeddingsDb d)
                     = Embeddings.buildFromPatterns patterns (Embeddings.initEmbeddingsDb d)).
    { destruct patterns; [done |]. simpl. by rewrite orb_true_r. }
    rewrite Hbuilt.
    destruct (buildFromPatterns_consistent patterns d Hne Hd)
      as (Hdb & Hvne & Hidf & Hvoc & Hvec).
    unfold Embeddings.load. cbn [Embeddings.db Embeddings.idf Embeddings.vectors].
    split; [done |].
    destruct (Embeddings.vectors (Embeddings.buildFromPatterns patterns _)) as [| e0 vs] eqn:Hvs;
      [done |]. cbn [length Nat.eqb].
    rewrite Hidf. destruct (size (table_of patterns) =? 0)%nat.
    + split; [| apply Hdb]. intros e He. destruct (Hvec e He) as [Hsv Hsub].
      split; [done |]. intros t Ht. by apply Hvoc, Hsub.
    + split; [done |]. intros t w. apply table_of_ge_1.
Qed.

(** After a build, the table in memory is the one just computed, unless it
    is empty. *)
Lemma similarCommand_idf patterns query limit rebuild d t :
  patterns ≠ [] →
  is_Some (table_of patterns !! t) →
  Embeddings.idf (Embeddings.similarCommand patterns query limit rebuild d).1
  = table_of patterns.
Proof.
  intros Hne [w Hw]. unfold Embeddings.similarCommand, Embeddings.findSimilar. cbn [fst].
  assert (Hbuilt : (if rebuild || (0 <? length patterns)%nat
                    then Embeddings.buildFromPatterns patterns (Embeddings.initEmbeddingsDb d)
                    else Embeddings.initEmbeddingsDb d)
                   = Embeddings.buildFromPatterns patterns (Embeddings.initEmbeddingsDb d)).
  { destruct patterns; [done |]. simpl. by rewrite orb_true_r. }
  rewrite Hbuilt, buildFromPatterns_nonempty by done. cbv zeta.
  match goal with
  | |- context [foldl (Embeddings.store_vector ?tab) ?m0 patterns] =>
      destruct (store_fold tab patterns m0) as (Hi & _)
  end.
  unfold Embeddings.load. cbn [Embeddings.db Embeddings.idf Embeddings.vectors].
  rewrite Hi. simpl.
  destruct (size (table_of patterns)) eqn:Hsize; [| done].
  apply map_size_empty_inv in Hsize. rewrite Hsize in Hw. by rewrite lookup_empty in Hw.
Qed.

Lemma persisted_consistent d : Spec.persisted d → db_consistent d.
Proof.
  induction 1 as [| d patterns query limit rebuild _ IH].
  - simpl. repeat split; intros *; by rewrite lookup_empty.
  - by apply similarCommand_consistent.
Qed.

End IndexFacts.

(** ** What the [similar] command scores *)

Section ScoreFacts.
Open Scope R_scope.

Lemma scored_elem m query r :
  r ∈ Embeddings.scored m query
  ↔ ∃ e, e ∈ Embeddings.vectors m
         ∧ r = (e.1, Embeddings.cosineSimilarity (Embeddings.queryVector m query) e.2)
         ∧ 0 < r.2.
Proof.
  unfold Embeddings.scored. rewrite list_elem_of_In, in_flat_map. split.
  - intros (e & He%list_elem_of_In & Hr). exists e. split; [done |].
    destruct (Rlt_le_dec 0 _) as [Hpos |]; [| by destruct Hr].
    destruct Hr as [<- | []]. done.
  - intros (e & He & -> & Hpos). exists e. split; [by apply list_elem_of_In |].
    simpl in Hpos. destruct (Rlt_le_dec 0 _) as [| Hle]; [by left | lra].
Qed.

Lemma similarCommand_matches patterns query limit rebuild d r :
  r ∈ (Embeddings.similarCommand patterns query limit rebuild d).2 →
  r ∈ Embeddings.scored (Embeddings.similarCommand patterns query limit rebuild d).1 query.
Proof.
  unfold Embeddings.similarCommand, Embeddings.findSimilar. cbn [fst snd].
  intros Hr%slice0_elem. by apply sort_desc_elem in Hr.
Qed.

Lemma similarCommand_score_bounds patterns query limit rebuild d r :
  Spec.persisted d →
  r ∈ (Embeddings.similarCommand patterns query limit rebuild d).2 →
  0 < r.2 <= 1.
Proof.
  intros Hd%persisted_consistent (e & He & -> & Hpos)%similarCommand_matches%scored_elem.
  split; [done |]. simpl.
  destruct (similarCommand_consistent patterns query limit rebuild d Hd) as [_ [Hvec Hidf]].
  apply cosineSimilarity_bounds; [| by apply Hvec].
  apply toVector_similarity_vector. intros t w Hw%Hidf. lra.
Qed.

End ScoreFacts.



Section DilutionFacts.
Open Scope R_scope.

Lemma without_similarity t v :
  Spec.similarity_vector v → Spec.similarity_vector (Spec.without t v).
Proof.
  intros [_ Hw]. split; [done |]. simpl. intros k w Hk.
  apply lookup_delete_Some in Hk as [_ Hk]. by eapply Hw.
Qed.

Lemma without_dotProduct t v pv :
  Embeddings.terms pv !! t = None →
  Embeddings.dotProduct (Spec.without t v) pv = Embeddings.dotProduct v pv.
Proof.
  intros Ht. rewrite (dotProduct_terms (Spec.without t v) pv), (dotProduct_terms v pv).
  simpl. rewrite dot_comm, dot_delete_r by done. apply dot_comm.
Qed.

(** A term on one side only lowers the cosine or leaves it. *)
Lemma without_cosine t x v pv :
  Spec.similarity_vector v → Spec.similarity_vector pv →
  Embeddings.terms v !! t = Some x → x ≠ 0 →
  Embeddings.terms pv !! t = None →
  Embeddings.cosineSimilarity v pv <= Embeddings.cosineSimilarity (Spec.without t v) pv.
Proof.
  intros Hv Hpv Hx Hx0 Ht.
  pose proof (without_similarity t v Hv) as Hv'.
  pose proof (dotProduct_bounds v pv Hv Hpv) as [Hd _].
  pose proof (dotProduct_bounds (Spec.without t v) pv Hv' Hpv) as [_ Hd'].
  rewrite without_dotProduct in Hd' by done.
  pose proof (magnitude_nonneg v Hv) as Hm. pose proof (magnitude_nonneg pv Hpv) as Hmp.
  pose proof (magnitude_nonneg _ Hv') as Hm'.
  pose proof (magnitude_sqr v Hv) as Hs. pose proof (magnitude_sqr _ Hv') as Hs'.
  rewrite (sumSquares_delete _ t x Hx) in Hs.
  change (Embeddings.terms (Spec.without t v)) with (delete t (Embeddings.terms v)) in Hs'.
  rewrite <- Hs' in Hs.
  unfold Embeddings.cosineSimilarity. rewrite without_dotProduct by done.
  set (D := Embeddings.dotProduct v pv) in *.
  set (m := Embeddings.magnitude v) in *.
  set (m' := Embeddings.magnitude (Spec.without t v)) in *.
  set (mp := Embeddings.magnitude pv) in *.
  assert (Hxx : 0 < x * x) by nra.
  assert (Hmm : m' <= m) by nra.
  destruct (Req_dec_T m 0) as [Hm0 | Hm0]; [nra |].
  destruct (Req_dec_T mp 0) as [Hmp0 | Hmp0];
    [destruct (Req_dec_T m' 0); lra |].
  destruct (Req_dec_T m' 0) as [Hm'0 | Hm'0].
  - assert (D = 0) by nra. subst D. rewrite H. unfold Rdiv. lra.
  - assert (0 < m' * mp) by nra. assert (0 < m * mp) by nra.
    unfold Rdiv. apply Rmult_le_compat_l; [done |].
    apply Rinv_le_contravar; [done | nra].
Qed.

End DilutionFacts.

(** C10.  In the index on which the [similar] command scores a query, over
    any database that earlier runs left: a query term that the idf table
    lacks gets its term frequency times 1 as weight, which is positive; the
    square of that weight is part of the sum under the magnitude of the
    query vector, which is larger than without the term; no vector of the
    index has the term, the dot product with each of them is what it is
    without the term, and the cosine is at most what it is without it. *)
Theorem out_of_vocabulary_term (d : Embeddings.Database)
    (patterns : list Playbook.Pattern) (query : string) (limit : Z) (rebuild : bool)
    (t : string) :
  Spec.persisted d →
  let m := (Embeddings.similarCommand patterns query limit rebuild d).1 in
  let qv := Embeddings.queryVector m query in
  t ∈ Embeddings.tokenize query →
  Embeddings.idf m !! t = None →
  ∃ x, Embeddings.computeTf (Embeddings.tokenize query) !! t = Some x
       ∧ (0 < x)%R
       ∧ Embeddings.terms qv !! t = Some (x * 1)%R
       ∧ Embeddings.sumSquares (Embeddings.terms qv)
         = (Embeddings.sumSquares (Embeddings.terms (Spec.without t qv)) + x * x)%R
       ∧ Embeddings.magnitude qv = sqrt (Embeddings.sumSquares (Embeddings.terms qv))
       ∧ (Embeddings.magnitude (Spec.without t qv) < Embeddings.magnitude qv)%R
       ∧ ∀ e, e ∈ Embeddings.vectors m →
              Embeddings.terms e.2 !! t = None
              ∧ Embeddings.dotProduct qv e.2 = Embeddings.dotProduct (Spec.without t qv) e.2
              ∧ (Embeddings.cosineSimilarity qv e.2
                 <= Embeddings.cosineSimilarity (Spec.without t qv) e.2)%R.
Proof.
  intros Hd%persisted_consistent m qv Hin Hoov.
  destruct (similarCommand_consistent patterns query limit rebuild d Hd)
    as [_ [Hvec Hidf]]. fold m in Hvec, Hidf.
  pose proof (computeTf_lookup (Embeddings.tokenize query) t) as Htf.
  destruct (Embeddings.computeTf (Embeddings.tokenize query) !! t) as [x |] eqn:Hx;
    [| done]. destruct Htf as [_ Hpos].
  destruct (toVector_spec (Embeddings.computeTf (Embeddings.tokenize query))
              (Embeddings.idf m)) as [Hterms Hmag].
  fold (Embeddings.queryVector m query) in Hterms, Hmag. fold qv in Hterms, Hmag.
  assert (Hw : Embeddings.terms qv !! t = Some (x * 1)%R)
    by (by rewrite Hterms, Hx, Hoov).
  assert (Hqv : Spec.similarity_vector qv).
  { apply toVector_similarity_vector. intros k w Hk%Hidf. lra. }
  assert (Hss : Embeddings.sumSquares (Embeddings.terms qv)
                = (Embeddings.sumSquares (Embeddings.terms (Spec.without t qv)) + x * x)%R).
  { rewrite (sumSquares_delete _ t _ Hw). simpl. lra. }
  exists x. split; [done |]. split; [done |]. split; [done |]. split; [done |].
  split; [done |]. split.
  - rewrite Hmag, Hss. simpl. apply sqrt_lt_1_alt. split; [apply sumSquares_nonneg |].
    assert (0 < x * x)%R by nra. lra.
  - intros e He. destruct (Hvec e He) as [Hsv Hsub].
    assert (Hnone : Embeddings.terms e.2 !! t = None).
    { destruct (Embeddings.terms e.2 !! t) eqn:Ht; [| done].
      destruct (Hsub t) as [w Hw']; [by eexists | congruence]. }
    split; [done |]. split; [by rewrite without_dotProduct |].
    apply (without_cosine t (x * 1)); [done | done | done | nra | done].
Qed.

Lemma out_of_vocabulary_term_witness :
  let m := (Embeddings.similarCommand [Examples.refused] "disk refused" 5 false
              Examples.fresh).1 in
  ∃ x, Embeddings.terms (Embeddings.queryVector m "disk refused") !! "disk" = Some (x * 1)%R
       ∧ (0 < x)%R
       ∧ Forall (fun e : string * Embeddings.TfIdfVector =>
                   Embeddings.terms e.2 !! "disk" = None
                   ∧ Embeddings.dotProduct (Embeddings.queryVector m "disk refused") e.2
                     = Embeddings.dotProduct
                         (Spec.without "disk" (Embeddings.queryVector m "disk refused")) e.2)
                (Embeddings.vectors m).
Proof.
  intros m.
  destruct (out_of_vocabulary_term Examples.fresh [Examples.refused] "disk refused" 5 false
              "disk") as (x & _ & Hx & Hw & _ & _ & _ & Hdot).
  - apply Spec.persisted_fresh.
  - vm_compute. left.
  - rewrite (similarCommand_idf _ _ _ _ _ "refused");
      rewrite ?computeIdf_lookup; [| discriminate |].
    + rewrite decide_False; [reflexivity |]. vm_compute.
      intros Hin. repeat (apply elem_of_cons in Hin as [Heq | Hin]; [discriminate |]).
      by apply elem_of_nil in Hin.
    + rewrite decide_True; [by eexists |]. vm_compute. right. left.
  - exists x. split; [exact Hw |]. split; [exact Hx |].
    apply Forall_forall. intros e He. destruct (Hdot e He) as (? & ? & _). by split.
Defined.

(** ** Pieces of regular expressions *)

Section PieceFacts.
Import JsRegex.
Open Scope list_scope.

Lemma span_length P s : (span P s ≤ length s)%nat.
Proof. induction s as [| c s IH]; simpl; [lia |]. destruct (P c); simpl; lia. Qed.

Lemma span_take P s : Forall (fun c => P c = true) (take (span P s) s).
Proof.
  induction s as [| c s IH]; simpl; [constructor |].
  destruct (P c) eqn:Hc; simpl; [by constructor | constructor].
Qed.

(** A run in front of something that does not go on with the class. *)
Lemma span_app P w r :
  Forall (fun c => P c = true) w →
  (∀ c r', r = c :: r' → P c = false) →
  span P (w ++ r) = length w.
Proof.
  intros Hw Hr. induction Hw as [| c w Hc _ IH]; simpl.
  - destruct r as [| c r']; [done |]. simpl. by rewrite (Hr c r').
  - by rewrite Hc, IH.
Qed.

Lemma span_app_ge P w r :
  Forall (fun c => P c = true) w → (length w ≤ span P (w ++ r))%nat.
Proof.
  induction 1 as [| c w Hc _ IH]; simpl; [lia |]. rewrite Hc. lia.
Qed.

Lemma many1_Some P s n : many1 P s = Some n ↔ (1 ≤ n)%nat ∧ span P s = n.
Proof.
  unfold many1. destruct (span P s) as [| k]; split.
  - done.
  - intros [? ?]. lia.
  - intros [= <-]. split; [lia | done].
  - intros [_ <-]. done.
Qed.

Lemma one_Some P s n : one P s = Some n ↔ n = 1%nat ∧ ∃ c s', s = c :: s' ∧ P c = true.
Proof.
  unfold one. destruct s as [| c s'].
  - split; [done | by intros (_ & ? & ? & ? & _)].
  - destruct (P c) eqn:Hc; split.
    + intros [= <-]. eauto.
    + by intros [-> _].
    + done.
    + intros (_ & c' & s'' & [= <- <-] & Hc'). congruence.
Qed.

Lemma seq_Some a b s n :
  seq a b s = Some n
  ↔ ∃ n1 n2, a s = Some n1 ∧ b (drop n1 s) = Some n2 ∧ n = (n1 + n2)%nat.
Proof.
  unfold seq. destruct (a s) as [n1 |]; [destruct (b (drop n1 s)) as [n2 |] eqn:Hb |].
  - split; [intros [= <-]; eauto |]. intros (? & ? & [= <-] & Hb' & ->). congruence.
  - split; [done |]. intros (? & ? & [= <-] & Hb' & _). congruence.
  - split; [done |]. by intros (? & ? & ? & _).
Qed.

(** A sequence that takes exactly [w] splits [w] in two. *)
Lemma seq_split inner a b w r :
  within inner a →
  seq a b (w ++ r) = Some (length w) →
  ∃ w1 w2, w = w1 ++ w2 ∧ a (w1 ++ (w2 ++ r)) = Some (length w1)
           ∧ b (w2 ++ r) = Some (length w2).
Proof.
  intros Ha (n1 & n2 & Han & Hbn & Hlen)%seq_Some.
  exists (take n1 w), (drop n1 w).
  assert (Hn1 : length (take n1 w) = n1) by (rewrite length_take; lia).
  assert (Hn2 : length (drop n1 w) = n2) by (rewrite length_drop; lia).
  split; [by rewrite take_drop |]. split.
  - by rewrite app_assoc, take_drop, Hn1.
  - rewrite drop_app_le in Hbn by lia. by rewrite Hn2.
Qed.

Lemma seq_join a b w1 w2 r n2 :
  a (w1 ++ (w2 ++ r)) = Some (length w1) →
  b (w2 ++ r) = Some n2 →
  seq a b ((w1 ++ w2) ++ r) = Some (length w1 + n2)%nat.
Proof.
  intros Ha Hb. apply seq_Some. exists (length w1), n2.
  rewrite <- app_assoc. split; [done |]. by rewrite drop_app_length.
Qed.

Lemma within_many1 P : within P (many1 P).
Proof.
  intros s n [_ <-]%many1_Some. split; [apply span_length | apply span_take].
Qed.

Lemma within_one P : within P (one P).
Proof.
  intros s n (-> & c & s' & -> & Hc)%one_Some. simpl. split; [lia |].
  rewrite take_0. by repeat constructor.
Qed.

Lemma within_weaken (inner inner' : ascii → bool) p :
  (∀ c, inner c = true → inner' c = true) → within inner p → within inner' p.
Proof.
  intros Hsub Hp s n Hn. destruct (Hp s n Hn) as [Hlen Hall]. split; [done |].
  eapply Forall_impl; [exact Hall |]. auto.
Qed.

Lemma within_seq inner a b : within inner a → within inner b → within inner (seq a b).
Proof.
  intros Ha Hb s n (n1 & n2 & Han & Hbn & ->)%seq_Some.
  destruct (Ha s n1 Han) as [Hl1 H1]. destruct (Hb _ n2 Hbn) as [Hl2 H2].
  rewrite length_drop in Hl2. split; [lia |].
  rewrite <- take_take_drop. by apply Forall_app.
Qed.

Lemma within_times inner k p : within inner p → within inner (times k p).
Proof.
  intros Hp. induction k as [| k IH]; simpl.
  - intros s n [= <-]. split; [lia |]. rewrite take_0. constructor.
  - by apply within_seq.
Qed.

Lemma rigid_one P : rigid (one P).
Proof.
  intros w r r' (Hlen & c & s' & Hs & Hc)%one_Some. apply one_Some.
  split; [done |]. destruct w as [| c' w]; [done |].
  simpl in Hs. injection Hs as <- _. by exists c', (w ++ r').
Qed.

Lemma rigid_seq inner a b : within inner a → rigid a → rigid b → rigid (seq a b).
Proof.
  intros Hin Ha Hb w r r' Hw.
  destruct (seq_split inner a b w r Hin Hw) as (w1 & w2 & -> & Ha1 & Hb2).
  rewrite length_app. apply seq_join; [by eapply Ha | by eapply Hb].
Qed.

Lemma rigid_times inner k p : within inner p → rigid p → rigid (times k p).
Proof.
  intros Hin Hp. induction k as [| k IH]; simpl.
  - intros w r r'. by intros [= <-].
  - by eapply rigid_seq.
Qed.

Lemma rigid_extends p : rigid p → extends p.
Proof. intros Hp w r r' Hw. rewrite (Hp w r r' Hw). by eexists. Qed.

Lemma exact_many1 P : exact_unless P (many1 P).
Proof.
  intros w r r' [Hpos Hspan]%many1_Some Hr'. apply many1_Some. split; [done |].
  apply span_app; [| done].
  pose proof (span_take P (w ++ r)) as Hall.
  rewrite Hspan, take_app_length in Hall. done.
Qed.

Lemma extends_many1 P : extends (many1 P).
Proof.
  intros w r r' [Hpos Hspan]%many1_Some.
  assert (Hall : Forall (fun c => P c = true) w).
  { pose proof (span_take P (w ++ r)) as Hall. by rewrite Hspan, take_app_length in Hall. }
  pose proof (span_app_ge P w r' Hall) as Hge.
  exists (span P (w ++ r')). apply many1_Some. split; [lia | done].
Qed.

Lemma extends_seq_rigid inner a b :
  within inner a → rigid a → extends b → extends (seq a b).
Proof.
  intros Hin Ha Hb w r r' Hw.
  destruct (seq_split inner a b w r Hin Hw) as (w1 & w2 & -> & Ha1 & Hb2).
  destruct (Hb w2 r r' Hb2) as [n2 Hn2].
  exists (length w1 + n2)%nat. apply seq_join; [by eapply Ha | done].
Qed.

Lemma extends_seq_apart inner F a b :
  within inner a → exact_unless F a → starts_outside F b → extends b →
  extends (seq a b).
Proof.
  intros Hin Ha Hstart Hb w r r' Hw.
  destruct (seq_split inner a b w r Hin Hw) as (w1 & w2 & -> & Ha1 & Hb2).
  destruct (Hb w2 r r' Hb2) as [n2 Hn2].
  exists (length w1 + n2)%nat. apply seq_join; [| done].
  apply (Ha w1 (w2 ++ r)); [done |]. intros c r'' Hc.
  destruct (Hstart _ _ Hb2) as (Hpos & c' & s' & Hs & HF).
  destruct w2 as [| c2 w2]; [simpl in Hpos; lia |].
  simpl in Hs, Hc. injection Hs as <- _. injection Hc as <- _. done.
Qed.

Lemma starts_one (F P : ascii → bool) :
  (∀ c, P c = true → F c = false) → starts_outside F (one P).
Proof.
  intros HPF s n (-> & c & s' & -> & Hc)%one_Some. split; [lia |].
  exists c, s'. auto.
Qed.

Lemma starts_seq F a b : starts_outside F a → starts_outside F (seq a b).
Proof.
  intros Ha s n (n1 & n2 & Han & _ & ->)%seq_Some.
  destruct (Ha s n1 Han) as [Hpos Hc]. split; [lia | done].
Qed.

Lemma starts_many1 (F P : ascii → bool) :
  (∀ c, P c = true → F c = false) → starts_outside F (many1 P).
Proof.
  intros HPF s n [Hpos Hspan]%many1_Some. split; [done |].
  destruct s as [| c s']; [simpl in Hspan; lia |]. exists c, s'. split; [done |].
  simpl in Hspan. destruct (P c) eqn:Hc; [auto | lia].
Qed.

End PieceFacts.

(** ** Global replacement *)

Section ReplaceFacts.
Import JsRegex.
Open Scope list_scope.

(** A piece as a matcher that does not look behind. *)
#[local] Abbreviation blind p := (fun _ : bool => p).

Lemma free_blind_pw (p : Piece) pw pw' s : free (blind p) pw s → free (blind p) pw' s.
Proof. destruct s; simpl; tauto. Qed.

Lemma free_blind_suffix (p : Piece) pw a b : free (blind p) pw (a ++ b) → free (blind p) pw b.
Proof.
  revert pw. induction a as [| c a IH]; intros pw; simpl; [done |].
  intros [_ Hrest]. apply (free_blind_pw p (JsString.is_word c)). by eapply IH.
Qed.

Lemma free_blind_head (p : Piece) pw a b :
  free (blind p) pw (a ++ b) → b ≠ [] → p b = None.
Proof.
  intros Hfree%free_blind_suffix Hb. destruct b as [| c b]; [done |]. apply Hfree.
Qed.

Lemma free_blind_intro (p : Piece) pw s :
  (∀ a b, s = a ++ b → b ≠ [] → p b = None) → free (blind p) pw s.
Proof.
  revert pw. induction s as [| c s IH]; intros pw Hall; simpl; [done |]. split.
  - by apply (Hall []).
  - apply IH. intros a b -> Hb. by apply (Hall (c :: a)).
Qed.

(** A string without a match has no match in its prefixes either, for a
    piece that still matches when more follows. *)
Lemma free_blind_prefix inner (p : Piece) pw a b :
  within inner p → extends p → free (blind p) pw (a ++ b) → free (blind p) pw a.
Proof.
  intros Hin Hext Hfree. apply free_blind_intro. intros a1 a2 -> Ha2.
  destruct (p a2) as [n |] eqn:Hn; [exfalso | done].
  destruct (Hin a2 n Hn) as [Hlen _].
  assert (Hw : length (take n a2) = n) by (rewrite length_take; lia).
  assert (Hn2 : p (take n a2 ++ drop n a2) = Some (length (take n a2)))
    by (by rewrite take_drop, Hw).
  destruct (Hext _ _ (drop n a2 ++ b) Hn2) as [n' Hn'].
  rewrite app_assoc, take_drop in Hn'.
  rewrite <- app_assoc in Hfree.
  rewrite (free_blind_head p pw a1 (a2 ++ b) Hfree) in Hn'; [done |].
  by destruct a2.
Qed.

Lemma replace_go_free (m : Matcher) tok pw s :
  free m pw s → replace_go m tok 0 pw s = s.
Proof.
  revert pw. induction s as [| c s IH]; intros pw; simpl; [done |].
  intros [-> Hrest]. by rewrite IH.
Qed.

Lemma free_blind_token (p : Piece) pw (tok rest : list ascii) :
  (∀ k r, (k < length tok)%nat → p (drop k tok ++ r) = None) →
  free (blind p) false rest →
  free (blind p) pw (tok ++ rest).
Proof.
  revert pw. induction tok as [| x tok IH]; intros pw Hfail Hrest; simpl.
  - by eapply free_blind_pw.
  - split; [apply (Hfail 0%nat rest); simpl; lia |].
    apply IH; [| done]. intros k r Hk. apply (Hfail (S k) r). simpl. lia.
Qed.

Section Keep.
Context (m : Matcher) (tok tok' : list ascii) (t0 : ascii).
Context (p : Piece) (inner : ascii → bool).
Hypothesis tok_head : tok = t0 :: tok'.
Hypothesis tok_outside : inner t0 = false.
Hypothesis tok_fails : ∀ k r, (k < length tok)%nat → p (drop k tok ++ r) = None.
Hypothesis p_length : ∀ s n, p s = Some n → (1 ≤ n ≤ length s)%nat.
Hypothesis p_inner : ∀ s n, p s = Some n → Forall (fun c => inner c = true) (drop 1 (take n s)).
Hypothesis p_extends : extends p.

(** As long as the output shows characters of the class, it is the input. *)
Lemma replace_go_copied s pw j :
  (j ≤ length (replace_go m tok 0 pw s))%nat →
  Forall (fun c => inner c = true) (take j (replace_go m tok 0 pw s)) →
  (j ≤ length s)%nat ∧ take j (replace_go m tok 0 pw s) = take j s.
Proof.
  revert pw j. induction s as [| c s IH]; intros pw j; simpl.
  - intros Hj _. assert (j = 0%nat) as -> by lia. done.
  - destruct j as [| j]; [intros _ _; split; [lia | done] |].
    destruct (m pw (c :: s)) as [[| n] |] eqn:Hm.
    + simpl. intros Hj Hall. apply Forall_cons in Hall as [_ Hall].
      destruct (IH (JsString.is_word c) j) as [Hlen Heq]; [lia | done |].
      split; [lia | by rewrite Heq].
    + rewrite tok_head. simpl. intros _ Hall. apply Forall_cons in Hall as [Ht0 _].
      congruence.
    + simpl. intros Hj Hall. apply Forall_cons in Hall as [_ Hall].
      destruct (IH (JsString.is_word c) j) as [Hlen Heq]; [lia | done |].
      split; [lia | by rewrite Heq].
Qed.

(** Where the replaced expression leaves a character, the piece matches in
    the output only if it matches in the input. *)
Lemma replace_go_keeps s skip pw pw' :
  (∀ a b pw'', s = a ++ b → b ≠ [] → (∀ n, m pw'' b ≠ Some (S n)) → p b = None) →
  free (blind p) pw' (replace_go m tok skip pw s).
Proof.
  revert skip pw pw'. induction s as [| c s IH]; intros skip pw pw' Hin; simpl; [done |].
  assert (Hin' : ∀ a b pw'', s = a ++ b → b ≠ [] →
                   (∀ n, m pw'' b ≠ Some (S n)) → p b = None).
  { intros a b pw'' -> Hb Hm. by apply (Hin (c :: a) b pw''). }
  destruct skip as [| k]; [| by apply IH].
  assert (Hcopy :
    (∀ n, m pw (c :: s) ≠ Some (S n)) →
    free (blind p) pw' (c :: replace_go m tok 0 (JsString.is_word c) s)).
  { intros Hm. simpl. split; [| by apply IH].
    destruct (p (c :: replace_go m tok 0 (JsString.is_word c) s)) as [n |] eqn:Hn;
      [exfalso | done].
    destruct (p_length _ _ Hn) as [Hpos Hlen]. pose proof (p_inner _ _ Hn) as Hall.
    destruct n as [| j]; [lia |]. simpl in Hlen, Hall. rewrite drop_0 in Hall.
    destruct (replace_go_copied s (JsString.is_word c) j) as [Hj Heq]; [lia | done |].
    assert (Hw : length (c :: take j s) = S j) by (simpl; rewrite length_take; lia).
    assert (Hn2 : p ((c :: take j s)
                     ++ drop j (replace_go m tok 0 (JsString.is_word c) s))
                  = Some (length (c :: take j s))).
    { rewrite Hw, <- Hn. simpl. by rewrite <- Heq, take_drop. }
    destruct (p_extends _ _ (drop j s) Hn2) as [n' Hn'].
    simpl in Hn'. rewrite take_drop in Hn'.
    rewrite (Hin [] (c :: s) pw) in Hn'; done. }
  destruct (m pw (c :: s)) as [[| n] |] eqn:Hm.
  - apply Hcopy. congruence.
  - apply free_blind_token; [done |]. by apply IH.
  - apply Hcopy. congruence.
Qed.

End Keep.

End ReplaceFacts.

(** ** The expressions of [generateFingerprint] *)

Section FingerprintPieces.
Import JsRegex.
Open Scope list_scope.

#[local] Abbreviation blind p := (fun _ : bool => p).
#[local] Abbreviation ip := (Reflect.re_ip false).
#[local] Abbreviation port := (Reflect.re_port false).
#[local] Abbreviation uuid := (Reflect.re_uuid false).
#[local] Abbreviation digit_or_dot := (fun c => JsString.is_digit c || chr "." c).

(** What the generic lemma on replacement asks of a piece and a class. *)
#[local] Abbreviation fits p inner :=
  ((∀ s n, p s = Some n → (1 ≤ n ≤ length s)%nat)
   ∧ (∀ s n, p s = Some n → Forall (fun c => inner c = true) (drop 1 (take n s)))
   ∧ extends p
   ∧ ∃ inner', within inner' p).

Lemma one_then_fits P inner b :
  within inner b → extends b → fits (seq (one P) b) inner.
Proof.
  intros Hin Hext.
  assert (Hshape : ∀ s n, seq (one P) b s = Some n →
            ∃ c s' k, s = c :: s' ∧ n = S k ∧ b s' = Some k).
  { intros s n (n1 & n2 & (-> & c & s' & -> & _)%one_Some & Hb & ->)%seq_Some.
    exists c, s', n2. done. }
  split; [| split; [| split]].
  - intros s n (c & s' & k & -> & -> & Hb)%Hshape.
    destruct (Hin s' k Hb) as [Hlen _]. simpl. lia.
  - intros s n (c & s' & k & -> & -> & Hb)%Hshape.
    destruct (Hin s' k Hb) as [_ Hall]. simpl. by rewrite drop_0.
  - eapply extends_seq_rigid; [apply within_one | apply rigid_one | done].
  - exists (fun c => P c || inner c). apply within_seq.
    + eapply within_weaken; [| apply within_one]. intros c ->. done.
    + eapply within_weaken; [| exact Hin]. intros c ->. apply orb_true_r.
Qed.

Lemma port_fits : fits port JsString.is_digit.
Proof. apply one_then_fits; [apply within_many1 | apply extends_many1]. Qed.

Lemma uuid_fits : fits uuid Reflect.hex_dash.
Proof.
  apply one_then_fits.
  - apply within_times, within_one.
  - eapply rigid_extends, rigid_times; [apply within_one | apply rigid_one].
Qed.

Lemma digits_within : within digit_or_dot (many1 JsString.is_digit).
Proof. eapply within_weaken; [| apply within_many1]. by intros c ->. Qed.

Lemma dot_within : within digit_or_dot (one (chr ".")).
Proof. eapply within_weaken; [| apply within_one]. intros c ->. apply orb_true_r. Qed.

Lemma dot_outside_digits c : chr "." c = true → JsString.is_digit c = false.
Proof. unfold chr. by intros ->%bool_decide_eq_true. Qed.

(** [\.\d+] followed by something that still matches when more follows *)
Lemma dot_digits_extends b :
  extends b → extends (seq (one (chr ".")) b).
Proof. intros Hb. eapply extends_seq_rigid; [apply within_one | apply rigid_one | done]. Qed.

Lemma digits_dot_extends b :
  extends b →
  extends (seq (many1 JsString.is_digit) (seq (one (chr ".")) b)).
Proof.
  intros Hb. eapply extends_seq_apart.
  - apply within_many1.
  - apply exact_many1.
  - apply starts_seq, starts_one, dot_outside_digits.
  - by apply dot_digits_extends.
Qed.

Lemma ip_fits : fits ip digit_or_dot.
Proof.
  assert (Hin : within digit_or_dot ip).
  { repeat (apply within_seq; [first [apply digits_within | apply dot_within] |]).
    apply digits_within. }
  split; [| split; [| split]].
  - intros s n Hn. destruct (Hin s n Hn) as [Hlen _]. split; [| done].
    apply seq_Some in Hn as (n1 & n2 & [Hpos _]%many1_Some & _ & ->). lia.
  - intros s n Hn. destruct (Hin s n Hn) as [_ Hall]. by apply Forall_drop.
  - do 3 apply digits_dot_extends. apply extends_many1.
  - by exists digit_or_dot.
Qed.

End FingerprintPieces.

(** ** Character classes *)

Section ClassFacts.

#[local] Ltac by_cases c :=
  destruct c as [[] [] [] [] [] [] [] []]; vm_compute; intros; congruence.

Lemma digit_is_word c : JsString.is_digit c = true → JsString.is_word c = true.
Proof. by_cases c. Qed.

Lemma space_not_word c : JsString.is_space c = true → JsString.is_word c = false.
Proof. by_cases c. Qed.

Lemma space_not_digit c : JsString.is_space c = true → JsString.is_digit c = false.
Proof. by_cases c. Qed.

Lemma lower_char_not_upper c : JsString.is_upper (JsString.lower_char c) = false.
Proof. by_cases c. Qed.

Lemma lower_char_fixed c : JsString.is_upper c = false → JsString.lower_char c = c.
Proof. unfold JsString.lower_char. by intros ->. Qed.

Lemma toLowerCase_chars_lower s :
  Forall (fun c => JsString.is_upper c = false) (JsString.toLowerCase_chars s).
Proof.
  unfold JsString.toLowerCase_chars. induction s as [| c s IH]; simpl; constructor;
    [apply lower_char_not_upper | done].
Qed.

Lemma toLowerCase_chars_fixed s :
  Forall (fun c => JsString.is_upper c = false) s → JsString.toLowerCase_chars s = s.
Proof.
  unfold JsString.toLowerCase_chars. induction 1 as [| c s Hc _ IH]; simpl; [done |].
  by rewrite lower_char_fixed, IH.
Qed.

End ClassFacts.

(** ** The number expression *)

Section NumberFacts.
Import JsRegex.
Open Scope list_scope.

#[local] Abbreviation number := Reflect.re_number.
#[local] Abbreviation digit := JsString.is_digit.

Lemma blocked_digit c s : digit c = true → blocked (c :: s) = blocked s.
Proof. intros Hc. unfold blocked. simpl. by rewrite Hc. Qed.

Lemma blocked_other c s : digit c = false → blocked (c :: s) = JsString.is_word c.
Proof. intros Hc. unfold blocked. simpl. by rewrite Hc. Qed.

Lemma number_Some pw s n :
  number pw s = Some n
  ↔ pw = false ∧ (1 ≤ n)%nat ∧ span digit s = n ∧ blocked s = false.
Proof.
  unfold Reflect.re_number, blocked. destruct pw; [by split; [| intros [? _]] |].
  destruct (many1 digit s) as [k |] eqn:Hk.
  - apply many1_Some in Hk as [Hpos Hspan]. rewrite Hspan.
    destruct (drop k s) as [| c rest]; [| destruct (JsString.is_word c)].
    + split; [intros [= <-]; done | by intros (_ & _ & -> & _)].
    + split; [done | by intros (_ & _ & _ & ?)].
    + split; [intros [= <-]; done | by intros (_ & _ & -> & _)].
  - split; [done |]. intros (_ & Hpos & Hspan & _).
    assert (many1 digit s = Some n) by (by apply many1_Some). congruence.
Qed.

Lemma number_None pw s :
  number pw s = None ↔ pw = true ∨ span digit s = 0%nat ∨ blocked s = true.
Proof.
  destruct (number pw s) as [n |] eqn:Hn.
  - apply number_Some in Hn as (-> & Hpos & Hspan & Hb). split; [done |].
    intros [? | [? | ?]]; [done | lia | congruence].
  - split; [intros _ | done].
    destruct pw; [by left | right].
    destruct (span digit s) as [| k] eqn:Hspan; [by left | right].
    destruct (blocked s) eqn:Hb; [done |].
    assert (number false s = Some (S k)) by (apply number_Some; repeat split; [lia | done ..]).
    congruence.
Qed.

Lemma number_other pw c s : digit c = false → number pw (c :: s) = None.
Proof. intros Hc. apply number_None. right. left. simpl. by rewrite Hc. Qed.

(** After a word character the expression matches nowhere in the word, so
    the word is copied, a blocked run with it. *)
Lemma blocked_copied tok s :
  blocked s = true → blocked (replace_go number tok 0 true s) = true.
Proof.
  induction s as [| c s IH]; [done |]. intros Hb. simpl.
  destruct (digit c) eqn:Hc.
  - rewrite blocked_digit in Hb |- * by done.
    rewrite (digit_is_word c Hc). by apply IH.
  - rewrite blocked_other in Hb |- * by done. done.
Qed.

Lemma number_establish s skip pw pw' :
  (skip = 0%nat → pw = pw' ∨ span digit s = 0%nat) →
  ((0 < skip)%nat → span digit s = skip ∧ blocked s = false) →
  free number pw' (replace_go number (list_ascii_of_string "<n>") skip pw s).
Proof.
  revert skip pw pw'.
  induction s as [| c s IH]; intros skip pw pw' Hzero Hskip; simpl; [done |].
  destruct skip as [| k].
  - destruct (number pw (c :: s)) as [[| n] |] eqn:Hm.
    + apply number_Some in Hm. lia.
    + apply number_Some in Hm as (-> & _ & Hspan & Hb).
      simpl in Hspan. destruct (digit c) eqn:Hc; [| lia].
      injection Hspan as Hspan. rewrite blocked_digit in Hb by done.
      repeat (split; [by apply number_other |]).
      apply IH; [intros ->; by right | intros _; done].
    + split.
      * destruct (digit c) eqn:Hc; [| by apply number_other].
        destruct (Hzero eq_refl) as [<- | Hspan]; [| simpl in Hspan; rewrite Hc in Hspan; lia].
        apply number_None in Hm as [-> | [Hspan | Hb]].
        -- apply number_None. by left.
        -- simpl in Hspan. rewrite Hc in Hspan. lia.
        -- apply number_None. right. right.
           rewrite blocked_digit in Hb |- * by done.
           rewrite (digit_is_word c Hc). by apply blocked_copied.
      * apply IH; [by left | lia].
  - destruct (Hskip ltac:(lia)) as [Hspan Hb].
    simpl in Hspan. destruct (digit c) eqn:Hc; [| lia]. injection Hspan as Hspan.
    rewrite blocked_digit in Hb by done.
    apply IH; [intros ->; by right | intros _; done].
Qed.

End NumberFacts.

(** ** White space: collapsing and trimming *)

Section SpaceFacts.
Import JsRegex.
Open Scope list_scope.

#[local] Abbreviation number := Reflect.re_number.
#[local] Abbreviation spaces := Reflect.re_spaces.
#[local] Abbreviation digit := JsString.is_digit.
#[local] Abbreviation space := JsString.is_space.
#[local] Abbreviation collapse := (replace_go spaces (list_ascii_of_string " ")).
#[local] Abbreviation no_space_ahead s :=
  (match s with
   | [] => True
   | c :: _ => space c = false
   end).

Lemma spaces_Some pw s n : spaces pw s = Some n ↔ (1 ≤ n)%nat ∧ span space s = n.
Proof. apply many1_Some. Qed.

Lemma spaces_other pw c s : space c = false → spaces pw (c :: s) = None.
Proof.
  intros Hc. destruct (spaces pw (c :: s)) as [n |] eqn:Hn; [| done].
  apply spaces_Some in Hn as [Hpos Hspan]. simpl in Hspan. rewrite Hc in Hspan. lia.
Qed.

Lemma collapse_head s k pw : span space s = k → no_space_ahead (collapse k pw s).
Proof.
  revert k pw. induction s as [| c s IH]; intros k pw Hspan; simpl; [done |].
  simpl in Hspan. destruct (space c) eqn:Hc.
  - destruct k as [| k]; [lia |]. injection Hspan as Hspan. by apply IH.
  - subst k. by rewrite spaces_other.
Qed.

Lemma collapse_collapsed s skip pw : collapsed (collapse skip pw s).
Proof.
  revert skip pw. induction s as [| c s IH]; intros skip pw; simpl; [done |].
  destruct skip as [| k]; [| apply IH].
  destruct (spaces pw (c :: s)) as [[| n] |] eqn:Hm.
  - apply spaces_Some in Hm. lia.
  - apply spaces_Some in Hm as [_ Hspan]. simpl in Hspan.
    destruct (space c); [| lia]. injection Hspan as Hspan.
    simpl. split; [| apply IH]. intros _. split; [done |].
    by apply collapse_head.
  - simpl. split; [| apply IH]. intros Hc.
    assert (spaces pw (c :: s) = Some (span space (c :: s))); [| congruence].
    apply spaces_Some. split; [| done]. simpl. rewrite Hc. lia.
Qed.

Lemma collapsed_fixed s pw : collapsed s → collapse 0 pw s = s.
Proof.
  revert pw. induction s as [| c s IH]; intros pw; simpl; [done |].
  intros [Hc Hrest]. destruct (space c) eqn:Hsp.
  - destruct (Hc eq_refl) as [-> Hnext].
    assert (Hm : spaces pw (" "%char :: s) = Some 1%nat).
    { apply spaces_Some. split; [lia |]. simpl.
      destruct s as [| c' s']; [done |]. simpl. by rewrite Hnext. }
    rewrite Hm. simpl. by rewrite IH.
  - rewrite spaces_other by done. by rewrite IH.
Qed.

Lemma collapsed_suffix a b : collapsed (a ++ b) → collapsed b.
Proof. induction a as [| c a IH]; simpl; [done |]. intros [_ ?]. auto. Qed.

Lemma collapsed_prefix a b : collapsed (a ++ b) → collapsed a.
Proof.
  induction a as [| c a IH]; simpl; [done |]. intros [Hc Hrest].
  split; [| auto]. intros Hsp. destruct (Hc Hsp) as [-> Hnext]. split; [done |].
  by destruct a.
Qed.

(** Collapsing keeps a piece from matching: the generic lemma at the
    space token. *)
Lemma collapse_keeps (p : Piece) (inner : ascii → bool) s pw pw' :
  inner " "%char = false →
  (∀ r, p (" "%char :: r) = None) →
  (∀ s n, p s = Some n → (1 ≤ n ≤ length s)%nat) →
  (∀ s n, p s = Some n → Forall (fun c => inner c = true) (drop 1 (take n s))) →
  extends p →
  free (fun _ => p) pw s →
  free (fun _ => p) pw' (collapse 0 pw s).
Proof.
  intros Hout Hfail Hlen Hin Hext Hfree.
  apply (replace_go_keeps spaces _ [] " "%char p inner); try done.
  - intros [| k] r Hk; [apply Hfail | simpl in Hk; lia].
  - intros a b pw'' -> Hb _. by eapply free_blind_head.
Qed.

Lemma blocked_collapsed s pw : blocked s = true → blocked (collapse 0 pw s) = true.
Proof.
  revert pw. induction s as [| c s IH]; intros pw; [done |]. intros Hb. simpl.
  destruct (digit c) eqn:Hc.
  - rewrite spaces_other by (destruct (space c) eqn:Hsp; [| done];
                              by rewrite (space_not_digit c Hsp) in Hc).
    rewrite blocked_digit in Hb |- * by done. by apply IH.
  - rewrite blocked_other in Hb by done.
    rewrite spaces_other by (destruct (space c) eqn:Hsp; [| done];
                              by rewrite (space_not_word c Hsp) in Hb).
    by rewrite blocked_other.
Qed.

Lemma collapse_keeps_number s skip pw :
  ((0 < skip)%nat → pw = false) →
  Forall (fun c => space c = true) (take skip s) →
  free number pw s →
  free number pw (collapse skip pw s).
Proof.
  revert skip pw. induction s as [| c s IH]; intros skip pw Hpw Hskip; simpl; [done |].
  intros [Hhead Hrest]. destruct skip as [| k].
  - destruct (spaces pw (c :: s)) as [[| n] |] eqn:Hm.
    + apply spaces_Some in Hm. lia.
    + apply spaces_Some in Hm as [_ Hspan].
      pose proof (span_take space (c :: s)) as Hall. rewrite Hspan in Hall.
      simpl in Hall. apply Forall_cons in Hall as [Hc Hall].
      rewrite (space_not_word c Hc) in Hrest |- *.
      simpl. split; [by apply number_other |]. by apply IH.
    + simpl. split; [| apply IH; [lia | by rewrite take_0 | done]].
      apply number_None in Hhead as [-> | [Hspan | Hb]];
        apply number_None;
        [by left | right; left; simpl in Hspan |- *; by destruct (digit c) |].
      right. right. destruct (digit c) eqn:Hc.
      * rewrite blocked_digit in Hb |- * by done. by apply blocked_collapsed.
      * by rewrite blocked_other in Hb |- *.
  - simpl in Hskip. apply Forall_cons in Hskip as [Hc Hskip].
    rewrite (space_not_word c Hc) in Hrest |- *.
    rewrite (Hpw ltac:(lia)) in *. by apply IH.
Qed.

Lemma trim_start_split s :
  ∃ a, s = a ++ trim_start s ∧ Forall (fun c => space c = true) a.
Proof.
  induction s as [| c s (a & Hs & Ha)]; simpl; [by exists [] |].
  destruct (space c) eqn:Hc.
  - exists (c :: a). simpl. split; [by rewrite <- Hs | by constructor].
  - by exists [].
Qed.

Lemma trim_end_split s :
  ∃ b, s = trim_end s ++ b ∧ Forall (fun c => space c = true) b.
Proof.
  unfold trim_end. destruct (trim_start_split (rev s)) as (a & Hs & Ha).
  exists (rev a). split; [| by apply Forall_rev].
  rewrite <- rev_app_distr, <- Hs. by rewrite rev_involutive.
Qed.

Lemma trim_start_head s : no_space_ahead (trim_start s).
Proof.
  induction s as [| c s IH]; simpl; [done |]. by destruct (space c) eqn:Hc.
Qed.

Lemma trim_start_fixed s : no_space_ahead s → trim_start s = s.
Proof. destruct s as [| c s]; simpl; [done |]. by intros ->. Qed.

Lemma trim_end_fixed s : trim_end (trim_end s) = trim_end s.
Proof.
  unfold trim_end. rewrite rev_involutive.
  by rewrite (trim_start_fixed (trim_start (rev s))) by apply trim_start_head.
Qed.

Lemma trim_fixed s : trim (trim s) = trim s.
Proof.
  unfold trim. rewrite (trim_start_fixed (trim_end (trim_start s))).
  - apply trim_end_fixed.
  - pose proof (trim_start_head s) as Hhead.
    destruct (trim_end_split (trim_start s)) as (b & Hs & _).
    destruct (trim_end (trim_start s)) as [| c t]; [done |].
    rewrite Hs in Hhead. done.
Qed.

Lemma trim_split s :
  ∃ a b, s = a ++ trim s ++ b
         ∧ Forall (fun c => space c = true) a ∧ Forall (fun c => space c = true) b.
Proof.
  destruct (trim_start_split s) as (a & Hs & Ha).
  destruct (trim_end_split (trim_start s)) as (b & Ht & Hb).
  exists a, b. unfold trim. by rewrite <- Ht.
Qed.

Lemma number_after_spaces a r :
  Forall (fun c => space c = true) a → free number false (a ++ r) → free number false r.
Proof.
  induction 1 as [| c a Hc _ IH]; simpl; [done |].
  intros [_ Hrest]. rewrite (space_not_word c Hc) in Hrest. auto.
Qed.

Lemma blocked_before_spaces u b :
  Forall (fun c => space c = true) b → blocked (u ++ b) = true → blocked u = true.
Proof.
  intros Hb. induction u as [| c u IH]; simpl.
  - destruct Hb as [| c b Hc _]; [done |].
    rewrite blocked_other by (by apply space_not_digit).
    by rewrite (space_not_word c Hc).
  - destruct (digit c) eqn:Hc.
    + rewrite !blocked_digit by done. done.
    + by rewrite !blocked_other by done.
Qed.

Lemma number_before_spaces t b pw :
  Forall (fun c => space c = true) b → free number pw (t ++ b) → free number pw t.
Proof.
  intros Hb. revert pw. induction t as [| c t IH]; intros pw; simpl; [done |].
  intros [Hhead Hrest]. split; [| auto].
  apply number_None in Hhead as [-> | [Hspan | Hblocked]];
    apply number_None; [by left | right; left | right; right].
  - simpl in Hspan |- *. by destruct (digit c).
  - by apply (blocked_before_spaces (c :: t) b).
Qed.

(** The same for a cut after a character that is not a digit, whatever
    the cut removes. *)
Lemma blocked_before_cut t c b :
  digit c = false → blocked ((t ++ [c]) ++ b) = blocked (t ++ [c]).
Proof.
  intros Hc. induction t as [| c0 t IH]; simpl.
  - by rewrite !blocked_other.
  - destruct (digit c0) eqn:Hc0.
    + by rewrite !blocked_digit.
    + by rewrite !blocked_other.
Qed.

Lemma number_before_cut t c b pw :
  digit c = false → free number pw ((t ++ [c]) ++ b) → free number pw (t ++ [c]).
Proof.
  intros Hc. revert pw. induction t as [| c0 t IH]; intros pw; simpl.
  - intros _. split; [by apply number_other | done].
  - intros [Hhead Hrest]. split; [| auto].
    apply number_None in Hhead as [-> | [Hspan | Hblocked]];
      apply number_None; [by left | right; left | right; right].
    + simpl in Hspan |- *. by destruct (digit c0).
    + rewrite <- Hblocked. symmetry. by apply (blocked_before_cut (c0 :: t) c b).
Qed.

Lemma trim_end_last t c : space c = false → trim_end (t ++ [c]) = t ++ [c].
Proof.
  intros Hc. unfold trim_end. rewrite rev_app_distr. simpl. rewrite Hc. simpl.
  by rewrite rev_involutive.
Qed.

Lemma trim_head s : no_space_ahead (trim s).
Proof.
  unfold trim. pose proof (trim_start_head s) as Hhead.
  destruct (trim_end_split (trim_start s)) as (b & Hs & _).
  destruct (trim_end (trim_start s)) as [| c t]; [done |].
  rewrite Hs in Hhead. done.
Qed.

End SpaceFacts.

(** ** The fingerprint *)

Section FingerprintFacts.
Import JsRegex.
Open Scope list_scope.

#[local] Abbreviation blind p := (fun _ : bool => p).
#[local] Abbreviation ip := (Reflect.re_ip false).
#[local] Abbreviation port := (Reflect.re_port false).
#[local] Abbreviation uuid := (Reflect.re_uuid false).
#[local] Abbreviation number := Reflect.re_number.
#[local] Abbreviation digit_or_dot := (fun c => JsString.is_digit c || chr "." c).
#[local] Abbreviation space := JsString.is_space.
#[local] Abbreviation lower := (fun c => JsString.is_upper c = false).

(** A token suits a piece and its class when it starts outside the class
    and the piece matches nowhere in it, whatever follows. *)
#[local] Abbreviation suits tok p inner :=
  (∃ t0 tok', list_ascii_of_string tok = t0 :: tok' ∧ inner t0 = false
              ∧ ∀ k r, lt k (length (list_ascii_of_string tok)) →
                       p (drop k (list_ascii_of_string tok) ++ r) = None).

#[local] Ltac token_suits :=
  eexists _, _; split; [reflexivity |]; split; [reflexivity |];
  let k := fresh "k" in let r := fresh "r" in let Hk := fresh "Hk" in
  intros k r Hk;
  repeat (destruct k as [| k]; [reflexivity |]); simpl in Hk; lia.

Lemma replace_all_keeps (m : Matcher) tok (p : Piece) inner s :
  (∀ s n, p s = Some n → (1 ≤ n ≤ length s)%nat)
  ∧ (∀ s n, p s = Some n → Forall (fun c => inner c = true) (drop 1 (take n s)))
  ∧ extends p
  ∧ (∃ inner', within inner' p) →
  suits tok p inner →
  free (blind p) false s →
  free (blind p) false (replace_all m tok s).
Proof.
  intros (Hlen & Hin & Hext & _) (t0 & tok' & Htok & Ht0 & Hfail) Hfree.
  unfold replace_all.
  apply (replace_go_keeps m _ tok' t0 p inner); try done.
  intros a b pw -> Hb _. by eapply free_blind_head.
Qed.

Lemma replace_all_establishes tok (p : Piece) inner s :
  (∀ s n, p s = Some n → (1 ≤ n ≤ length s)%nat)
  ∧ (∀ s n, p s = Some n → Forall (fun c => inner c = true) (drop 1 (take n s)))
  ∧ extends p
  ∧ (∃ inner', within inner' p) →
  suits tok p inner →
  free (blind p) false (replace_all (blind p) tok s).
Proof.
  intros (Hlen & Hin & Hext & _) (t0 & tok' & Htok & Ht0 & Hfail).
  unfold replace_all.
  apply (replace_go_keeps (blind p) _ tok' t0 p inner); try done.
  intros a b pw -> Hb Hm. destruct (p b) as [[| n] |] eqn:Hp; [| | done].
  - apply Hlen in Hp. lia.
  - by destruct (Hm n).
Qed.

Lemma trim_keeps (p : Piece) inner s :
  within inner p → extends p →
  free (blind p) false s → free (blind p) false (trim s).
Proof.
  intros Hin Hext Hfree. destruct (trim_split s) as (a & b & Hs & _ & _).
  rewrite Hs in Hfree.
  apply free_blind_suffix in Hfree. by eapply free_blind_prefix.
Qed.

Lemma replace_go_Forall (Q : ascii → Prop) (m : Matcher) tok skip pw s :
  Forall Q tok → Forall Q s → Forall Q (replace_go m tok skip pw s).
Proof.
  intros Htok Hs. revert skip pw.
  induction Hs as [| c s Hc _ IH]; intros skip pw; simpl; [done |].
  destruct skip as [| k]; [| apply IH].
  destruct (m pw (c :: s)) as [[| n] |]; [by constructor | | by constructor].
  by apply Forall_app.
Qed.

Lemma trim_Forall (Q : ascii → Prop) s : Forall Q s → Forall Q (trim s).
Proof.
  intros Hs. destruct (trim_split s) as (a & b & Heq & _ & _). rewrite Heq in Hs.
  apply Forall_app in Hs as [_ Hs]. by apply Forall_app in Hs as [Hs _].
Qed.

(** The five replacements and the trimming, one after the other. *)
#[local] Abbreviation step1 x := (replace_all Reflect.re_ip "<ip>" (JsString.toLowerCase_chars x)).
#[local] Abbreviation step2 x := (replace_all Reflect.re_port ":<port>" (step1 x)).
#[local] Abbreviation step3 x := (replace_all Reflect.re_uuid "/<uuid>" (step2 x)).
#[local] Abbreviation step4 x := (replace_all Reflect.re_number "<n>" (step3 x)).
#[local] Abbreviation step5 x := (replace_all Reflect.re_spaces " " (step4 x)).

Lemma normal_form_steps x : Reflect.normal_form x = trim (step5 x).
Proof. reflexivity. Qed.

Lemma ip_within : within digit_or_dot ip.
Proof.
  repeat (apply within_seq; [first [apply digits_within | apply dot_within] |]).
  apply digits_within.
Qed.

Lemma normal_form_no_ip x : free Reflect.re_ip false (Reflect.normal_form x).
Proof.
  rewrite normal_form_steps.
  apply (trim_keeps ip digit_or_dot); [apply ip_within | apply ip_fits |].
  apply (replace_all_keeps _ _ ip digit_or_dot); [apply ip_fits | token_suits |].
  apply (replace_all_keeps _ _ ip digit_or_dot); [apply ip_fits | token_suits |].
  apply (replace_all_keeps _ _ ip digit_or_dot); [apply ip_fits | token_suits |].
  apply (replace_all_keeps _ _ ip digit_or_dot); [apply ip_fits | token_suits |].
  apply (replace_all_establishes _ ip digit_or_dot); [apply ip_fits | token_suits].
Qed.

Lemma normal_form_no_port x : free Reflect.re_port false (Reflect.normal_form x).
Proof.
  rewrite normal_form_steps.
  destruct port_fits as (_ & _ & Hext & inner' & Hin).
  apply (trim_keeps port inner'); [done | done |].
  apply (replace_all_keeps _ _ port JsString.is_digit); [apply port_fits | token_suits |].
  apply (replace_all_keeps _ _ port JsString.is_digit); [apply port_fits | token_suits |].
  apply (replace_all_keeps _ _ port JsString.is_digit); [apply port_fits | token_suits |].
  apply (replace_all_establishes _ port JsString.is_digit); [apply port_fits | token_suits].
Qed.

Lemma normal_form_no_uuid x : free Reflect.re_uuid false (Reflect.normal_form x).
Proof.
  rewrite normal_form_steps.
  destruct uuid_fits as (_ & _ & Hext & inner' & Hin).
  apply (trim_keeps uuid inner'); [done | done |].
  apply (replace_all_keeps _ _ uuid Reflect.hex_dash); [apply uuid_fits | token_suits |].
  apply (replace_all_keeps _ _ uuid Reflect.hex_dash); [apply uuid_fits | token_suits |].
  apply (replace_all_establishes _ uuid Reflect.hex_dash); [apply uuid_fits | token_suits].
Qed.

Lemma normal_form_no_number x : free Reflect.re_number false (Reflect.normal_form x).
Proof.
  rewrite normal_form_steps.
  destruct (trim_split (step5 x)) as (a & b & Hs & Ha & Hb).
  apply (number_before_spaces _ b); [done |].
  apply (number_after_spaces a); [done |]. rewrite <- Hs.
  unfold replace_all at 1.
  apply collapse_keeps_number; [lia | by rewrite take_0 |].
  apply number_establish; [by left | lia].
Qed.

Lemma normal_form_collapsed x : collapsed (Reflect.normal_form x).
Proof.
  rewrite normal_form_steps.
  destruct (trim_split (step5 x)) as (a & b & Hs & _ & _).
  pose proof (collapse_collapsed (step4 x) 0 false) as Hc.
  change (collapsed (step5 x)) in Hc. rewrite Hs in Hc.
  by apply collapsed_suffix, collapsed_prefix in Hc.
Qed.

Lemma normal_form_lower x : Forall lower (Reflect.normal_form x).
Proof.
  rewrite normal_form_steps. apply trim_Forall.
  repeat (apply replace_go_Forall; [by repeat constructor |]).
  apply toLowerCase_chars_lower.
Qed.

(** The normal form is a fixed point of every step. *)
Lemma normal_form_fixed x : Reflect.normal_form (Reflect.normal_form x) = Reflect.normal_form x.
Proof.
  set (y := Reflect.normal_form x).
  unfold Reflect.normal_form at 1.
  rewrite (toLowerCase_chars_fixed y) by apply normal_form_lower.
  unfold replace_all.
  rewrite (replace_go_free Reflect.re_ip _ false y) by apply normal_form_no_ip.
  rewrite (replace_go_free Reflect.re_port _ false y) by apply normal_form_no_port.
  rewrite (replace_go_free Reflect.re_uuid _ false y) by apply normal_form_no_uuid.
  rewrite (replace_go_free Reflect.re_number _ false y) by apply normal_form_no_number.
  rewrite (collapsed_fixed y false) by apply normal_form_collapsed.
  subst y. rewrite normal_form_steps. apply trim_fixed.
Qed.

(** A prefix of a normal form that ends in neither white space nor a digit
    is a fixed point of every step as well. *)
Lemma normal_form_prefix_fixed x z b :
  Reflect.normal_form x = z ++ b → Spec.clean_end z = true → Reflect.normal_form z = z.
Proof.
  intros Hy Hend. unfold Spec.clean_end in Hend.
  destruct (last z) as [c |] eqn:Hlast; [| by apply last_None in Hlast as ->].
  apply last_Some in Hlast as [z' ->].
  apply andb_true_iff in Hend as [Hspace Hdigit].
  apply negb_true_iff in Hspace, Hdigit.
  pose proof (normal_form_lower x) as Hlower.
  pose proof (normal_form_no_ip x) as Hip.
  pose proof (normal_form_no_port x) as Hport.
  pose proof (normal_form_no_uuid x) as Huuid.
  pose proof (normal_form_no_number x) as Hnumber.
  pose proof (normal_form_collapsed x) as Hcollapsed.
  pose proof (trim_head (step5 x)) as Hhead.
  rewrite <- normal_form_steps in Hhead.
  rewrite Hy in Hlower, Hip, Hport, Huuid, Hnumber, Hcollapsed, Hhead.
  apply Forall_app in Hlower as [Hlower _].
  apply (free_blind_prefix _ _ _ _ _ ip_within (proj1 (proj2 (proj2 ip_fits)))) in Hip.
  destruct port_fits as (_ & _ & Hpext & pin & Hpin).
  apply (free_blind_prefix _ _ _ _ _ Hpin Hpext) in Hport.
  destruct uuid_fits as (_ & _ & Huext & uin & Huin).
  apply (free_blind_prefix _ _ _ _ _ Huin Huext) in Huuid.
  apply (number_before_cut _ _ _ _ Hdigit) in Hnumber.
  apply collapsed_prefix in Hcollapsed.
  unfold Reflect.normal_form.
  rewrite (toLowerCase_chars_fixed (z' ++ [c])) by done.
  unfold replace_all.
  rewrite (replace_go_free Reflect.re_ip _ false (z' ++ [c])) by done.
  rewrite (replace_go_free Reflect.re_port _ false (z' ++ [c])) by done.
  rewrite (replace_go_free Reflect.re_uuid _ false (z' ++ [c])) by done.
  rewrite (replace_go_free Reflect.re_number _ false (z' ++ [c])) by done.
  rewrite (collapsed_fixed (z' ++ [c]) false) by done.
  unfold trim. rewrite trim_start_fixed.
  - by apply trim_end_last.
  - destruct z' as [| c0 z']; simpl in *; done.
Qed.

End FingerprintFacts.

(** C4, as the code has it.  Normalization up to the final [slice(0, 100)]
    is idempotent, and [generateFingerprint] is idempotent on every message
    whose normal form has at most 100 characters, so that the slice cuts
    nothing, which holds as soon as the fingerprint is shorter than 100;
    and on every message whose fingerprint ends in neither a white-space
    character nor a digit, whatever the slice cuts. *)
Theorem generateFingerprint_idempotent_clean (message : string) :
  Reflect.normal_form (Reflect.normal_form (list_ascii_of_string message))
  = Reflect.normal_form (list_ascii_of_string message)
  ∧ ((length (Reflect.normal_form (list_ascii_of_string message)) ≤ 100)%nat →
     Reflect.generateFingerprint (Reflect.generateFingerprint message)
     = Reflect.generateFingerprint message)
  ∧ ((String.length (Reflect.generateFingerprint message) < 100)%nat →
     Reflect.generateFingerprint (Reflect.generateFingerprint message)
     = Reflect.generateFingerprint message)
  ∧ (Spec.clean_end (list_ascii_of_string (Reflect.generateFingerprint message)) = true →
     Reflect.generateFingerprint (Reflect.generateFingerprint message)
     = Reflect.generateFingerprint message).
Proof.
  assert (Huncut : (length (Reflect.normal_form (list_ascii_of_string message)) ≤ 100)%nat →
                   Reflect.generateFingerprint (Reflect.generateFingerprint message)
                   = Reflect.generateFingerprint message).
  { intros Hlen. unfold Reflect.generateFingerprint, Reflect.generateFingerprint_chars.
    rewrite (take_ge (Reflect.normal_form (list_ascii_of_string message))) by done.
    rewrite list_ascii_of_string_of_list_ascii, normal_form_fixed.
    by rewrite take_ge. }
  split; [apply normal_form_fixed |]. split; [done |]. split.
  - intros Hshort. apply Huncut.
    unfold Reflect.generateFingerprint, Reflect.generateFingerprint_chars in Hshort.
    rewrite <- (list_ascii_of_string_of_list_ascii
                  (take 100 (Reflect.normal_form (list_ascii_of_string message)))) in Hshort.
    rewrite string_of_list_ascii_of_string in Hshort.
    assert (Hlen : ∀ l, String.length (string_of_list_ascii l) = length l)
      by (induction l as [| c l IH]; simpl; [done | by rewrite IH]).
    rewrite Hlen, length_take in Hshort. lia.
  - unfold Reflect.generateFingerprint, Reflect.generateFingerprint_chars.
    rewrite list_ascii_of_string_of_list_ascii. intros Hend. f_equal.
    rewrite (normal_form_prefix_fixed (list_ascii_of_string message) _
               (drop 100 (Reflect.normal_form (list_ascii_of_string message))));
      [| by rewrite take_drop | done].
    by rewrite take_take, Nat.min_id.
Qed.

Lemma generateFingerprint_idempotent_clean_witness :
  (Reflect.generateFingerprint (Reflect.generateFingerprint Examples.refused_query)
   = Reflect.generateFingerprint Examples.refused_query)
  ∧ (Reflect.generateFingerprint (Reflect.generateFingerprint Examples.long_word)
     = Reflect.generateFingerprint Examples.long_word).
Proof.
  split.
  - apply (proj1 (proj2 (generateFingerprint_idempotent_clean Examples.refused_query))).
    vm_compute. lia.
  - apply (proj2 (proj2 (proj2 (generateFingerprint_idempotent_clean Examples.long_word)))).
    vm_compute. reflexivity.
Defined.

(** C4, as the claim states it, fails: on a message whose normal form has
    a space as its 100th character, the slice leaves that space at the end
    and a second pass trims it. *)
Lemma generateFingerprint_not_idempotent :
  Reflect.generateFingerprint (Reflect.generateFingerprint Examples.long_message)
  ≠ Reflect.generateFingerprint Examples.long_message.
Proof. vm_compute. discriminate. Qed.

(** The other way the slice breaks it: a digit cut from the word it began
    stands alone at the end of the fingerprint, and a second pass takes it
    for a number. *)
Lemma generateFingerprint_cut_word :
  Reflect.generateFingerprint Examples.cut_word
  = string_of_list_ascii (replicate 98 "a"%char) ++ " 1"
  ∧ Reflect.generateFingerprint (Reflect.generateFingerprint Examples.cut_word)
    = string_of_list_ascii (replicate 98 "a"%char) ++ " <".
Proof. by vm_compute. Qed.

(** ** Strings and their characters *)

Section StringFacts.
Open Scope list_scope.

Lemma list_ascii_app (a b : string) :
  list_ascii_of_string (a ++ b)%string = list_ascii_of_string a ++ list_ascii_of_string b.
Proof.
  induction a as [| c a IH]; [done |].
  change (String c a ++ b)%string with (String c (a ++ b)%string).
  simpl. by rewrite IH.
Qed.

Lemma string_of_list_app (a b : list ascii) :
  string_of_list_ascii (a ++ b) = (string_of_list_ascii a ++ string_of_list_ascii b)%string.
Proof.
  induction a as [| c a IH]; [done |]. simpl. rewrite IH. done.
Qed.

Lemma string_length_chars (s : string) : String.length s = length (list_ascii_of_string s).
Proof. induction s as [| c s IH]; simpl; [done | by rewrite IH]. Qed.

Lemma chars_length_string (l : list ascii) : String.length (string_of_list_ascii l) = length l.
Proof. induction l as [| c l IH]; simpl; [done | by rewrite IH]. Qed.

Lemma toLowerCase_app (a b : string) :
  JsString.toLowerCase (a ++ b)%string = (JsString.toLowerCase a ++ JsString.toLowerCase b)%string.
Proof.
  unfold JsString.toLowerCase, JsString.toLowerCase_chars.
  by rewrite list_ascii_app, map_app, string_of_list_app.
Qed.

Lemma toLowerCase_fixed (s : string) :
  JsString.toLowerCase (JsString.toLowerCase s) = JsString.toLowerCase s.
Proof.
  unfold JsString.toLowerCase. rewrite list_ascii_of_string_of_list_ascii.
  f_equal. apply toLowerCase_chars_fixed, toLowerCase_chars_lower.
Qed.

End StringFacts.

(** ** Splitting at separators *)

Section SplitFacts.
Open Scope list_scope.
Variable sep : ascii → bool.

#[local] Abbreviation nonempty := (fun piece : list ascii => piece ≠ []).
#[local] Abbreviation split_go := (JsString.split_go sep).

(** No piece holds a separator. *)
Lemma split_go_pieces cur in_sep s :
  Forall (fun c => sep c = false) cur →
  Forall (Forall (fun c => sep c = false)) (split_go cur in_sep s).
Proof.
  revert cur in_sep. induction s as [| c s IH]; intros cur in_sep Hcur; simpl.
  - repeat constructor. by apply Forall_rev.
  - destruct (sep c) eqn:Hc.
    + destruct in_sep; [by apply IH |].
      constructor; [by apply Forall_rev | by apply IH].
    + apply IH. by constructor.
Qed.

Lemma split_go_start s :
  filter nonempty (split_go [] true s) = filter nonempty (split_go [] false s).
Proof.
  destruct s as [| c s]; simpl; [done |].
  destruct (sep c); [| done].
  by rewrite filter_cons_False by (by intros ?).
Qed.

(** The pieces of two strings with a separator between them are the
    pieces of the one and the pieces of the other, empty pieces apart. *)
Lemma split_go_app cur in_sep a c b :
  sep c = true → (in_sep = true → cur = []) →
  filter nonempty (split_go cur in_sep (a ++ c :: b))
  = filter nonempty (split_go cur in_sep a) ++ filter nonempty (split_go [] false b).
Proof.
  intros Hc. revert cur in_sep. induction a as [| x a IH]; intros cur in_sep Hcur; simpl.
  - rewrite Hc. destruct in_sep.
    + rewrite (Hcur eq_refl). simpl. apply split_go_start.
    + rewrite !filter_cons. destruct (decide (rev cur ≠ [])); simpl;
        by rewrite split_go_start.
  - destruct (sep x) eqn:Hx.
    + destruct in_sep.
      * by apply IH.
      * rewrite !filter_cons. destruct (decide (rev cur ≠ [])); simpl;
          by rewrite IH.
    + by apply IH.
Qed.

Lemma split_chars_app a c b :
  sep c = true →
  filter nonempty (JsString.split_chars sep (a ++ c :: b))
  = filter nonempty (JsString.split_chars sep a) ++ filter nonempty (JsString.split_chars sep b).
Proof. intros Hc. by apply split_go_app. Qed.

(** Pieces without a separator, joined by one, split into themselves. *)
Lemma filter_words (P : string → Prop) `{!∀ w, Decision (P w)} (l : list (list ascii)) :
  (∀ w, P w → w ≠ "") →
  filter P (map string_of_list_ascii l)
  = filter P (map string_of_list_ascii (filter nonempty l)).
Proof.
  intros HP. induction l as [| x l IH]; simpl; [done |].
  destruct x as [| c x].
  - rewrite (filter_cons_False nonempty) by (by intros ?). simpl.
    rewrite filter_cons_False; [done |]. intros HP'. by apply HP in HP'.
  - rewrite (filter_cons_True nonempty) by done. simpl.
    rewrite !filter_cons. by rewrite IH.
Qed.

End SplitFacts.

(** ** Substrings *)

Section IncludesFacts.
Open Scope list_scope.

Lemma prefix_chars_true p s : JsString.prefix_chars p s = true ↔ ∃ b, s = p ++ b.
Proof.
  revert s. induction p as [| a p IH]; intros s; simpl.
  - split; [by exists s | done].
  - destruct s as [| c s]; [split; [done | by intros [b Hb]] |].
    destruct (ascii_dec a c) as [-> | Hne].
    + rewrite IH. split; intros [b Hb]; exists b; [by rewrite Hb | by injection Hb].
    + split; [done |]. intros [b Hb]. injection Hb as -> _. done.
Qed.

Lemma includes_chars_true sub s :
  JsString.includes_chars sub s = true ↔ ∃ a b, s = a ++ sub ++ b.
Proof.
  induction s as [| c s IH]; simpl.
  - rewrite orb_false_r, prefix_chars_true. split.
    + intros [b Hb]. by exists [], b.
    + intros (a & b & Hs). symmetry in Hs.
      apply app_eq_nil in Hs as [-> Hs]. apply app_eq_nil in Hs as [-> ->]. by exists [].
  - rewrite orb_true_iff, prefix_chars_true, IH. split.
    + intros [[b Hb] | (a & b & Hs)]; [by exists [], b |].
      exists (c :: a), b. by rewrite Hs.
    + intros (a & b & Hs). destruct a as [| x a].
      * left. by exists b.
      * right. injection Hs as _ Hs. by exists a, b.
Qed.

Lemma includes_true (s sub : string) :
  JsString.includes s sub = true ↔ ∃ a b, s = (a ++ sub ++ b)%string.
Proof.
  unfold JsString.includes. rewrite includes_chars_true. split.
  - intros (a & b & Hs). exists (string_of_list_ascii a), (string_of_list_ascii b).
    rewrite <- (string_of_list_ascii_of_string s), Hs, !string_of_list_app.
    by rewrite string_of_list_ascii_of_string.
  - intros (a & b & ->). exists (list_ascii_of_string a), (list_ascii_of_string b).
    by rewrite !list_ascii_app.
Qed.

(** Every piece of a split stands in the string. *)
Lemma split_go_substring sep cur in_sep s p :
  p ∈ JsString.split_go sep cur in_sep s → ∃ a b, rev cur ++ s = a ++ p ++ b.
Proof.
  revert cur in_sep. induction s as [| c s IH]; intros cur in_sep; simpl.
  - intros ->%list_elem_of_singleton. exists [], []. by rewrite !app_nil_r.
  - assert (Hrest : p ∈ JsString.split_go sep [] true s →
                    ∃ a b, rev cur ++ c :: s = a ++ p ++ b).
    { intros (a & b & Hs)%IH. simpl in Hs. exists (rev cur ++ c :: a), b.
      by rewrite Hs, <- app_assoc. }
    destruct (sep c).
    + destruct in_sep; [done |].
      intros [-> | Hp]%elem_of_cons; [by exists [], (c :: s) | auto].
    + intros (a & b & Hs)%IH. exists a, b. rewrite <- Hs. simpl.
      by rewrite <- app_assoc.
Qed.

End IncludesFacts.

(** ** Keywords *)

Section KeywordFacts.

#[local] Abbreviation keyword := (fun word : string =>
  (3 ≤ String.length word)%nat ∧ word ∉ Matching.stopWords).

Lemma keyword_nonempty w : keyword w → w ≠ "".
Proof. intros [Hlen _] ->. simpl in Hlen. lia. Qed.

Lemma extractKeywords_pieces message :
  Matching.extractKeywords message
  = filter keyword
      (map string_of_list_ascii
         (filter (fun piece => piece ≠ [])
            (JsString.split_chars Matching.keyword_sep
               (list_ascii_of_string (JsString.toLowerCase message))))).
Proof.
  unfold Matching.extractKeywords, JsString.split.
  apply (filter_words keyword). apply keyword_nonempty.
Qed.

Lemma extractKeywords_app a b :
  Matching.extractKeywords (a ++ " " ++ b)
  = (Matching.extractKeywords a ++ Matching.extractKeywords b)%list.
Proof.
  rewrite !extractKeywords_pieces, !toLowerCase_app, !list_ascii_app.
  change (list_ascii_of_string (JsString.toLowerCase " ")) with [" "%char].
  simpl app at 2.
  rewrite split_chars_app by reflexivity.
  by rewrite map_app, filter_app.
Qed.

Lemma extractKeywords_empty : Matching.extractKeywords "" = [].
Proof. reflexivity. Qed.

Lemma extractKeywords_join l :
  Matching.extractKeywords (JsString.join " " l) = concat (map Matching.extractKeywords l).
Proof.
  induction l as [| x l IH]; [done |].
  destruct l as [| y l].
  - simpl. by rewrite app_nil_r.
  - change (JsString.join " " (x :: y :: l)) with (x ++ " " ++ JsString.join " " (y :: l)).
    rewrite extractKeywords_app, IH. done.
Qed.

Lemma extractKeywords_lower message :
  Matching.extractKeywords (JsString.toLowerCase message) = Matching.extractKeywords message.
Proof. unfold Matching.extractKeywords. by rewrite toLowerCase_fixed. Qed.

Lemma extractKeywords_elem message word :
  word ∈ Matching.extractKeywords message →
  keyword word
  ∧ Forall (fun c => Matching.keyword_sep c = false) (list_ascii_of_string word)
  ∧ JsString.includes (JsString.toLowerCase message) word = true.
Proof.
  unfold Matching.extractKeywords, JsString.split, JsString.split_chars.
  intros [Hkw Hin]%list_elem_of_filter. split; [done |].
  apply list_elem_of_fmap in Hin as (piece & -> & Hpiece).
  rewrite list_ascii_of_string_of_list_ascii. split.
  - pose proof (split_go_pieces Matching.keyword_sep [] false
                  (list_ascii_of_string (JsString.toLowerCase message)) ltac:(constructor)) as Hall.
    rewrite Forall_forall in Hall. by apply Hall.
  - apply split_go_substring in Hpiece as (a & b & Hs). simpl in Hs.
    unfold JsString.includes. rewrite list_ascii_of_string_of_list_ascii.
    apply includes_chars_true. by exists a, b.
Qed.

End KeywordFacts.

(** [extractKeywords]: every keyword has at least three characters, all of
    them lower-case letters, digits or underscores, is no stop word, and
    stands in the lower-cased message. *)
Theorem extractKeywords_words (message word : string) :
  word ∈ Matching.extractKeywords message →
  (3 ≤ String.length word)%nat
  ∧ (word ∉ Matching.stopWords)
  ∧ Forall (fun c => (JsString.is_lower c || JsString.is_digit c
                      || (JsString.code c =? 95)%N) = true)
           (list_ascii_of_string word)
  ∧ JsString.includes (JsString.toLowerCase message) word = true.
Proof.
  intros ([Hlen Hstop] & Hchars & Hin)%extractKeywords_elem.
  repeat split; [done | done | | done].
  eapply Forall_impl; [exact Hchars |]. intros c Hc.
  unfold Matching.keyword_sep in Hc. by apply negb_false_iff in Hc.
Qed.

Lemma extractKeywords_words_witness :
  (3 ≤ String.length "refused")%nat
  ∧ ("refused" ∉ Matching.stopWords)
  ∧ Forall (fun c => (JsString.is_lower c || JsString.is_digit c
                      || (JsString.code c =? 95)%N) = true)
           (list_ascii_of_string "refused")
  ∧ JsString.includes (JsString.toLowerCase "Connection refused") "refused" = true.
Proof.
  apply (extractKeywords_words "Connection refused" "refused").
  apply list_elem_of_In. vm_compute. tauto.
Defined.

(** [extractKeywords] reads a text part by part: the keywords of two texts
    with a space between them are the keywords of the one followed by those
    of the other, so the keywords that [findMatchingPatterns] takes from a
    pattern are those of its title followed by those of each symptom in
    turn; and the case of the letters makes no difference. *)
Theorem extractKeywords_composes :
  (∀ a b, Matching.extractKeywords (a ++ " " ++ b)
          = (Matching.extractKeywords a ++ Matching.extractKeywords b)%list)
  ∧ (∀ l, Matching.extractKeywords (JsString.join " " l)
          = concat (map Matching.extractKeywords l))
  ∧ (∀ p, Matching.patternKeywords p
          = (Matching.extractKeywords (Playbook.title p)
             ++ concat (map Matching.extractKeywords (Playbook.symptoms p)))%list)
  ∧ (∀ message, Matching.extractKeywords (JsString.toLowerCase message)
                = Matching.extractKeywords message).
Proof.
  split; [exact extractKeywords_app |]. split; [exact extractKeywords_join |].
  split; [| exact extractKeywords_lower].
  intros p. unfold Matching.patternKeywords.
  by rewrite extractKeywords_app, extractKeywords_join.
Qed.

(** ** Ranking: sorting by a key and cutting at a limit *)

Lemma StronglySorted_weaken {A} (R R' : A → A → Prop) (l : list A) :
  (∀ x y, R x y → R' x y) → StronglySorted R l → StronglySorted R' l.
Proof.
  intros Himpl. induction 1 as [| x l Hl IH Hx]; constructor; [done |].
  eapply Forall_impl; [exact Hx |]. intros y. apply Himpl.
Qed.

Section RankFacts.
Context {A K : Type} (ltb : K → K → bool) (key : A → K).
Hypothesis ltb_asym : ∀ a b, ltb a b = true → ltb b a = false.
Hypothesis geb_trans : ∀ a b c, ltb a b = false → ltb b c = false → ltb a c = false.

#[local] Abbreviation ranked limit l := (JsArray.slice0 limit (JsArray.sort_desc ltb key l)).
#[local] Abbreviation not_below := (fun x y : A => ltb (key x) (key y) = false).

Lemma slice0_prefix (limit : Z) (l : list A) : ∃ n, JsArray.slice0 limit l = take n l.
Proof. unfold JsArray.slice0. destruct (limit <? 0)%Z; eauto. Qed.

Lemma slice0_length (limit : Z) (l : list A) :
  length (JsArray.slice0 limit l)
  = if (limit <? 0)%Z then Z.to_nat (Z.of_nat (length l) + limit)
    else Nat.min (Z.to_nat limit) (length l).
Proof.
  unfold JsArray.slice0. destruct (limit <? 0)%Z eqn:Hneg; rewrite length_take; [| done].
  apply Z.ltb_lt in Hneg. lia.
Qed.

Lemma ranked_length limit l : (length (ranked limit l) ≤ length l)%nat.
Proof.
  destruct (slice0_prefix limit (JsArray.sort_desc ltb key l)) as [n ->].
  rewrite length_take, (Permutation_length (sort_desc_perm ltb key l)). lia.
Qed.

Lemma StronglySorted_split (R : A → A → Prop) a b :
  StronglySorted R (a ++ b) →
  StronglySorted R a ∧ StronglySorted R b ∧ ∀ x y, x ∈ a → y ∈ b → R x y.
Proof.
  induction a as [| c a IH]; simpl.
  - intros Hb. repeat split; [constructor | done |]. by intros x y ?%elem_of_nil.
  - intros [Hab Hc]%StronglySorted_inv. destruct (IH Hab) as (Ha & Hb & Hcross).
    apply Forall_app in Hc as [Hca Hcb]. repeat split; [by constructor | done |].
    intros x y [-> | Hx]%elem_of_cons Hy; [| by apply Hcross].
    rewrite Forall_forall in Hcb. by apply Hcb.
Qed.

Lemma ranked_sorted limit l : StronglySorted not_below (ranked limit l).
Proof.
  destruct (slice0_prefix limit (JsArray.sort_desc ltb key l)) as [n ->].
  pose proof (sort_desc_sorted ltb key ltb_asym geb_trans l) as Hs.
  rewrite <- (take_drop n (JsArray.sort_desc ltb key l)) in Hs.
  by apply StronglySorted_split in Hs as [Hs _].
Qed.

(** What the limit leaves out does not rank above what it keeps. *)
Lemma ranked_top limit l :
  ∃ rest, ranked limit l ++ rest ≡ₚ l
          ∧ ∀ x y, x ∈ ranked limit l → y ∈ rest → not_below x y.
Proof.
  destruct (slice0_prefix limit (JsArray.sort_desc ltb key l)) as [n ->].
  exists (drop n (JsArray.sort_desc ltb key l)). split.
  - rewrite take_drop. apply sort_desc_perm.
  - pose proof (sort_desc_sorted ltb key ltb_asym geb_trans l) as Hs.
    rewrite <- (take_drop n (JsArray.sort_desc ltb key l)) in Hs.
    by apply StronglySorted_split in Hs as (_ & _ & Hcross).
Qed.

Lemma ranked_NoDup {B} (f : A → B) limit l :
  NoDup (map f l) → NoDup (map f (ranked limit l)).
Proof.
  intros Hnd. destruct (slice0_prefix limit (JsArray.sort_desc ltb key l)) as [n ->].
  assert (Hall : NoDup (map f (JsArray.sort_desc ltb key l))).
  { assert (Hp : map f (JsArray.sort_desc ltb key l) ≡ₚ map f l)
      by apply Permutation_map, sort_desc_perm.
    by rewrite Hp. }
  rewrite <- (take_drop n (JsArray.sort_desc ltb key l)), map_app in Hall.
  by apply NoDup_app in Hall as [Hall _].
Qed.

End RankFacts.

Section MatchFacts.
Context `{RegexEngine}.

Lemma candidates_sublist pb q :
  sublist (map Matching.pattern (Matching.candidates pb q)) (Playbook.patterns pb).
Proof.
  unfold Matching.candidates. induction (Playbook.patterns pb) as [| p ps IH]; simpl; [done |].
  rewrite map_app. unfold Matching.match_one at 1.
  destruct (Matching.regex_hit p q); [| destruct (Qlt_le_dec _ _)]; simpl;
    first [by apply sublist_skip | by apply sublist_cons].
Qed.

Lemma match_one_above kw q p r : r ∈ Matching.match_one kw q p → (20 < Matching.score r)%Q.
Proof.
  unfold Matching.match_one.
  destruct (Matching.regex_hit p q); [| destruct (Qlt_le_dec _ _)];
    rewrite ?list_elem_of_singleton, ?elem_of_nil; intros Hr; subst; simpl; done.
Qed.

(** A positive score needs a shared keyword. *)
Lemma calculateScore_positive k1 k2 :
  (0 < Matching.calculateScore k1 k2)%Q → ∃ k, k ∈ k1 ∧ k ∈ k2.
Proof.
  intros Hpos.
  destruct (decide (k1 = [])) as [-> | H1]; [by cbn in Hpos |].
  destruct (decide (k2 = [])) as [-> | H2].
  { unfold Matching.calculateScore in Hpos. by destruct k1. }
  rewrite calculateScore_nonempty in Hpos by done. unfold Spec.jaccard in Hpos.
  destruct (size ((list_to_set k1 : gset string) ∩ list_to_set k2)) as [| n] eqn:Hsize.
  { exfalso. revert Hpos. apply Qle_not_lt. unfold Qdiv.
    change (inject_Z (Z.of_nat 0)) with 0%Q. by rewrite !Qmult_0_l. }
  assert (Hne : (list_to_set k1 : gset string) ∩ list_to_set k2 ≠ ∅).
  { intros Hempty. rewrite Hempty, size_empty in Hsize. done. }
  apply set_choose_L in Hne as [k Hk]. exists k.
  apply elem_of_intersection in Hk as [Hk1 Hk2].
  by rewrite !elem_of_list_to_set in Hk1, Hk2.
Qed.

Lemma match_one_keywords kw q p r :
  r ∈ Matching.match_one kw q p → Matching.regex_hit p q = false →
  Matching.score r = Matching.calculateScore kw (Matching.patternKeywords p)
  ∧ Matching.matchedKeywords r = filter (fun k => k ∈ Matching.patternKeywords p) kw.
Proof.
  unfold Matching.match_one. intros Hr Hhit. rewrite Hhit in Hr.
  destruct (Qlt_le_dec _ _); [| by apply elem_of_nil in Hr].
  apply list_elem_of_singleton in Hr. by subst r.
Qed.

Lemma findMatchingPatterns_sorted pb q limit :
  StronglySorted (fun r r' => (Matching.score r' <= Matching.score r)%Q)
    (Matching.findMatchingPatterns pb q limit).
Proof.
  unfold Matching.findMatchingPatterns.
  eapply StronglySorted_weaken;
    [| apply (ranked_sorted JsArray.Qltb Matching.score Qltb_asym Qgeb_trans)].
  intros r r' Hle. by apply Qltb_false.
Qed.

Lemma findMatchingPatterns_length pb q limit :
  (0 <= limit)%Z → (length (Matching.findMatchingPatterns pb q limit) ≤ Z.to_nat limit)%nat.
Proof.
  intros Hlimit. unfold Matching.findMatchingPatterns. rewrite slice0_length.
  destruct (limit <? 0)%Z eqn:Hneg; [apply Z.ltb_lt in Hneg; lia | lia].
Qed.

Lemma findMatchingPatterns_scores pb q limit r :
  r ∈ Matching.findMatchingPatterns pb q limit →
  (20 < Matching.score r <= 100)%Q ∧ Matching.pattern r ∈ Playbook.patterns pb.
Proof.
  intros Hr%findMatchingPatterns_elem.
  pose proof (candidates_pattern _ _ _ Hr) as Hp.
  apply candidates_elem in Hr as (p & _ & Hr).
  split; [split |]; [by eapply match_one_above | by eapply match_one_score | done].
Qed.

End MatchFacts.

(** [findMatchingPatterns] returns the best-scored candidates, best
    first: the results come in descending order of score, each scores more
    than 20 and at most 100 and carries a record of the playbook, there are
    no more of them than the limit (when it is not negative) nor than the
    playbook has records, no candidate that was cut scores more than one
    that was kept, and records of the playbook that differ give results
    that differ. *)
Theorem findMatchingPatterns_ranked `{RegexEngine} (pb : Playbook.Playbook)
    (q : string) (limit : Z) :
  let results := Matching.findMatchingPatterns pb q limit in
  StronglySorted (fun r r' => (Matching.score r' <= Matching.score r)%Q) results
  ∧ (∀ r, r ∈ results →
          (20 < Matching.score r <= 100)%Q ∧ Matching.pattern r ∈ Playbook.patterns pb)
  ∧ ((0 <= limit)%Z → (length results ≤ Z.to_nat limit)%nat)
  ∧ (length results ≤ length (Playbook.patterns pb))%nat
  ∧ (∃ cut, results ++ cut ≡ₚ Matching.candidates pb q
            ∧ ∀ r c, r ∈ results → c ∈ cut → (Matching.score c <= Matching.score r)%Q)
  ∧ (NoDup (Playbook.patterns pb) → NoDup (map Matching.pattern results)).
Proof.
  intros results. subst results.
  split; [apply findMatchingPatterns_sorted |].
  split; [apply findMatchingPatterns_scores |].
  split; [apply findMatchingPatterns_length |].
  unfold Matching.findMatchingPatterns. split; [| split].
  - etransitivity; [apply ranked_length | apply candidates_length].
  - destruct (ranked_top JsArray.Qltb Matching.score Qltb_asym Qgeb_trans limit
                (Matching.candidates pb q)) as (cut & Hperm & Htop).
    exists cut. split; [done |]. intros r c Hr Hc. by apply Qltb_false, Htop.
  - intros Hnd. apply ranked_NoDup.
    exact (sublist_NoDup _ _ Hnd (candidates_sublist pb q)).
Qed.

(** A result of [findMatchingPatterns] that no regular expression gave
    names at least one keyword, and the keywords it names are those of the
    query that the pattern's title or symptoms have too; a query without a
    keyword is answered by regular expressions alone. *)
Theorem findMatchingPatterns_keywords `{RegexEngine} (pb : Playbook.Playbook)
    (q : string) (limit : Z) (r : Matching.MatchResult) :
  r ∈ Matching.findMatchingPatterns pb q limit →
  (Matching.regex_hit (Matching.pattern r) q = false →
   Matching.matchedKeywords r ≠ []
   ∧ (∀ k, k ∈ Matching.matchedKeywords r
           ↔ k ∈ Matching.extractKeywords q
             ∧ k ∈ Matching.patternKeywords (Matching.pattern r)))
  ∧ (Matching.extractKeywords q = [] →
     Matching.regex_hit (Matching.pattern r) q = true ∧ Matching.score r = 100%Q).
Proof.
  intros Hr. apply findMatchingPatterns_elem, candidates_elem in Hr as (p & _ & Hr).
  pose proof (match_one_pattern _ _ _ _ Hr) as ->.
  pose proof (match_one_above _ _ _ _ Hr) as Habove.
  assert (Hkw : Matching.regex_hit p q = false →
                Matching.matchedKeywords r ≠ []
                ∧ (∀ k, k ∈ Matching.matchedKeywords r
                        ↔ k ∈ Matching.extractKeywords q ∧ k ∈ Matching.patternKeywords p)).
  { intros Hhit. destruct (match_one_keywords _ _ _ _ Hr Hhit) as [Hscore Hmatched].
    rewrite Hmatched. split.
    - rewrite Hscore in Habove.
      destruct (calculateScore_positive (Matching.extractKeywords q)
                  (Matching.patternKeywords p)) as (k & Hk1 & Hk2).
      { eapply Qlt_trans; [| exact Habove]. done. }
      intros Hnil. assert (Hk : k ∈ filter (fun k => k ∈ Matching.patternKeywords p)
                                      (Matching.extractKeywords q))
        by (by apply list_elem_of_filter).
      rewrite Hnil in Hk. by apply elem_of_nil in Hk.
    - intros k. rewrite list_elem_of_filter. tauto. }
  split; [done |]. intros Hnone.
  destruct (Matching.regex_hit p q) eqn:Hhit.
  - split; [done |]. rewrite match_one_hit in Hr by done.
    apply list_elem_of_singleton in Hr. by subst r.
  - destruct (Hkw eq_refl) as [Hne Hiff]. exfalso.
    destruct (Matching.matchedKeywords r) as [| k ks]; [done |].
    destruct (proj1 (Hiff k)) as [Hk _]; [left |].
    rewrite Hnone in Hk. by apply elem_of_nil in Hk.
Qed.

Lemma findMatchingPatterns_keywords_witness :
  let q := "connection refused by host" in
  let r := {| Matching.pattern := Examples.refused; Matching.score := 200 # 6;
              Matching.matchedKeywords := ["connection"; "refused"] |} in
  (Matching.regex_hit (H := LiteralEngine.engine) Examples.refused q = false →
   Matching.matchedKeywords r ≠ []
   ∧ (∀ k, k ∈ Matching.matchedKeywords r
           ↔ k ∈ Matching.extractKeywords q ∧ k ∈ Matching.patternKeywords Examples.refused))
  ∧ (Matching.extractKeywords q = [] →
     Matching.regex_hit (H := LiteralEngine.engine) Examples.refused q = true
     ∧ Matching.score r = 100%Q).
Proof.
  intros q r.
  refine (findMatchingPatterns_keywords (H := LiteralEngine.engine)
            {| Playbook.patterns := [Examples.refused] |} q 5 r _).
  vm_compute. left.
Defined.

Section ScoreSets.

Lemma ratio_full (a b : nat) :
  (0 < b)%nat → (Matching.ratio a b * 100 == 100 ↔ a = b).
Proof.
  intros Hb. unfold Matching.ratio, Qeq, Qdiv, Qmult, Qinv. simpl.
  destruct b as [| b]; [lia |]. simpl. lia.
Qed.

Lemma ratio_none (a b : nat) :
  (0 < b)%nat → (Matching.ratio a b * 100 == 0 ↔ a = 0%nat).
Proof.
  intros Hb. unfold Matching.ratio, Qeq, Qdiv, Qmult, Qinv. simpl.
  destruct b as [| b]; [lia |]. simpl. lia.
Qed.

Lemma jaccard_comm (X Y : gset string) : Spec.jaccard X Y = Spec.jaccard Y X.
Proof. unfold Spec.jaccard. by rewrite (comm_L (∩) X Y), (comm_L (∪) X Y). Qed.

Lemma calculateScore_nil_r k1 : Matching.calculateScore k1 [] = 0%Q.
Proof. unfold Matching.calculateScore. by destruct k1. Qed.

Lemma calculateScore_comm k1 k2 :
  Matching.calculateScore k1 k2 = Matching.calculateScore k2 k1.
Proof.
  destruct (decide (k1 = [])) as [-> | H1]; [by rewrite calculateScore_nil_r |].
  destruct (decide (k2 = [])) as [-> | H2]; [by rewrite calculateScore_nil_r |].
  by rewrite !calculateScore_nonempty, jaccard_comm.
Qed.

Lemma same_elements_nil (k k' : list string) : (∀ x, x ∈ k' ↔ x ∈ k) → k = [] → k' = [].
Proof.
  intros Hsame ->. destruct k' as [| x k']; [done |].
  exfalso. apply (elem_of_nil x), Hsame. left.
Qed.

Lemma calculateScore_same k1 k2 k1' k2' :
  (∀ k, k ∈ k1' ↔ k ∈ k1) → (∀ k, k ∈ k2' ↔ k ∈ k2) →
  Matching.calculateScore k1' k2' = Matching.calculateScore k1 k2.
Proof.
  intros Hs1 Hs2.
  destruct (decide (k1 = [])) as [H1 | H1].
  { by rewrite H1, (same_elements_nil _ _ Hs1 H1). }
  destruct (decide (k2 = [])) as [H2 | H2].
  { by rewrite H2, (same_elements_nil _ _ Hs2 H2), !calculateScore_nil_r. }
  assert (H1' : k1' ≠ []).
  { intros Hnil. apply H1. apply (same_elements_nil k1' k1); [| done].
    intros x. by rewrite Hs1. }
  assert (H2' : k2' ≠ []).
  { intros Hnil. apply H2. apply (same_elements_nil k2' k2); [| done].
    intros x. by rewrite Hs2. }
  rewrite !calculateScore_nonempty by done.
  assert (list_to_set k1' = (list_to_set k1 : gset string)) as ->
    by (apply set_eq; intros x; by rewrite !elem_of_list_to_set).
  assert (list_to_set k2' = (list_to_set k2 : gset string)) as ->
    by (apply set_eq; intros x; by rewrite !elem_of_list_to_set).
  done.
Qed.

Lemma union_positive (k1 k2 : list string) :
  k1 ≠ [] → (0 < size ((list_to_set k1 : gset string) ∪ list_to_set k2))%nat.
Proof.
  intros H1. destruct k1 as [| a k1]; [done |].
  assert (Ha : a ∈ (list_to_set (a :: k1) : gset string) ∪ list_to_set k2).
  { apply elem_of_union. left. apply elem_of_list_to_set. left. }
  destruct (size _) eqn:Hs; [| lia].
  apply size_empty_inv in Hs. rewrite Hs in Ha. by apply elem_of_empty in Ha.
Qed.

Lemma calculateScore_full k1 k2 :
  k1 ≠ [] → k2 ≠ [] →
  (Matching.calculateScore k1 k2 == 100 ↔ ∀ k, k ∈ k1 ↔ k ∈ k2).
Proof.
  intros H1 H2. rewrite calculateScore_nonempty by done. unfold Spec.jaccard.
  fold (Matching.ratio (size ((list_to_set k1 : gset string) ∩ list_to_set k2))
          (size ((list_to_set k1 : gset string) ∪ list_to_set k2))).
  rewrite ratio_full by (by apply union_positive). split.
  - intros Hsize.
    assert (Heq : (list_to_set k1 : gset string) ∩ list_to_set k2
                  = list_to_set k1 ∪ list_to_set k2).
    { apply set_subseteq_size_eq; [| lia].
      intros x [Hx _]%elem_of_intersection. apply elem_of_union. by left. }
    intros k. rewrite <- !(elem_of_list_to_set (C := gset string)).
    split; intros Hk.
    + assert (Hu : k ∈ (list_to_set k1 : gset string) ∪ list_to_set k2)
        by (apply elem_of_union; by left).
      rewrite <- Heq in Hu. by apply elem_of_intersection in Hu as [_ Hu].
    + assert (Hu : k ∈ (list_to_set k1 : gset string) ∪ list_to_set k2)
        by (apply elem_of_union; by right).
      rewrite <- Heq in Hu. by apply elem_of_intersection in Hu as [Hu _].
  - intros Hsame.
    assert (list_to_set k1 = (list_to_set k2 : gset string)) as ->
      by (apply set_eq; intros x; by rewrite !elem_of_list_to_set).
    by rewrite intersection_idemp_L, union_idemp_L.
Qed.

Lemma calculateScore_none k1 k2 :
  k1 ≠ [] → k2 ≠ [] →
  (Matching.calculateScore k1 k2 == 0 ↔ ∀ k, k ∈ k1 → k ∉ k2).
Proof.
  intros H1 H2. rewrite calculateScore_nonempty by done. unfold Spec.jaccard.
  fold (Matching.ratio (size ((list_to_set k1 : gset string) ∩ list_to_set k2))
          (size ((list_to_set k1 : gset string) ∪ list_to_set k2))).
  rewrite ratio_none by (by apply union_positive).
  rewrite size_empty_iff, elem_of_equiv_empty. split.
  - intros Hempty k Hk1 Hk2. apply (Hempty k).
    apply elem_of_intersection. by rewrite !elem_of_list_to_set.
  - intros Hdisjoint k [Hk1 Hk2]%elem_of_intersection.
    rewrite elem_of_list_to_set in Hk1, Hk2. by apply (Hdisjoint k).
Qed.

End ScoreSets.

(** [calculateScore] reads its arguments as sets and does not tell them
    apart: the score of two lists is the score of the lists exchanged, and
    of any two lists with the same elements; for lists that are not empty
    it is 100 exactly when they have the same elements and 0 exactly when
    they share none. *)
Theorem calculateScore_sets (k1 k2 : list string) :
  Matching.calculateScore k1 k2 = Matching.calculateScore k2 k1
  ∧ (∀ k1' k2', (∀ k, k ∈ k1' ↔ k ∈ k1) → (∀ k, k ∈ k2' ↔ k ∈ k2) →
                Matching.calculateScore k1' k2' = Matching.calculateScore k1 k2)
  ∧ (k1 ≠ [] → k2 ≠ [] →
     (Matching.calculateScore k1 k2 == 100 ↔ ∀ k, k ∈ k1 ↔ k ∈ k2)
     ∧ (Matching.calculateScore k1 k2 == 0 ↔ ∀ k, k ∈ k1 → k ∉ k2)).
Proof.
  split; [apply calculateScore_comm |]. split.
  - intros k1' k2'. apply calculateScore_same.
  - intros H1 H2. split; [by apply calculateScore_full | by apply calculateScore_none].
Qed.

(** ** Pattern ids *)

Section IdFacts.

#[local] Abbreviation digit := (fun n : nat => ascii_of_nat (48 + n)).
#[local] Abbreviation three_digits r :=
  (String (digit (r / 100)) (String (digit (r / 10 mod 10)) (String (digit (r mod 10)) ""))).

Lemma generatePatternId_table :
  forallb (fun r => String.eqb (Playbook.generatePatternId r) ("slsm-" ++ three_digits r))
          (seq 0 1000) = true.
Proof. vm_compute. reflexivity. Qed.

Lemma generatePatternId_digits r :
  (r < 1000)%nat → Playbook.generatePatternId r = "slsm-" ++ three_digits r.
Proof.
  intros Hr. pose proof generatePatternId_table as Htable.
  rewrite forallb_forall in Htable. apply String.eqb_eq, Htable, in_seq. lia.
Qed.

Lemma digit_inj a b : (a < 10)%nat → (b < 10)%nat → digit a = digit b → a = b.
Proof.
  intros Ha Hb Heq. apply (f_equal nat_of_ascii) in Heq.
  rewrite !nat_ascii_embedding in Heq by lia. lia.
Qed.

End IdFacts.

(** [generatePatternId] on a draw below 1000, which is what
    [Math.floor(Math.random() * 1000)] gives: the id is [slsm-] followed by
    the three decimal digits of the draw, zeros in front included, so it
    has eight characters, and two draws give the same id only when they are
    the same draw. *)
Theorem generatePatternId_format (r r' : nat) :
  (r < 1000)%nat → (r' < 1000)%nat →
  Playbook.generatePatternId r
  = "slsm-" ++ String (ascii_of_nat (48 + r / 100))
                 (String (ascii_of_nat (48 + r / 10 mod 10))
                    (String (ascii_of_nat (48 + r mod 10)) ""))
  ∧ String.length (Playbook.generatePatternId r) = 8%nat
  ∧ (Playbook.generatePatternId r = Playbook.generatePatternId r' → r = r').
Proof.
  intros Hr Hr'. rewrite (generatePatternId_digits r Hr), (generatePatternId_digits r' Hr').
  split; [done |]. split; [done |].
  intros Heq. apply (f_equal list_ascii_of_string) in Heq.
  rewrite !list_ascii_app in Heq. apply app_inv_head in Heq.
  injection Heq as H2 H1 H0.
  change (ascii_of_nat (48 + r / 100) = ascii_of_nat (48 + r' / 100)) in H2.
  change (ascii_of_nat (48 + r / 10 mod 10) = ascii_of_nat (48 + r' / 10 mod 10)) in H1.
  change (ascii_of_nat (48 + r mod 10) = ascii_of_nat (48 + r' mod 10)) in H0.
  assert (Hd : ∀ n, (n < 1000)%nat →
               (n / 100 < 10 ∧ n / 10 mod 10 < 10 ∧ n mod 10 < 10)%nat).
  { intros n Hn. repeat split; try (apply Nat.mod_upper_bound; lia).
    apply Nat.Div0.div_lt_upper_bound. lia. }
  destruct (Hd r Hr) as (? & ? & ?), (Hd r' Hr') as (? & ? & ?).
  apply digit_inj in H2, H1, H0; try lia.
  assert (Hsplit : ∀ n, n = (100 * (n / 100) + 10 * (n / 10 mod 10) + n mod 10)%nat).
  { intros n. pose proof (Nat.div_mod_eq n 10) as E1.
    pose proof (Nat.div_mod_eq (n / 10) 10) as E2.
    rewrite Nat.Div0.div_div in E2. change (10 * 10)%nat with 100%nat in E2. lia. }
  etransitivity; [apply (Hsplit r) |]. rewrite H2, H1, H0. symmetry. apply Hsplit.
Qed.

Lemma generatePatternId_format_witness :
  Playbook.generatePatternId 7 = "slsm-007"
  ∧ String.length (Playbook.generatePatternId 7) = 8%nat
  ∧ (Playbook.generatePatternId 7 = Playbook.generatePatternId 42 → 7 = 42)%nat.
Proof. apply (generatePatternId_format 7 42); lia. Defined.

(** ** Validation of typed records *)

Section TypedValidation.
Context `{RegexEngine}.

(** What [validatePattern] asks of a record that has the fields of
    [Pattern] with their types. *)
#[local] Abbreviation well_formed p :=
  (Playbook.id p ≠ "" ∧ Playbook.fingerprint p ≠ "" ∧ Playbook.pattern p ≠ ""
   ∧ Playbook.category p ≠ "" ∧ Playbook.title p ≠ ""
   ∧ is_Some (RegExp (Playbook.pattern p) "")).

Lemma check_required_string_typed prefix (v : JSValue) field s :
  Js.get v field = JSString s →
  (Playbook.check_required_string prefix v field = [] ↔ s ≠ "").
Proof.
  intros Hget. unfold Playbook.check_required_string. rewrite Hget.
  destruct (String.eqb s "") eqn:Hs.
  - apply String.eqb_eq in Hs. split; [discriminate | intros Hne; by destruct Hne].
  - apply String.eqb_neq in Hs. split; [done | done].
Qed.

Lemma check_severity_typed prefix p :
  Playbook.check_severity prefix (Playbook.pattern_value p) = [].
Proof.
  unfold Playbook.check_severity.
  change (Js.get (Playbook.pattern_value p) "severity")
    with (JSString (Playbook.severity_name (Playbook.severity p))).
  by destruct (Playbook.severity p).
Qed.

Lemma check_regex_typed prefix p :
  Playbook.check_regex prefix (Playbook.pattern_value p) = []
  ↔ is_Some (RegExp (Playbook.pattern p) "").
Proof.
  unfold Playbook.check_regex.
  change (Js.get (Playbook.pattern_value p) "pattern") with (JSString (Playbook.pattern p)).
  cbv beta iota.
  destruct (RegExp (Playbook.pattern p) "") as [regex |].
  - split; [by eexists | reflexivity].
  - split; [discriminate | by intros [? ?]].
Qed.

Lemma validatePattern_typed p i :
  Playbook.validatePattern (Playbook.pattern_value p) i = [] ↔ well_formed p.
Proof.
  unfold Playbook.validatePattern.
  cbn -[String.eqb RegExp append pretty Playbook.check_required_string
        Playbook.check_severity Playbook.check_regex Playbook.pattern_value].
  change (Js.is_object (Playbook.pattern_value p)) with true. cbn [negb].
  rewrite check_severity_typed.
  rewrite !app_nil_r, !app_nil.
  rewrite (check_required_string_typed _ (Playbook.pattern_value p) "id"
             (Playbook.id p) eq_refl),
    (check_required_string_typed _ (Playbook.pattern_value p) "fingerprint"
       (Playbook.fingerprint p) eq_refl),
    (check_required_string_typed _ (Playbook.pattern_value p) "pattern"
       (Playbook.pattern p) eq_refl),
    (check_required_string_typed _ (Playbook.pattern_value p) "category"
       (Playbook.category p) eq_refl),
    (check_required_string_typed _ (Playbook.pattern_value p) "title"
       (Playbook.title p) eq_refl).
  rewrite check_regex_typed.
  change (Playbook.check_array ?a (Playbook.pattern_value p) "symptoms") with (@nil Playbook.ValidationError).
  tauto.
Qed.

Lemma validate_from_typed ids i ps :
  Playbook.validate_from ids i (map Playbook.pattern_value ps) = []
  ↔ (∀ p, p ∈ ps → well_formed p)
    ∧ NoDup (map Playbook.id ps)
    ∧ (∀ p, p ∈ ps → Playbook.id p ∉ ids).
Proof.
  revert ids i. induction ps as [| p ps IH]; intros ids i.
  - simpl. split; [| done]. intros _.
    split; [by intros p ?%elem_of_nil |]. split; [constructor | by intros p ?%elem_of_nil].
  - cbn [map Playbook.validate_from].
    change (Js.get (Playbook.pattern_value p) "id") with (JSString (Playbook.id p)).
    cbv beta iota. rewrite !app_nil, validatePattern_typed.
    case_bool_decide as Hseen.
    + split; [by intros [? _] |]. intros (_ & _ & Hfresh).
      destruct (Hfresh p); [left | done].
    + rewrite IH. split.
      * intros (_ & Hp & Hall & Hnd & Hfresh).
        split; [| split].
        -- intros p' [-> | Hp']%elem_of_cons; auto.
        -- cbn. constructor; [| done]. intros (p' & Hid & Hp')%list_elem_of_fmap.
           apply (Hfresh p' Hp'). apply elem_of_app. right. rewrite Hid. left.
        -- intros p' [-> | Hp']%elem_of_cons; [done |].
           intros Hin. apply (Hfresh p' Hp'). apply elem_of_app. by left.
      * intros (Hall & Hnd & Hfresh). cbn in Hnd. apply NoDup_cons in Hnd as [Hp Hnd].
        split; [done |]. split; [apply Hall; left |].
        split; [intros p' Hp'; apply Hall; by right |]. split; [done |].
        intros p' Hp' [Hin | Hin%list_elem_of_singleton]%elem_of_app.
        -- apply (Hfresh p'); [by right | done].
        -- apply Hp. rewrite <- Hin. apply list_elem_of_fmap. by exists p'.
Qed.

End TypedValidation.

(** [validatePlaybook] on a playbook whose records have the fields of
    [Pattern] with their types: it reports nothing exactly when no two
    records share an id and every record has a non-empty id, fingerprint,
    pattern, category and title and a pattern that compiles as a regular
    expression. *)
Theorem validatePlaybook_accepts `{RegexEngine} (pb : Playbook.Playbook) :
  Playbook.validatePlaybook (Playbook.playbook_value pb) = []
  ↔ NoDup (map Playbook.id (Playbook.patterns pb))
    ∧ ∀ p, p ∈ Playbook.patterns pb →
           Playbook.id p ≠ "" ∧ Playbook.fingerprint p ≠ "" ∧ Playbook.pattern p ≠ ""
           ∧ Playbook.category p ≠ "" ∧ Playbook.title p ≠ ""
           ∧ is_Some (RegExp (Playbook.pattern p) "").
Proof.
  unfold Playbook.validatePlaybook.
  change (Js.is_object (Playbook.playbook_value pb)) with true.
  change (Js.get (Playbook.playbook_value pb) "patterns")
    with (JSArray (map Playbook.pattern_value (Playbook.patterns pb))).
  cbv beta iota. cbn [negb]. rewrite validate_from_typed. split.
  - intros (Hall & Hnd & _). done.
  - intros [Hnd Hall]. split; [done |]. split; [done |]. by intros p _ ?%elem_of_nil.
Qed.

(** Whether a record is valid hangs on its five string fields alone:
    [addFix] and [recordFeedback] leave what [validatePattern] reports as
    it was, and a record that [createPattern] makes from no overrides is
    reported, its fingerprint, pattern and title being empty. *)
Theorem validatePattern_after_update `{RegexEngine} (p : Playbook.Pattern) (i : nat) :
  (∀ step command,
     Playbook.validatePattern (Playbook.pattern_value (Playbook.addFix p step command)) i
     = Playbook.validatePattern (Playbook.pattern_value p) i)
  ∧ (∀ type,
       Playbook.validatePattern (Playbook.pattern_value (Playbook.recordFeedback p type)) i
       = Playbook.validatePattern (Playbook.pattern_value p) i)
  ∧ (∀ r, let prefix := "patterns[" ++ pretty i ++ "]" in
          let required field :=
            Playbook.mkError (prefix ++ "." ++ field)
              (field ++ " is required and must be a non-empty string") in
          ∀ e, e ∈ [required "fingerprint"; required "pattern"; required "title"] →
               e ∈ Playbook.validatePattern
                     (Playbook.pattern_value (Playbook.createPattern r Playbook.no_overrides)) i).
Proof.
  split; [| split].
  - intros step command. reflexivity.
  - intros type. reflexivity.
  - intros r prefix required e He.
    apply validatePattern_checks; [done |]. left.
    apply elem_of_cons in He as [-> | He]; [exists "fingerprint"; split; [| left] |].
    { apply list_elem_of_In. simpl. tauto. }
    apply elem_of_cons in He as [-> | He]; [exists "pattern"; split; [| left] |].
    { apply list_elem_of_In. simpl. tauto. }
    apply list_elem_of_singleton in He as ->. exists "title". split; [| left].
    apply list_elem_of_In. simpl. tauto.
Qed.

(** ** Feedback, command after command *)

Section MarkFacts.

Lemma recordFeedback_id p ty : Playbook.id (Playbook.recordFeedback p ty) = Playbook.id p.
Proof. done. Qed.

Lemma mark_first_ids i ty ps :
  map Playbook.id (Mark.mark_first i ty ps) = map Playbook.id ps.
Proof.
  induction ps as [| p ps IH]; simpl; [done |].
  case_bool_decide; simpl; [done | by rewrite IH].
Qed.

Lemma findPatternById_ids ps i :
  Playbook.findPatternById {| Playbook.patterns := ps |} i = None
  ↔ i ∉ map Playbook.id ps.
Proof.
  rewrite findPatternById_None. simpl. split.
  - intros Hall (p & -> & Hp)%list_elem_of_fmap. by apply (Hall p).
  - intros Hnotin p Hp Hid. apply Hnotin. apply list_elem_of_fmap. by exists p.
Qed.

Lemma mark_first_absent i ty ps : i ∉ map Playbook.id ps → Mark.mark_first i ty ps = ps.
Proof.
  induction ps as [| p ps IH]; simpl; [done |]. intros Hnotin.
  case_bool_decide as Hp.
  - exfalso. apply Hnotin. rewrite <- Hp. left.
  - rewrite IH; [done |]. intros Hin. apply Hnotin. by right.
Qed.

Lemma recordFeedback_comm p t1 t2 :
  Playbook.recordFeedback (Playbook.recordFeedback p t1) t2
  = Playbook.recordFeedback (Playbook.recordFeedback p t2) t1.
Proof.
  unfold Playbook.recordFeedback. simpl. f_equal.
  destruct t1, t2; simpl; f_equal; lia.
Qed.

Lemma mark_first_comm i1 t1 i2 t2 ps :
  Mark.mark_first i2 t2 (Mark.mark_first i1 t1 ps)
  = Mark.mark_first i1 t1 (Mark.mark_first i2 t2 ps).
Proof.
  induction ps as [| p ps IH]; simpl; [done |].
  destruct (decide (Playbook.id p = i1)) as [H1 | H1],
           (decide (Playbook.id p = i2)) as [H2 | H2];
    rewrite ?(bool_decide_eq_true_2 _ H1), ?(bool_decide_eq_false_2 _ H1),
      ?(bool_decide_eq_true_2 _ H2), ?(bool_decide_eq_false_2 _ H2); simpl;
    rewrite ?(bool_decide_eq_true_2 _ H1), ?(bool_decide_eq_false_2 _ H1),
      ?(bool_decide_eq_true_2 _ H2), ?(bool_decide_eq_false_2 _ H2).
  - by rewrite recordFeedback_comm.
  - done.
  - done.
  - by rewrite IH.
Qed.

(** The file that a run of [markCommand] leaves. *)
Lemma markCommand_store i feedback st :
  (Mark.markCommand i feedback st).1
  = match Mark.parse_feedback feedback with
    | Some ty =>
        if bool_decide (i ∈ map Playbook.id (Playbook.patterns (Playbook.loadPlaybook st)))
        then Some {| Playbook.patterns :=
                       Mark.mark_first i ty (Playbook.patterns (Playbook.loadPlaybook st)) |}
        else st
    | None => st
    end.
Proof.
  unfold Mark.markCommand. destruct (Mark.parse_feedback feedback) as [ty |]; [| done].
  destruct (Playbook.loadPlaybook st) as [ps] eqn:Hload. simpl.
  destruct (Playbook.findPatternById _ i) as [p |] eqn:Hfind.
  - rewrite bool_decide_eq_true_2; [done |].
    destruct (decide (i ∈ map Playbook.id ps)) as [| Hnotin]; [done |].
    apply findPatternById_ids in Hnotin. congruence.
  - apply findPatternById_ids in Hfind. by rewrite bool_decide_eq_false_2.
Qed.

Lemma markCommand_patterns i feedback st :
  Playbook.patterns (Playbook.loadPlaybook (Mark.markCommand i feedback st).1)
  = match Mark.parse_feedback feedback with
    | Some ty => Mark.mark_first i ty (Playbook.patterns (Playbook.loadPlaybook st))
    | None => Playbook.patterns (Playbook.loadPlaybook st)
    end.
Proof.
  rewrite markCommand_store. destruct (Mark.parse_feedback feedback) as [ty |]; [| done].
  case_bool_decide as Hin; [done |]. by rewrite mark_first_absent.
Qed.

Lemma markCommand_ids i feedback st :
  map Playbook.id (Playbook.patterns (Playbook.loadPlaybook (Mark.markCommand i feedback st).1))
  = map Playbook.id (Playbook.patterns (Playbook.loadPlaybook st)).
Proof.
  rewrite markCommand_patterns. destruct (Mark.parse_feedback feedback); [| done].
  apply mark_first_ids.
Qed.

Lemma markCommand_comm i1 f1 i2 f2 st :
  (Mark.markCommand i2 f2 (Mark.markCommand i1 f1 st).1).1
  = (Mark.markCommand i1 f1 (Mark.markCommand i2 f2 st).1).1.
Proof.
  rewrite (markCommand_store i2 f2), (markCommand_store i1 f1 (Mark.markCommand i2 f2 st).1).
  rewrite !markCommand_ids, !markCommand_patterns.
  rewrite (markCommand_store i1 f1 st), (markCommand_store i2 f2 st).
  destruct (Mark.parse_feedback f1) as [t1 |], (Mark.parse_feedback f2) as [t2 |];
    repeat case_bool_decide;
    rewrite ?(mark_first_absent i1), ?(mark_first_absent i2) by done; try done.
  by rewrite mark_first_comm.
Qed.

(** A record behind another with the same id is out of reach. *)
Lemma mark_first_shadowed i ty ps j k q p :
  ps !! j = Some q → ps !! k = Some p → (j < k)%nat → Playbook.id q = Playbook.id p →
  Mark.mark_first i ty ps !! k = Some p.
Proof.
  intros Hj Hk Hjk Hid.
  destruct (find (fun p => bool_decide (Playbook.id p = i)) ps) as [p0 |] eqn:Hfind.
  - destruct (mark_first_found ps i ty p0 Hfind) as (k' & Hk' & Hid' & Hfirst & ->).
    destruct (decide (k = k')) as [<- | Hne]; [| by rewrite list_lookup_insert_ne].
    exfalso. assert (p0 = p) as -> by congruence.
    apply (Hfirst j q Hjk Hj). congruence.
  - rewrite mark_first_absent; [done |].
    by apply (findPatternById_ids ps i).
Qed.

Lemma mark_first_other i ty ps k p :
  ps !! k = Some p → Playbook.id p ≠ i → Mark.mark_first i ty ps !! k = Some p.
Proof.
  revert k. induction ps as [| q ps IH]; intros k Hk Hid; simpl; [done |].
  case_bool_decide as Hq.
  - destruct k as [| k]; simpl in *; [| done]. congruence.
  - destruct k as [| k]; simpl in *; [done | by apply IH].
Qed.

Lemma mark_first_first ty ps k p :
  ps !! k = Some p →
  (∀ j q, (j < k)%nat → ps !! j = Some q → Playbook.id q ≠ Playbook.id p) →
  Mark.mark_first (Playbook.id p) ty ps !! k = Some (Playbook.recordFeedback p ty).
Proof.
  revert k. induction ps as [| q ps IH]; intros k Hk Hfirst; simpl; [done |].
  case_bool_decide as Hq.
  - destruct k as [| k]; simpl in *; [congruence |].
    destruct (Hfirst 0%nat q); [lia | done | done].
  - destruct k as [| k]; simpl in *; [congruence |].
    apply IH; [done |]. intros j q' Hj Hq'. apply (Hfirst (S j) q'); [lia | done].
Qed.

End MarkFacts.

(** Two runs of [markCommand] leave the same playbook file in either
    order, whatever their arguments, failed runs included. *)
Theorem markCommand_commutes (i1 f1 i2 f2 : string) (store : Playbook.Store) :
  (Mark.markCommand i2 f2 (Mark.markCommand i1 f1 store).1).1
  = (Mark.markCommand i1 f1 (Mark.markCommand i2 f2 store).1).1.
Proof. apply markCommand_comm. Qed.

(** Over any sequence of runs of [markCommand], a record that is the first
    with its id ends with each counter raised by the number of runs that
    named its id with that feedback, and with its other fields as they
    were; a record that stands behind another with the same id is never
    changed. *)
Theorem markCommand_sequence (cmds : list (string * string)) (store : Playbook.Store)
    (k : nat) (p : Playbook.Pattern) :
  let run := foldl (fun st c => (Mark.markCommand c.1 c.2 st).1) in
  let votes ty := Z.of_nat (length (filter (fun c : string * string =>
                    c.1 = Playbook.id p ∧ Mark.parse_feedback c.2 = Some ty) cmds)) in
  Playbook.patterns (Playbook.loadPlaybook store) !! k = Some p →
  ((∀ j q, (j < k)%nat → Playbook.patterns (Playbook.loadPlaybook store) !! j = Some q →
           Playbook.id q ≠ Playbook.id p) →
   Playbook.patterns (Playbook.loadPlaybook (run store cmds)) !! k
   = Some {| Playbook.id := Playbook.id p;
             Playbook.fingerprint := Playbook.fingerprint p;
             Playbook.pattern := Playbook.pattern p;
             Playbook.severity := Playbook.severity p;
             Playbook.category := Playbook.category p;
             Playbook.title := Playbook.title p;
             Playbook.symptoms := Playbook.symptoms p;
             Playbook.root_causes := Playbook.root_causes p;
             Playbook.fixes := Playbook.fixes p;
             Playbook.feedback :=
               {| Playbook.helpful :=
                    Playbook.helpful (Playbook.feedback p) + votes Playbook.Helpful;
                  Playbook.harmful :=
                    Playbook.harmful (Playbook.feedback p) + votes Playbook.Harmful |} |})
  ∧ ((∃ j q, (j < k)%nat ∧ Playbook.patterns (Playbook.loadPlaybook store) !! j = Some q
             ∧ Playbook.id q = Playbook.id p) →
     Playbook.patterns (Playbook.loadPlaybook (run store cmds)) !! k = Some p).
Proof.
  intros run votes Hk. split.
  - subst run votes. revert store p Hk.
    induction cmds as [| [i f] cmds IH]; intros store p Hk Hfirst.
    + simpl. rewrite Hk. f_equal. destruct p as [? ? ? ? ? ? ? ? ? [? ?]]. simpl.
      f_equal. f_equal; lia.
    + cbn [foldl fst snd].
      set (store' := (Mark.markCommand i f store).1).
      assert (Hids : map Playbook.id (Playbook.patterns (Playbook.loadPlaybook store'))
                     = map Playbook.id (Playbook.patterns (Playbook.loadPlaybook store)))
        by apply markCommand_ids.
      assert (Hfirst' : ∀ p', Playbook.id p' = Playbook.id p →
                ∀ j q, (j < k)%nat →
                       Playbook.patterns (Playbook.loadPlaybook store') !! j = Some q →
                       Playbook.id q ≠ Playbook.id p').
      { intros p' Hp' j q Hj Hq Hid.
        assert (Hq' : map Playbook.id (Playbook.patterns (Playbook.loadPlaybook store')) !! j
                      = Some (Playbook.id q)) by (by rewrite list_lookup_fmap, Hq).
        rewrite Hids, list_lookup_fmap in Hq'.
        destruct (Playbook.patterns (Playbook.loadPlaybook store) !! j) as [q0 |] eqn:Hq0;
          [| done].
        injection Hq' as Hq'. apply (Hfirst j q0 Hj Hq0). congruence. }
      pose proof (markCommand_patterns i f store) as Hstep. fold store' in Hstep.
      rewrite !filter_cons. cbn [fst snd].
      destruct (Mark.parse_feedback f) as [ty |] eqn:Hty.
      * destruct (decide (i = Playbook.id p)) as [-> | Hne].
        -- assert (Hk' : Playbook.patterns (Playbook.loadPlaybook store') !! k
                         = Some (Playbook.recordFeedback p ty))
             by (rewrite Hstep; by apply mark_first_first).
           rewrite (IH store' _ Hk' (Hfirst' _ eq_refl)). f_equal.
           destruct ty; simpl.
           ++ rewrite decide_True by done. rewrite decide_False by (by intros [_ [=]]).
              simpl. f_equal. f_equal; lia.
           ++ rewrite decide_False by (by intros [_ [=]]). rewrite decide_True by done.
              simpl. f_equal. f_equal; lia.
        -- assert (Hk' : Playbook.patterns (Playbook.loadPlaybook store') !! k = Some p)
             by (rewrite Hstep; apply mark_first_other; [done | congruence]).
           rewrite (IH store' _ Hk' (Hfirst' _ eq_refl)).
           by rewrite !decide_False by (by intros [? _]).
      * assert (Hk' : Playbook.patterns (Playbook.loadPlaybook store') !! k = Some p)
          by (by rewrite Hstep).
        rewrite (IH store' _ Hk' (Hfirst' _ eq_refl)).
        by rewrite !decide_False by (by intros [_ [=]]).
  - subst run. clear votes. intros (j & q & Hjk & Hj & Hid).
    assert (Hshadow : ∃ j, (j < k)%nat
              ∧ map Playbook.id (Playbook.patterns (Playbook.loadPlaybook store)) !! j
                = Some (Playbook.id p)).
    { exists j. split; [done |]. by rewrite list_lookup_fmap, Hj, <- Hid. }
    clear j q Hjk Hj Hid. revert store Hk Hshadow.
    induction cmds as [| [i f] cmds IH]; intros store Hk Hshadow; [done |].
    cbn [foldl fst snd]. apply IH.
    + rewrite markCommand_patterns. destruct (Mark.parse_feedback f) as [ty |]; [| done].
      destruct Hshadow as (j & Hjk & Hj). rewrite list_lookup_fmap in Hj.
      destruct (Playbook.patterns (Playbook.loadPlaybook store) !! j) as [q |] eqn:Hq;
        [| done].
      injection Hj as Hid. by eapply mark_first_shadowed.
    + by rewrite markCommand_ids.
Qed.

Lemma markCommand_sequence_witness :
  let store := Some {| Playbook.patterns := [Examples.refused; Examples.refused] |} in
  let after := foldl (fun st c => (Mark.markCommand c.1 c.2 st).1) store
                 [("slsm-001", "helpful"); ("slsm-001", "Helpful"); ("slsm-001", "harmful")] in
  Playbook.feedback <$> Playbook.patterns (Playbook.loadPlaybook after) !! 0%nat
  = Some {| Playbook.helpful := 2; Playbook.harmful := 1 |}
  ∧ Playbook.patterns (Playbook.loadPlaybook after) !! 1%nat = Some Examples.refused.
Proof.
  intros store after. subst after.
  pose proof (markCommand_sequence
                [("slsm-001", "helpful"); ("slsm-001", "Helpful"); ("slsm-001", "harmful")]
                store 0 Examples.refused eq_refl) as [Hfirst _].
  pose proof (markCommand_sequence
                [("slsm-001", "helpful"); ("slsm-001", "Helpful"); ("slsm-001", "harmful")]
                store 1 Examples.refused eq_refl) as [_ Hbehind].
  split.
  - rewrite Hfirst; [reflexivity |]. intros j q Hj. lia.
  - apply Hbehind. exists 0%nat, Examples.refused. split; [lia |]. split; reflexivity.
Defined.

(** ** The extraction pipeline, run after run *)

Section PipelineFacts.
Context `{RegexEngine}.

Lemma classify_known random pb st row :
  Reflect.isKnown (Matching.findMatchingPatterns pb (Reflect.message row) 1) = true →
  ∃ best, best ∈ Matching.candidates pb (Reflect.message row)
    ∧ Reflect.classify random pb st row
      = {| Reflect.drawn := Reflect.drawn st;
           Reflect.suggestions :=
             (Reflect.suggestions st
              ++ [{| Reflect.error := row; Reflect.pattern := Matching.pattern best;
                     Reflect.isNew := false |}])%list;
           Reflect.newPatterns := Reflect.newPatterns st |}.
Proof.
  intros Hknown. unfold Reflect.classify.
  pose proof (findMatchingPatterns_best pb (Reflect.message row)) as Hbest.
  destruct (Matching.findMatchingPatterns pb (Reflect.message row) 1) as [| best rest];
    [done |].
  rewrite Hknown. exists best. by destruct Hbest as (_ & Hin & _).
Qed.

Lemma classify_new random pb st row :
  Reflect.isKnown (Matching.findMatchingPatterns pb (Reflect.message row) 1) = false →
  Reflect.classify random pb st row
  = let p := Reflect.suggest_new (random (Reflect.drawn st)) row in
    {| Reflect.drawn := S (Reflect.drawn st);
       Reflect.suggestions :=
         (Reflect.suggestions st
          ++ [{| Reflect.error := row; Reflect.pattern := p; Reflect.isNew := true |}])%list;
       Reflect.newPatterns := (Reflect.newPatterns st ++ [p])%list |}.
Proof.
  intros Hknown. unfold Reflect.classify.
  destruct (Matching.findMatchingPatterns pb (Reflect.message row) 1) as [| best rest];
    [done |].
  by rewrite Hknown.
Qed.

(** What the loop keeps true, row after row. *)
Lemma classify_all_inv random pb rows :
  let final := Reflect.classify_all random pb rows in
  Forall (fun s =>
            Reflect.isNew s
            = negb (Reflect.isKnown
                      (Matching.findMatchingPatterns pb (Reflect.message (Reflect.error s)) 1))
            ∧ (Reflect.isNew s = false → Reflect.pattern s ∈ Playbook.patterns pb)
            ∧ (Reflect.isNew s = true →
               ∃ n, (n < Reflect.drawn final)%nat
                    ∧ Reflect.pattern s = Reflect.suggest_new (random n) (Reflect.error s)))
         (Reflect.suggestions final)
  ∧ Reflect.newPatterns final
    = map Reflect.pattern (filter (fun s => Reflect.isNew s = true) (Reflect.suggestions final))
  ∧ Reflect.drawn final = length (Reflect.newPatterns final)
  ∧ map Playbook.id (Reflect.newPatterns final)
    = map (fun n => Playbook.generatePatternId (random n)) (seq 0 (Reflect.drawn final)).
Proof.
  induction rows as [| row rows IH] using rev_ind.
  - repeat split; constructor.
  - cbv zeta in IH |- *. rewrite classify_all_snoc.
    set (st := Reflect.classify_all random pb rows) in *.
    destruct IH as (Hall & Hnew & Hdrawn & Hids).
    destruct (Reflect.isKnown (Matching.findMatchingPatterns pb (Reflect.message row) 1))
      eqn:Hknown.
    + destruct (classify_known random pb st row Hknown) as (best & Hbest & ->). simpl.
      split; [| split; [| done]].
      * apply Forall_app. split; [done |]. constructor; [| constructor]. simpl.
        rewrite Hknown. split; [done |]. split; [| done].
        intros _. by eapply candidates_pattern.
      * rewrite filter_app, map_app, <- Hnew.
        rewrite filter_cons_False by done. by rewrite app_nil_r.
    + rewrite (classify_new random pb st row Hknown).
      cbn [Reflect.drawn Reflect.newPatterns Reflect.suggestions].
      split; [| split; [| split]].
      * apply Forall_app. split.
        -- eapply Forall_impl; [exact Hall |]. simpl. intros s (Hs & Hold & Hfresh).
           split; [done |]. split; [done |].
           intros Hs'. destruct (Hfresh Hs') as (n & Hn & Hp). exists n. split; [lia | done].
        -- constructor; [| constructor]. simpl. rewrite Hknown.
           split; [done |]. split; [done |]. intros _. exists (Reflect.drawn st).
           split; [lia | done].
      * rewrite filter_app, map_app, <- Hnew.
        by rewrite filter_cons_True by done.
      * rewrite length_app. simpl. lia.
      * rewrite map_app, Hids, seq_S, map_app. done.
Qed.

Lemma reflect_patterns random dryRun rows store :
  Playbook.patterns (Playbook.loadPlaybook (Reflect.reflect random dryRun rows store).1)
  = (Playbook.patterns (Playbook.loadPlaybook store)
     ++ (if dryRun then [] else Reflect.newPatterns (Reflect.reflect random dryRun rows store).2))%list.
Proof.
  unfold Reflect.reflect. destruct dryRun; simpl.
  - by rewrite app_nil_r.
  - destruct (Reflect.newPatterns _) as [| p ps] eqn:Hnew; simpl.
    + by rewrite Hnew, app_nil_r.
    + by rewrite Hnew.
Qed.

Lemma reflect_final random dryRun rows store :
  (Reflect.reflect random dryRun rows store).2
  = Reflect.classify_all random (Playbook.loadPlaybook store) rows.
Proof. unfold Reflect.reflect. by destruct (_ && _). Qed.

End PipelineFacts.

Section SuggestionFacts.

Lemma filter_split_length {A} (f : A → bool) (l : list A) :
  (length (filter (fun x => f x = true) l) + length (filter (fun x => f x = false) l)
   = length l)%nat.
Proof.
  induction l as [| x l IH]; [done |]. rewrite !filter_cons.
  repeat case_decide; simpl; first [lia | destruct (f x); congruence].
Qed.

Lemma string_length_app (a b : string) :
  String.length (a ++ b) = (String.length a + String.length b)%nat.
Proof. by rewrite !string_length_chars, list_ascii_app, length_app. Qed.

Lemma slice0_length_string n s :
  String.length (JsString.slice0 n s) = Nat.min n (String.length s).
Proof.
  unfold JsString.slice0. by rewrite chars_length_string, length_take, string_length_chars.
Qed.

Lemma slice0_short n s : (String.length s ≤ n)%nat → JsString.slice0 n s = s.
Proof.
  intros Hlen. unfold JsString.slice0.
  rewrite take_ge by (by rewrite <- string_length_chars).
  apply string_of_list_ascii_of_string.
Qed.

Lemma string_nonempty_length (s : string) : s ≠ "" ↔ (0 < String.length s)%nat.
Proof. destruct s; simpl; split; intros; first [done | lia]. Qed.

Lemma categorizError_range message :
  Reflect.categorizError message ∈ ["network"; "filesystem"; "database"; "memory"; "general"].
Proof.
  unfold Reflect.categorizError.
  repeat match goal with
         | |- context [if ?b then _ else _] => destruct b
         end; apply list_elem_of_In; simpl; tauto.
Qed.

Lemma suggest_new_title r row :
  Playbook.title (Reflect.suggest_new r row)
  = JsString.slice0 60 (Reflect.message row)
    ++ (if (60 <? String.length (Reflect.message row))%nat then "..." else "").
Proof. reflexivity. Qed.

Lemma generateFingerprint_length message :
  (String.length (Reflect.generateFingerprint message) ≤ 100)%nat.
Proof.
  unfold Reflect.generateFingerprint, Reflect.generateFingerprint_chars.
  rewrite chars_length_string, length_take. lia.
Qed.

End SuggestionFacts.

(** What [reflectCommand] reports adds up: every row is either a new
    pattern or a match of a known one; each new pattern took one draw of
    [Math.random], in the order of the rows, and carries the id of its
    draw; a dry run, and a run that finds nothing new, leave the playbook
    file untouched, and any other run appends the new patterns to it. *)
Theorem reflect_report `{RegexEngine} (random : nat → nat) (dryRun : bool)
    (rows : list Reflect.RecurringError) (store : Playbook.Store) :
  let run := Reflect.reflect random dryRun rows store in
  let report := ReflectReport.report rows run.2 in
  (ReflectReport.newPatternsFound report + ReflectReport.knownPatternMatches report
   = ReflectReport.totalRecurringErrors report)%nat
  ∧ Reflect.drawn run.2 = ReflectReport.newPatternsFound report
  ∧ map Playbook.id (Reflect.newPatterns run.2)
    = map (fun n => Playbook.generatePatternId (random n))
          (seq 0 (ReflectReport.newPatternsFound report))
  ∧ (dryRun = true ∨ ReflectReport.newPatternsFound report = 0%nat → run.1 = store)
  ∧ (dryRun = false →
     Playbook.patterns (Playbook.loadPlaybook run.1)
     = (Playbook.patterns (Playbook.loadPlaybook store) ++ Reflect.newPatterns run.2)%list).
Proof.
  intros run report. subst report run. unfold ReflectReport.report. simpl.
  rewrite reflect_final.
  destruct (classify_all_inv random (Playbook.loadPlaybook store) rows)
    as (Hall & Hnew & Hdrawn & Hids).
  split; [| split; [done | split; [by rewrite <- Hdrawn | split]]].
  - rewrite Hnew, length_map.
    rewrite <- (classify_all_errors random (Playbook.loadPlaybook store) rows) at 3.
    rewrite length_map.
    apply filter_split_length.
  - unfold Reflect.reflect. intros [-> | Hnone]; [done |].
    rewrite Hnone. by rewrite andb_false_r.
  - intros ->. by rewrite reflect_patterns, reflect_final.
Qed.

(** The record that [reflectCommand] suggests for a row: its title has at
    most 63 characters and is the message itself when that has at most 60;
    its pattern has between 2 and 52 characters; its fingerprint, when the
    row brings none, has at most 100; its category is one of five; and
    [validatePattern] accepts it exactly when the message and the
    fingerprint are not empty and the pattern compiles. *)
Theorem suggest_new_record `{RegexEngine} (r : nat) (row : Reflect.RecurringError) (i : nat) :
  let p := Reflect.suggest_new r row in
  ((String.length (Playbook.title p) ≤ 63)%nat
   ∧ ((String.length (Reflect.message row) ≤ 60)%nat → Playbook.title p = Reflect.message row))
  ∧ (2 ≤ String.length (Playbook.pattern p) ≤ 52)%nat
  ∧ (Reflect.or_string (Reflect.fingerprint row) "" = "" →
     Playbook.fingerprint p = Reflect.generateFingerprint (Reflect.message row)
     ∧ (String.length (Playbook.fingerprint p) ≤ 100)%nat)
  ∧ Playbook.category p ∈ ["network"; "filesystem"; "database"; "memory"; "general"]
  ∧ (Playbook.validatePattern (Playbook.pattern_value p) i = []
     ↔ Reflect.message row ≠ "" ∧ Playbook.fingerprint p ≠ ""
       ∧ is_Some (RegExp (Playbook.pattern p) "")).
Proof.
  intros p. subst p. split; [| split; [| split; [| split]]].
  - rewrite suggest_new_title. split.
    + rewrite string_length_app, slice0_length_string.
      destruct (60 <? _)%nat;
        [change (String.length "...") with 3%nat | change (String.length "") with 0%nat]; lia.
    + intros Hshort. rewrite slice0_short by done.
      destruct (60 <? _)%nat eqn:Hlong; [apply Nat.ltb_lt in Hlong; lia |].
      rewrite <- (string_of_list_ascii_of_string (Reflect.message row)) at 2.
      rewrite <- (app_nil_r (list_ascii_of_string (Reflect.message row))), string_of_list_app.
      by rewrite string_of_list_ascii_of_string.
  - change (Playbook.pattern (Reflect.suggest_new r row))
      with (JsString.slice0 50 (Reflect.escape (Reflect.message row)) ++ ".*").
    rewrite string_length_app, slice0_length_string.
    change (String.length ".*") with 2%nat. lia.
  - change (Playbook.fingerprint (Reflect.suggest_new r row))
      with (Reflect.or_string (Reflect.fingerprint row)
              (Reflect.generateFingerprint (Reflect.message row))).
    intros Hnone.
    assert (Reflect.or_string (Reflect.fingerprint row)
              (Reflect.generateFingerprint (Reflect.message row))
            = Reflect.generateFingerprint (Reflect.message row)) as ->.
    { unfold Reflect.or_string in *. destruct (Reflect.fingerprint row) as [f |]; [| done].
      destruct (String.eqb f "") eqn:Hf; [done |]. subst f. done. }
    split; [done | apply generateFingerprint_length].
  - apply categorizError_range.
  - rewrite validatePattern_typed.
    assert (Hid : Playbook.id (Reflect.suggest_new r row) ≠ "").
    { apply string_nonempty_length.
      change (Playbook.id (Reflect.suggest_new r row)) with (Playbook.generatePatternId r).
      unfold Playbook.generatePatternId. rewrite string_length_app.
      change (String.length "slsm-") with 5%nat. lia. }
    assert (Hpattern : Playbook.pattern (Reflect.suggest_new r row) ≠ "").
    { apply string_nonempty_length.
      change (Playbook.pattern (Reflect.suggest_new r row))
        with (JsString.slice0 50 (Reflect.escape (Reflect.message row)) ++ ".*").
      rewrite string_length_app. change (String.length ".*") with 2%nat. lia. }
    assert (Hcategory : Playbook.category (Reflect.suggest_new r row) ≠ "").
    { pose proof (categorizError_range (Reflect.message row)) as Hrange.
      change (Playbook.category (Reflect.suggest_new r row))
        with (Reflect.categorizError (Reflect.message row)).
      intros Hempty. rewrite Hempty in Hrange.
      apply list_elem_of_In in Hrange. simpl in Hrange.
      repeat destruct Hrange as [Hrange | Hrange]; done. }
    assert (Htitle : Playbook.title (Reflect.suggest_new r row) ≠ "" ↔ Reflect.message row ≠ "").
    { rewrite !string_nonempty_length, suggest_new_title, string_length_app,
        slice0_length_string.
      destruct (60 <? _)%nat eqn:Hlong;
        [change (String.length "...") with 3%nat; apply Nat.ltb_lt in Hlong
        | change (String.length "") with 0%nat]; lia. }
    rewrite Htitle. tauto.
Qed.

Lemma suggest_new_record_witness :
  let p := Reflect.suggest_new 1 Examples.quota in
  Playbook.fingerprint p = "disk quota exceeded"
  ∧ (String.length (Playbook.fingerprint p) ≤ 100)%nat.
Proof.
  apply (suggest_new_record (H := LiteralEngine.engine) 1 Examples.quota 0).
  reflexivity.
Defined.

Section LearningFacts.
Context `{RegexEngine}.

Lemma candidates_mono pb pb' q r :
  (∀ p, p ∈ Playbook.patterns pb → p ∈ Playbook.patterns pb') →
  r ∈ Matching.candidates pb q → r ∈ Matching.candidates pb' q.
Proof.
  intros Hsub (p & Hp & Hr)%candidates_elem. apply candidates_elem. exists p. auto.
Qed.

(** The record suggested for a short message with a keyword matches that
    message with a score above 80, by its regular expression or by its
    keywords. *)
Lemma suggest_new_matches r row :
  (String.length (Reflect.message row) ≤ 60)%nat →
  Matching.extractKeywords (Reflect.message row) ≠ [] →
  ∃ res, res ∈ Matching.match_one (Matching.extractKeywords (Reflect.message row))
                 (Reflect.message row) (Reflect.suggest_new r row)
         ∧ (80 < Matching.score res)%Q.
Proof.
  intros Hshort Hkw.
  set (message := Reflect.message row) in *. set (p := Reflect.suggest_new r row).
  destruct (Matching.regex_hit p message) eqn:Hhit.
  - rewrite match_one_hit by done. eexists. split; [left | done].
  - unfold Matching.match_one. rewrite Hhit.
    assert (Hpk : Matching.patternKeywords p
                  = (Matching.extractKeywords message
                     ++ (Matching.extractKeywords message ++ []))%list).
    { unfold Matching.patternKeywords.
      rewrite extractKeywords_app, extractKeywords_join. subst p.
      rewrite suggest_new_title. fold message. rewrite slice0_short by done.
      destruct (60 <? _)%nat eqn:Hlong; [apply Nat.ltb_lt in Hlong; lia |].
      assert (message ++ "" = message) as ->; [| done].
      rewrite <- (string_of_list_ascii_of_string message) at 2.
      rewrite <- (app_nil_r (list_ascii_of_string message)), string_of_list_app.
      by rewrite string_of_list_ascii_of_string. }
    assert (Hfull : Matching.calculateScore (Matching.extractKeywords message)
                      (Matching.patternKeywords p) == 100).
    { apply calculateScore_full; [done | |].
      - rewrite Hpk. by destruct (Matching.extractKeywords message).
      - intros k. rewrite Hpk, app_nil_r, elem_of_app. tauto. }
    destruct (Qlt_le_dec 20 _) as [Habove | Hbelow].
    + eexists. split; [left |]. simpl. by rewrite Hfull.
    + exfalso. rewrite Hfull in Hbelow. revert Hbelow. by apply Qlt_not_le.
Qed.

Lemma suggestion_known random pb rows s :
  s ∈ Reflect.suggestions (Reflect.classify_all random pb rows) →
  (∃ r, r ∈ Matching.candidates pb (Reflect.message (Reflect.error s))
        ∧ (80 < Matching.score r)%Q) →
  Reflect.isNew s = false.
Proof.
  intros Hs Hknown%isKnown_iff.
  destruct (classify_all_inv random pb rows) as (Hall & _).
  rewrite Forall_forall in Hall. destruct (Hall s Hs) as (-> & _). by rewrite Hknown.
Qed.

(** After a run that saves, a row with a short message and a keyword has a
    candidate above 80 in the playbook. *)
Lemma reflect_learned random rows store row :
  row ∈ rows →
  (String.length (Reflect.message row) ≤ 60)%nat →
  Matching.extractKeywords (Reflect.message row) ≠ [] →
  ∃ r, r ∈ Matching.candidates
             (Playbook.loadPlaybook (Reflect.reflect random false rows store).1)
             (Reflect.message row)
       ∧ (80 < Matching.score r)%Q.
Proof.
  intros Hrow Hshort Hkw.
  pose proof (reflect_patterns random false rows store) as Hpatterns.
  rewrite reflect_final in Hpatterns. cbv iota in Hpatterns.
  destruct (classify_all_inv random (Playbook.loadPlaybook store) rows)
    as (Hall & Hnew & _).
  pose proof (classify_all_errors random (Playbook.loadPlaybook store) rows) as Herrors.
  rewrite <- Herrors in Hrow. apply list_elem_of_fmap in Hrow as (s & -> & Hs).
  rewrite Forall_forall in Hall. destruct (Hall s Hs) as (Hclass & _ & Hfresh).
  destruct (Reflect.isNew s) eqn:HisNew.
  - destruct (Hfresh eq_refl) as (n & _ & Hp).
    destruct (suggest_new_matches (random n) (Reflect.error s) Hshort Hkw) as (res & Hres & Hlt).
    exists res. split; [| done]. apply candidates_elem.
    exists (Reflect.suggest_new (random n) (Reflect.error s)). split; [| done].
    rewrite Hpatterns, Hnew, <- Hp. apply elem_of_app. right.
    apply list_elem_of_fmap. exists s. split; [done |]. by apply list_elem_of_filter.
  - symmetry in Hclass. apply negb_false_iff, isKnown_iff in Hclass as (r & Hr & Hlt).
    exists r. split; [| done]. eapply candidates_mono; [| exact Hr].
    intros p Hp. rewrite Hpatterns. apply elem_of_app. by left.
Qed.

End LearningFacts.

(** [reflectCommand] learns: once a run has saved, a row whose message has
    at most 60 characters and at least one keyword is matched as known by
    any later run, whatever the regular-expression engine makes of the
    suggested pattern; and when every row is such, a second run over the
    same rows finds nothing new and leaves the playbook file as it is. *)
Theorem reflect_learns `{RegexEngine} (random random' : nat → nat) (dryRun : bool)
    (rows : list Reflect.RecurringError) (store : Playbook.Store) :
  let short row :=
    (String.length (Reflect.message row) ≤ 60)%nat
    ∧ Matching.extractKeywords (Reflect.message row) ≠ [] in
  let learned := (Reflect.reflect random false rows store).1 in
  (∀ row rows' s,
     row ∈ rows → short row →
     s ∈ Reflect.suggestions (Reflect.reflect random' dryRun rows' learned).2 →
     Reflect.error s = row →
     Reflect.isNew s = false)
  ∧ ((∀ row, row ∈ rows → short row) →
     Reflect.newPatterns (Reflect.reflect random' dryRun rows learned).2 = []
     ∧ (Reflect.reflect random' dryRun rows learned).1 = learned).
Proof.
  intros short learned.
  assert (Hone : ∀ row rows' s,
            row ∈ rows → short row →
            s ∈ Reflect.suggestions (Reflect.reflect random' dryRun rows' learned).2 →
            Reflect.error s = row → Reflect.isNew s = false).
  { intros row rows' s Hrow [Hshort Hkw] Hs Herror. rewrite reflect_final in Hs.
    eapply suggestion_known; [exact Hs |]. rewrite Herror.
    by apply reflect_learned. }
  split; [exact Hone |]. intros Hall.
  assert (Hnone : Reflect.newPatterns (Reflect.reflect random' dryRun rows learned).2 = []).
  { pose proof (classify_all_inv random' (Playbook.loadPlaybook learned) rows)
      as (_ & Hnew & _).
    rewrite reflect_final, Hnew.
    assert (Hknown : Forall (fun s => Reflect.isNew s = false)
              (Reflect.suggestions
                 (Reflect.classify_all random' (Playbook.loadPlaybook learned) rows))).
    { apply Forall_forall. intros s Hs.
      assert (Hrow : Reflect.error s ∈ rows).
      { rewrite <- (classify_all_errors random' (Playbook.loadPlaybook learned) rows).
        apply list_elem_of_fmap. by exists s. }
      apply (Hone (Reflect.error s) rows s Hrow (Hall _ Hrow)); [| done].
      by rewrite reflect_final. }
    clear Hnew. induction Hknown as [| s l Hs _ IH]; [done |].
    rewrite filter_cons_False by (by rewrite Hs). exact IH. }
  split; [done |]. unfold Reflect.reflect in Hnone |- *.
  destruct (negb dryRun && _) eqn:Hsave; [| done].
  simpl in Hnone. rewrite Hnone in Hsave. by rewrite andb_false_r in Hsave.
Qed.

Lemma reflect_learns_witness :
  let learned :=
    (Reflect.reflect (H := LiteralEngine.engine) (fun _ => 1%nat) false [Examples.quota]
       (Some {| Playbook.patterns := [Examples.refused] |})).1 in
  Reflect.newPatterns
    (Reflect.reflect (H := LiteralEngine.engine) (fun _ => 2%nat) false [Examples.quota]
       learned).2 = []
  ∧ (Reflect.reflect (H := LiteralEngine.engine) (fun _ => 2%nat) false [Examples.quota]
       learned).1 = learned.
Proof.
  apply (reflect_learns (H := LiteralEngine.engine) (fun _ => 1%nat) (fun _ => 2%nat) false
           [Examples.quota] (Some {| Playbook.patterns := [Examples.refused] |})).
  intros row ->%list_elem_of_singleton. split; [vm_compute; lia | by vm_compute].
Defined.

Section CategoryFacts.

Lemma includes_app (s sub before after : string) :
  JsString.includes s sub = true → JsString.includes (before ++ s ++ after) sub = true.
Proof.
  rewrite !includes_true. intros (a & b & ->). exists (before ++ a), (b ++ after).
  by rewrite !string_app_assoc.
Qed.

Lemma categorizError_lower message :
  Reflect.categorizError (JsString.toLowerCase message) = Reflect.categorizError message.
Proof. unfold Reflect.categorizError. by rewrite toLowerCase_fixed. Qed.

Lemma categorizError_network message :
  JsString.includes (JsString.toLowerCase message) "econnrefused" = true
  ∨ JsString.includes (JsString.toLowerCase message) "connection" = true →
  Reflect.categorizError message = "network".
Proof.
  unfold Reflect.categorizError. intros [-> | ->]; [done |]. by rewrite orb_true_r.
Qed.

Lemma categorizError_general message :
  Reflect.categorizError message = "general"
  ↔ Forall (fun word => JsString.includes (JsString.toLowerCase message) word = false)
      ["econnrefused"; "connection"; "permission"; "eacces"; "not found"; "enoent";
       "timeout"; "database"; "sql"; "memory"; "heap"].
Proof.
  unfold Reflect.categorizError. rewrite !Forall_cons, Forall_nil.
  repeat match goal with
         | |- context [JsString.includes ?s ?w] =>
             let b := fresh "b" in generalize (JsString.includes s w); intros b
         end.
  repeat match goal with
         | b : bool |- _ => destruct b; simpl; [split; [discriminate | intuition discriminate] |]
         end.
  done.
Qed.

End CategoryFacts.

(** [categorizError] reads the lower-cased message only, so the case of
    the letters makes no difference; a message that holds [econnrefused] or
    [connection] is a network error wherever it stands in a longer text and
    whatever else the text holds; and the category is [general] exactly
    when the message holds none of the eleven words that the function
    looks for. *)
Theorem categorizError_cases (message : string) :
  Reflect.categorizError (JsString.toLowerCase message) = Reflect.categorizError message
  ∧ (JsString.includes (JsString.toLowerCase message) "econnrefused" = true
     ∨ JsString.includes (JsString.toLowerCase message) "connection" = true →
     ∀ before after, Reflect.categorizError (before ++ message ++ after) = "network")
  ∧ (Reflect.categorizError message = "general"
     ↔ ∀ word, word ∈ ["econnrefused"; "connection"; "permission"; "eacces"; "not found";
                       "enoent"; "timeout"; "database"; "sql"; "memory"; "heap"] →
               JsString.includes (JsString.toLowerCase message) word = false).
Proof.
  split; [apply categorizError_lower |]. split.
  - intros Hword before after. apply categorizError_network.
    rewrite !toLowerCase_app. destruct Hword as [Hword | Hword]; [left | right];
      by apply includes_app.
  - rewrite categorizError_general, Forall_forall. done.
Qed.

(** ** Tokens *)

Section TokenFacts.

#[local] Abbreviation token := (fun term : string => (2 ≤ String.length term)%nat).
#[local] Abbreviation blanked text :=
  (map Embeddings.blank (JsString.toLowerCase_chars (list_ascii_of_string text))).

Lemma token_nonempty w : token w → w ≠ "".
Proof. intros Hlen ->. simpl in Hlen. lia. Qed.

Lemma tokenize_pieces text :
  Embeddings.tokenize text
  = filter token
      (map string_of_list_ascii
         (filter (fun piece => piece ≠ [])
            (JsString.split_chars JsString.is_space (blanked text)))).
Proof. unfold Embeddings.tokenize. apply (filter_words token). apply token_nonempty. Qed.

Lemma tokenize_app a b :
  Embeddings.tokenize (a ++ " " ++ b) = (Embeddings.tokenize a ++ Embeddings.tokenize b)%list.
Proof.
  rewrite !tokenize_pieces, !list_ascii_app.
  unfold JsString.toLowerCase_chars. rewrite !map_app.
  change (map Embeddings.blank (map JsString.lower_char (list_ascii_of_string " ")))
    with [" "%char].
  simpl app at 2.
  rewrite split_chars_app by reflexivity.
  by rewrite map_app, filter_app.
Qed.

Lemma tokenize_join l :
  Embeddings.tokenize (JsString.join " " l) = concat (map Embeddings.tokenize l).
Proof.
  induction l as [| x l IH]; [done |].
  destruct l as [| y l].
  - simpl. by rewrite app_nil_r.
  - change (JsString.join " " (x :: y :: l)) with (x ++ " " ++ JsString.join " " (y :: l)).
    rewrite tokenize_app, IH. done.
Qed.

Lemma tokenize_lower text :
  Embeddings.tokenize (JsString.toLowerCase text) = Embeddings.tokenize text.
Proof.
  unfold Embeddings.tokenize, JsString.toLowerCase.
  rewrite list_ascii_of_string_of_list_ascii.
  by rewrite (toLowerCase_chars_fixed (JsString.toLowerCase_chars _))
    by apply toLowerCase_chars_lower.
Qed.

Lemma blank_class c :
  JsString.is_space (Embeddings.blank c) = false →
  (JsString.is_lower (Embeddings.blank c) || JsString.is_digit (Embeddings.blank c)
   || (JsString.code (Embeddings.blank c) =? 95)%N) = true.
Proof.
  unfold Embeddings.blank, Embeddings.punctuation.
  destruct (JsString.is_lower c) eqn:Hl; simpl; [by rewrite Hl |].
  destruct (JsString.is_digit c) eqn:Hd; simpl; [by rewrite Hl, Hd |].
  destruct (JsString.code c =? 95)%N eqn:Hu; simpl; [by rewrite Hl, Hd, Hu |].
  destruct (JsString.is_space c) eqn:Hs; simpl; [by rewrite Hs | done].
Qed.

Lemma tokenize_elem text term :
  term ∈ Embeddings.tokenize text →
  (2 ≤ String.length term)%nat
  ∧ Forall (fun c => (JsString.is_lower c || JsString.is_digit c
                      || (JsString.code c =? 95)%N) = true)
           (list_ascii_of_string term).
Proof.
  unfold Embeddings.tokenize, JsString.split_chars.
  intros [Hlen Hin]%list_elem_of_filter. split; [done |].
  apply list_elem_of_fmap in Hin as (piece & -> & Hpiece).
  rewrite list_ascii_of_string_of_list_ascii.
  pose proof (split_go_pieces JsString.is_space [] false (blanked text) ltac:(constructor))
    as Hall.
  rewrite Forall_forall in Hall. specialize (Hall piece Hpiece).
  apply split_go_substring in Hpiece as (a & b & Hs). simpl in Hs.
  assert (Hblank : Forall (fun c => ∃ c0, c = Embeddings.blank c0) piece).
  { assert (Hsrc : Forall (fun c => ∃ c0, c = Embeddings.blank c0) (blanked text)).
    { apply Forall_forall. intros c (c0 & -> & _)%list_elem_of_fmap. by exists c0. }
    rewrite Hs in Hsrc. apply Forall_app in Hsrc as [_ Hsrc].
    by apply Forall_app in Hsrc as [Hsrc _]. }
  rewrite Forall_forall in Hall, Hblank |- *. intros c Hc.
  destruct (Hblank c Hc) as [c0 ->]. apply blank_class. by apply Hall.
Qed.

End TokenFacts.

(** [tokenize]: every term has at least two characters, all of them
    lower-case letters, digits or underscores. *)
Theorem tokenize_words (text term : string) :
  term ∈ Embeddings.tokenize text →
  (2 ≤ String.length term)%nat
  ∧ Forall (fun c => (JsString.is_lower c || JsString.is_digit c
                      || (JsString.code c =? 95)%N) = true)
           (list_ascii_of_string term).
Proof. apply tokenize_elem. Qed.

Lemma tokenize_words_witness :
  (2 ≤ String.length "refused")%nat
  ∧ Forall (fun c => (JsString.is_lower c || JsString.is_digit c
                      || (JsString.code c =? 95)%N) = true)
           (list_ascii_of_string "refused").
Proof.
  apply (tokenize_words "Connection refused: retry!" "refused").
  apply list_elem_of_In. vm_compute. tauto.
Defined.

(** The text that [buildFromPatterns] indexes for a pattern is read part
    by part: its terms are those of the title, of the category, of each
    symptom, of each root cause and of each fix step, in this order; the
    commands of the fixes are not indexed, and the case of the letters
    makes no difference. *)
Theorem patternToText_terms (p : Playbook.Pattern) :
  Embeddings.tokenize (Embeddings.patternToText p)
  = (Embeddings.tokenize (Playbook.title p)
     ++ Embeddings.tokenize (Playbook.category p)
     ++ concat (map Embeddings.tokenize (Playbook.symptoms p))
     ++ concat (map Embeddings.tokenize (Playbook.root_causes p))
     ++ concat (map (fun f => Embeddings.tokenize (Playbook.step f)) (Playbook.fixes p)))%list
  ∧ (∀ text, Embeddings.tokenize (JsString.toLowerCase text) = Embeddings.tokenize text)
  ∧ (∀ a b, Embeddings.tokenize (a ++ " " ++ b)
            = (Embeddings.tokenize a ++ Embeddings.tokenize b)%list).
Proof.
  split; [| split; [exact tokenize_lower | exact tokenize_app]].
  unfold Embeddings.patternToText. rewrite tokenize_join.
  rewrite !map_app, !concat_app. cbn [map concat app].
  rewrite tokenize_join, map_map, <- !app_assoc. cbn [app].
  do 4 f_equal. apply app_nil_r.
Qed.

(** ** Term frequencies *)

Section FrequencyFacts.
Open Scope R_scope.

#[local] Abbreviation total := (map_fold (fun (_ : string) (v acc : R) => acc + v) 0).
#[local] Abbreviation occurrences t terms :=
  (INR (length (filter (fun x : string => x = t) terms))).











End FrequencyFacts.


(** ** The index in memory *)

Section JsMapFacts.
Context {V : Type}.

Lemma String_eqb_decide (a b : string) : String.eqb a b = bool_decide (a = b).
Proof.
  destruct (String.eqb a b) eqn:Heq.
  - apply String.eqb_eq in Heq. by rewrite bool_decide_eq_true_2.
  - apply String.eqb_neq in Heq. by rewrite bool_decide_eq_false_2.
Qed.

Lemma JsMap_set_keys (m : list (string * V)) k v :
  map fst (JsMap.set m k v) = if bool_decide (k ∈ map fst m) then map fst m else (map fst m ++ [k])%list.
Proof.
  induction m as [| [k' v'] m IH]; simpl; [done |].
  rewrite String_eqb_decide. destruct (decide (k = k')) as [<- | Hk].
  - rewrite bool_decide_eq_true_2 by done. simpl.
    rewrite bool_decide_eq_true_2; [done | left].
  - rewrite (bool_decide_eq_false_2 (k = k')) by done. simpl. rewrite IH.
    destruct (decide (k ∈ map fst m)) as [Hin | Hin].
    + rewrite !bool_decide_eq_true_2; [done | by right | done].
    + rewrite !bool_decide_eq_false_2; [done | | done].
      intros [? | ?]%elem_of_cons; done.
Qed.

Lemma JsMap_set_NoDup (m : list (string * V)) k v :
  NoDup (map fst m) → NoDup (map fst (JsMap.set m k v)).
Proof.
  intros Hnd. rewrite JsMap_set_keys. case_bool_decide as Hin; [done |].
  apply NoDup_app. split; [done |]. split; [| apply NoDup_singleton].
  intros x Hx ->%list_elem_of_singleton. done.
Qed.

Lemma JsMap_set_new (m : list (string * V)) k v : (k, v) ∈ JsMap.set m k v.
Proof.
  induction m as [| [k' v'] m IH]; simpl; [left |].
  destruct (String.eqb k k'); [left | by right].
Qed.

Lemma JsMap_set_old (m : list (string * V)) k v e :
  e ∈ m → e.1 ≠ k → e ∈ JsMap.set m k v.
Proof.
  induction m as [| [k' v'] m IH]; simpl; [by intros ?%elem_of_nil |].
  intros [-> | He]%elem_of_cons Hne.
  - simpl in Hne. rewrite String_eqb_decide, bool_decide_eq_false_2 by congruence. left.
  - destruct (String.eqb k k') eqn:Hk; [| right; by apply IH].
    apply String.eqb_eq in Hk as <-. by right.
Qed.

Lemma JsMap_set_sound (m : list (string * V)) k v e :
  NoDup (map fst m) → e ∈ JsMap.set m k v → e = (k, v) ∨ (e ∈ m ∧ e.1 ≠ k).
Proof.
  induction m as [| [k' v'] m IH]; simpl.
  - intros _ ->%list_elem_of_singleton. by left.
  - intros [Hk' Hnd]%NoDup_cons. rewrite String_eqb_decide.
    destruct (decide (k = k')) as [<- | Hk].
    + rewrite bool_decide_eq_true_2 by done.
      intros [-> | He]%elem_of_cons; [by left | right].
      split; [by right |]. intros Heq. apply Hk'. rewrite <- Heq.
      apply list_elem_of_fmap. by exists e.
    + rewrite bool_decide_eq_false_2 by done. intros [-> | He]%elem_of_cons.
      * right. split; [left | simpl; congruence].
      * destruct (IH Hnd He) as [-> | [Hin Hne]]; [by left | right].
        split; [by right | done].
Qed.

End JsMapFacts.

Section BuildFacts.
Open Scope R_scope.

#[local] Abbreviation vector_of tab p :=
  (Embeddings.toVector
     (Embeddings.computeTf (Embeddings.tokenize (Embeddings.patternToText p))) tab).

#[local] Abbreviation table_of patterns :=
  (Embeddings.computeIdf
     (map (fun p => Embeddings.tokenize (Embeddings.patternToText p)) patterns)
     (JsSet.of_list
        (concat (map (fun p => Embeddings.tokenize (Embeddings.patternToText p)) patterns)))).

(** What the second loop of [buildFromPatterns] holds in memory and what
    it has written, for a manager that came with no vector. *)
Lemma store_fold_index tab patterns m0 :
  Embeddings.vectors m0 = [] →
  let m1 := foldl (Embeddings.store_vector tab) m0 patterns in
  NoDup (map fst (Embeddings.vectors m1))
  ∧ (∀ e, e ∈ Embeddings.vectors m1 →
          (∃ p, p ∈ patterns ∧ e = (Playbook.id p, vector_of tab p))
          ∧ ∃ text, Embeddings.embeddings (Embeddings.db m1) !! e.1
                    = Some (Embeddings.terms e.2, text))
  ∧ (∀ id, id ∈ map Playbook.id patterns → id ∈ map fst (Embeddings.vectors m1))
  ∧ (NoDup (map Playbook.id patterns) →
     ∀ p, p ∈ patterns → (Playbook.id p, vector_of tab p) ∈ Embeddings.vectors m1).
Proof.
  intros Hempty. induction patterns as [| p patterns IH] using rev_ind; cbv zeta.
  - simpl. rewrite Hempty. split; [constructor |].
    split; [by intros e ?%elem_of_nil |]. split; [by intros id ?%elem_of_nil |].
    by intros _ p ?%elem_of_nil.
  - rewrite foldl_app. cbn [foldl]. cbv zeta in IH.
    set (m1 := foldl (Embeddings.store_vector tab) m0 patterns) in *.
    destruct IH as (Hnd & Hin & Hkeys & Hall).
    unfold Embeddings.store_vector at 1 2 3 4.
    cbn [Embeddings.vectors Embeddings.db Embeddings.embeddings].
    split; [by apply JsMap_set_NoDup |]. split; [| split].
    + intros e He. apply JsMap_set_sound in He as [-> | [He Hne]]; [| | exact Hnd].
      * split; [exists p; split; [apply elem_of_app; right; left | done] |].
        eexists. simpl. by rewrite lookup_insert_eq.
      * destruct (Hin e He) as [(q & Hq & ->) [text Htext]].
        split; [exists q; split; [apply elem_of_app; by left | done] |].
        exists text. by rewrite lookup_insert_ne.
    + intros id. rewrite map_app, elem_of_app. simpl. rewrite list_elem_of_singleton.
      rewrite JsMap_set_keys. intros [Hid | ->].
      * case_bool_decide; [by apply Hkeys |]. apply elem_of_app. left. by apply Hkeys.
      * case_bool_decide; [done |]. apply elem_of_app. right. left.
    + rewrite map_app. intros [Hnd' [Hfresh _]]%NoDup_app q [Hq | ->%list_elem_of_singleton]%elem_of_app.
      * apply JsMap_set_old; [by apply Hall |]. simpl. intros Heq.
        apply (Hfresh (Playbook.id q)); [apply list_elem_of_fmap; by exists q |].
        rewrite Heq. left.
      * apply JsMap_set_new.
Qed.

End BuildFacts.

Section SharedTerms.
Open Scope R_scope.

#[local] Abbreviation dot t1 t2 :=
  (Embeddings.dotProduct {| Embeddings.terms := t1; Embeddings.magnitude := 0 |}
                         {| Embeddings.terms := t2; Embeddings.magnitude := 0 |}).

Lemma dot_apart (t1 t2 : gmap string R) :
  (∀ k, is_Some (t1 !! k) → t2 !! k = None) → dot t1 t2 = 0.
Proof.
  induction t1 as [| k x t1 Hk IH] using map_ind; intros Hapart; [done |].
  rewrite dot_insert_l by done. rewrite IH.
  - rewrite (Hapart k) by (by rewrite lookup_insert_eq). simpl. lra.
  - intros j Hj. apply Hapart. rewrite lookup_insert_ne; [done |].
    intros ->. rewrite Hk in Hj. by destruct Hj.
Qed.

Lemma dot_shared (t1 t2 : gmap string R) k x y :
  (∀ j z, t1 !! j = Some z → 0 <= z) → (∀ j z, t2 !! j = Some z → 0 <= z) →
  t1 !! k = Some x → t2 !! k = Some y → 0 < x → 0 < y → 0 < dot t1 t2.
Proof.
  intros H1 H2 Hx Hy Hxpos Hypos.
  rewrite <- (insert_delete_id t1 k x) by done.
  rewrite dot_insert_l by apply lookup_delete_eq. rewrite Hy. simpl.
  assert (0 <= dot (delete k t1) t2).
  { apply dot_nonneg; [| done]. intros j z [_ Hz]%lookup_delete_Some. by eapply H1. }
  nra.
Qed.

(** The weights that [toVector] gives the terms of a document under a
    table whose entries are at least 1. *)
Lemma toVector_weights (terms : list string) (idf : gmap string R) t :
  (∀ k w, idf !! k = Some w → 1 <= w) →
  match Embeddings.terms (Embeddings.toVector (Embeddings.computeTf terms) idf) !! t with
  | Some w => t ∈ terms ∧ 0 < w
  | None => t ∉ terms
  end.
Proof.
  intros Hidf. destruct (toVector_spec (Embeddings.computeTf terms) idf) as [-> _].
  pose proof (computeTf_lookup terms t) as Htf.
  destruct (Embeddings.computeTf terms !! t) as [x |]; simpl; [| done].
  destruct Htf as [Hin Hx]. split; [done |].
  assert (0 < Embeddings.or_number (idf !! t) 1).
  { apply or_number_1_ge. intros v Hv%Hidf. lra. }
  nra.
Qed.

Lemma toVector_keys (tf idf : gmap string R) t :
  is_Some (Embeddings.terms (Embeddings.toVector tf idf) !! t) ↔ is_Some (tf !! t).
Proof.
  destruct (toVector_spec tf idf) as [-> _]. by rewrite fmap_is_Some.
Qed.

Lemma computeTf_keys terms t : is_Some (Embeddings.computeTf terms !! t) ↔ t ∈ terms.
Proof.
  pose proof (computeTf_lookup terms t) as Htf.
  destruct (Embeddings.computeTf terms !! t) as [x |].
  - split; [by intros _; destruct Htf | by eexists].
  - split; [by intros [? ?] | done].
Qed.

Lemma toVector_magnitude (terms : list string) (idf : gmap string R) :
  terms ≠ [] → 0 < Embeddings.magnitude (Embeddings.toVector (Embeddings.computeTf terms) idf).
Proof.
  intros Hne. destruct (toVector_spec (Embeddings.computeTf terms) idf) as [_ ->].
  apply sqrt_lt_R0. by apply toVector_positive.
Qed.

Lemma toVector_no_terms (idf : gmap string R) :
  Embeddings.magnitude (Embeddings.toVector (Embeddings.computeTf []) idf) = 0.
Proof.
  unfold Embeddings.computeTf, Embeddings.count_terms. simpl. rewrite fmap_empty.
  unfold Embeddings.toVector. rewrite map_fold_empty. simpl. apply sqrt_0.
Qed.

(** The cosine of the vectors of two documents is positive exactly when
    the documents share a term, under tables whose entries are at least
    1. *)
Lemma cosineSimilarity_shared (q p : list string) (idf tab : gmap string R) :
  (∀ k w, idf !! k = Some w → 1 <= w) →
  (∀ k w, tab !! k = Some w → 1 <= w) →
  0 < Embeddings.cosineSimilarity
        (Embeddings.toVector (Embeddings.computeTf q) idf)
        (Embeddings.toVector (Embeddings.computeTf p) tab)
  ↔ ∃ t, t ∈ q ∧ t ∈ p.
Proof.
  intros Hidf Htab.
  set (qv := Embeddings.toVector (Embeddings.computeTf q) idf).
  set (pv := Embeddings.toVector (Embeddings.computeTf p) tab).
  split.
  - intros Hpos.
    destruct (decide (Exists (fun t => t ∈ p) q)) as [Hex%Exists_exists | Hnone]; [done |].
    rewrite Exists_exists in Hnone. exfalso.
    assert (Hdot : Embeddings.dotProduct qv pv = 0).
    { rewrite dotProduct_terms. apply dot_apart. intros k Hk.
      apply toVector_keys, computeTf_keys in Hk.
      destruct (Embeddings.terms pv !! k) as [w |] eqn:Hw; [| done].
      exfalso. apply Hnone. exists k. split; [done |].
      apply computeTf_keys, (toVector_keys _ tab). by exists w. }
    unfold Embeddings.cosineSimilarity in Hpos.
    destruct (Req_dec_T _ 0); [lra |]. destruct (Req_dec_T _ 0); [lra |].
    rewrite Hdot in Hpos. unfold Rdiv in Hpos. lra.
  - intros (t & Htq & Htp).
    assert (Hq : 0 < Embeddings.magnitude qv)
      by (apply toVector_magnitude; intros ->; by apply elem_of_nil in Htq).
    assert (Hp : 0 < Embeddings.magnitude pv)
      by (apply toVector_magnitude; intros ->; by apply elem_of_nil in Htp).
    unfold Embeddings.cosineSimilarity.
    destruct (Req_dec_T _ 0); [lra |]. destruct (Req_dec_T _ 0); [lra |].
    apply Rdiv_lt_0_compat; [| nra].
    rewrite dotProduct_terms.
    pose proof (toVector_weights q idf t Hidf) as Hwq.
    pose proof (toVector_weights p tab t Htab) as Hwp. fold qv in Hwq. fold pv in Hwp.
    destruct (Embeddings.terms qv !! t) as [x |] eqn:Hx; [| done].
    destruct (Embeddings.terms pv !! t) as [y |] eqn:Hy; [| done].
    apply (dot_shared _ _ t x y); [| | done | done | tauto | tauto].
    + intros j z Hz. pose proof (toVector_weights q idf j Hidf) as Hj. fold qv in Hj.
      rewrite Hz in Hj. destruct Hj. lra.
    + intros j z Hz. pose proof (toVector_weights p tab j Htab) as Hj. fold pv in Hj.
      rewrite Hz in Hj. destruct Hj. lra.
Qed.

End SharedTerms.

Section SimilarFacts.
Open Scope R_scope.

#[local] Abbreviation vector_of tab p :=
  (Embeddings.toVector
     (Embeddings.computeTf (Embeddings.tokenize (Embeddings.patternToText p))) tab).

#[local] Abbreviation table_of patterns :=
  (Embeddings.computeIdf
     (map (fun p => Embeddings.tokenize (Embeddings.patternToText p)) patterns)
     (JsSet.of_list
        (concat (map (fun p => Embeddings.tokenize (Embeddings.patternToText p)) patterns)))).

#[local] Abbreviation stored patterns d :=
  (foldl (Embeddings.store_vector (table_of patterns))
     {| Embeddings.db := d; Embeddings.idf := table_of patterns; Embeddings.vectors := [] |}
     patterns).

Lemma Rltb_asym a b : JsArray.Rltb a b = true → JsArray.Rltb b a = false.
Proof.
  unfold JsArray.Rltb. destruct (Rlt_le_dec a b); [| done].
  intros _. destruct (Rlt_le_dec b a); [lra | done].
Qed.

Lemma Rgeb_trans a b c :
  JsArray.Rltb a b = false → JsArray.Rltb b c = false → JsArray.Rltb a c = false.
Proof.
  unfold JsArray.Rltb.
  destruct (Rlt_le_dec a b); [done |]. destruct (Rlt_le_dec b c); [done |].
  intros _ _. destruct (Rlt_le_dec a c); [lra | done].
Qed.

Lemma Rltb_false a b : JsArray.Rltb a b = false ↔ b <= a.
Proof. unfold JsArray.Rltb. destruct (Rlt_le_dec a b); split; first [done | lra]. Qed.

(** The manager that [similarCommand] queries after a build. *)
Lemma similarCommand_state patterns query limit rebuild d :
  patterns ≠ [] →
  let m := (Embeddings.similarCommand patterns query limit rebuild d).1 in
  Embeddings.vectors m = Embeddings.vectors (stored patterns d)
  ∧ Embeddings.db m
    = {| Embeddings.embeddings := Embeddings.embeddings (Embeddings.db (stored patterns d));
         Embeddings.vocabulary := table_of patterns ∪ Embeddings.vocabulary d |}
  ∧ Embeddings.idf m
    = if (size (table_of patterns) =? 0)%nat
      then table_of patterns ∪ Embeddings.vocabulary d else table_of patterns.
Proof.
  intros Hne. unfold Embeddings.similarCommand, Embeddings.findSimilar. cbn [fst].
  assert (Hbuilt : (if rebuild || (0 <? length patterns)%nat
                    then Embeddings.buildFromPatterns patterns (Embeddings.initEmbeddingsDb d)
                    else Embeddings.initEmbeddingsDb d)
                   = Embeddings.buildFromPatterns patterns (Embeddings.initEmbeddingsDb d)).
  { destruct patterns; [done |]. simpl. by rewrite orb_true_r. }
  rewrite Hbuilt, buildFromPatterns_nonempty by done. cbv zeta.
  change (Embeddings.db (Embeddings.initEmbeddingsDb d)) with d.
  change (Embeddings.vectors (Embeddings.initEmbeddingsDb d))
    with (@nil (string * Embeddings.TfIdfVector)).
  destruct (store_fold (table_of patterns) patterns
              {| Embeddings.db := d; Embeddings.idf := table_of patterns;
                 Embeddings.vectors := [] |}) as (Hi & Hv & _ & _ & Hnonempty).
  simpl in Hi, Hv. specialize (Hnonempty Hne).
  unfold Embeddings.load. cbn [Embeddings.db Embeddings.idf Embeddings.vectors
                                Embeddings.vocabulary Embeddings.embeddings].
  rewrite Hi, Hv.
  destruct (Embeddings.vectors (stored patterns d)) as [| e vs] eqn:Hvs; [done |].
  done.
Qed.

Lemma similarCommand_fresh query limit rebuild d :
  (Embeddings.similarCommand [] query limit rebuild d).1
  = Embeddings.load (Embeddings.initEmbeddingsDb d).
Proof. unfold Embeddings.similarCommand, Embeddings.findSimilar. by destruct rebuild. Qed.

Lemma similarCommand_keys patterns query limit rebuild d :
  NoDup (map fst (Embeddings.vectors (Embeddings.similarCommand patterns query limit rebuild d).1)).
Proof.
  destruct (decide (patterns = [])) as [-> | Hne].
  - rewrite similarCommand_fresh. unfold Embeddings.load. simpl.
    rewrite map_map. simpl. apply NoDup_fst_map_to_list.
  - destruct (similarCommand_state patterns query limit rebuild d Hne) as (-> & _).
    by apply store_fold_index.
Qed.

Lemma scored_keys m query :
  sublist (map fst (Embeddings.scored m query)) (map fst (Embeddings.vectors m)).
Proof.
  unfold Embeddings.scored. induction (Embeddings.vectors m) as [| e vs IH]; simpl; [done |].
  rewrite map_app. destruct (Rlt_le_dec 0 _); simpl;
    first [by apply sublist_skip | by apply sublist_cons].
Qed.

Lemma scored_no_terms m query :
  Embeddings.tokenize query = [] → Embeddings.scored m query = [].
Proof.
  intros Hq. unfold Embeddings.scored, Embeddings.queryVector. rewrite Hq.
  induction (Embeddings.vectors m) as [| e vs IH]; simpl; [done |]. rewrite IH.
  unfold Embeddings.cosineSimilarity. rewrite toVector_no_terms.
  destruct (Req_dec_T 0 0); [| done]. destruct (Rlt_le_dec 0 0); [lra | done].
Qed.

Lemma similarCommand_results patterns query limit rebuild d :
  (Embeddings.similarCommand patterns query limit rebuild d).2
  = JsArray.slice0 limit
      (JsArray.sort_desc JsArray.Rltb snd
         (Embeddings.scored (Embeddings.similarCommand patterns query limit rebuild d).1 query)).
Proof. reflexivity. Qed.

Lemma similarCommand_sorted patterns query limit rebuild d :
  StronglySorted (fun r r' : string * R => r'.2 <= r.2)
    (Embeddings.similarCommand patterns query limit rebuild d).2.
Proof.
  rewrite similarCommand_results.
  eapply StronglySorted_weaken;
    [| apply (ranked_sorted JsArray.Rltb snd Rltb_asym Rgeb_trans)].
  intros r r' Hle. by apply Rltb_false.
Qed.

Lemma similarCommand_length patterns query limit rebuild d :
  (0 <= limit)%Z →
  (length (Embeddings.similarCommand patterns query limit rebuild d).2 ≤ Z.to_nat limit)%nat.
Proof.
  intros Hlimit. rewrite similarCommand_results, slice0_length.
  destruct (limit <? 0)%Z eqn:Hneg; [apply Z.ltb_lt in Hneg; lia | lia].
Qed.

Lemma tokens_in_table patterns p t :
  p ∈ patterns → t ∈ Embeddings.tokenize (Embeddings.patternToText p) →
  is_Some (table_of patterns !! t).
Proof.
  intros Hp Ht. apply (vector_of_terms patterns p t Hp).
  apply toVector_keys, computeTf_keys. done.
Qed.

(** After a build, a pattern scores above 0 exactly when it shares a term
    with the query. *)
Lemma similarCommand_cosine patterns query limit rebuild d p :
  p ∈ patterns →
  let m := (Embeddings.similarCommand patterns query limit rebuild d).1 in
  0 < Embeddings.cosineSimilarity (Embeddings.queryVector m query)
        (vector_of (table_of patterns) p)
  ↔ ∃ t, t ∈ Embeddings.tokenize query
         ∧ t ∈ Embeddings.tokenize (Embeddings.patternToText p).
Proof.
  intros Hp m. assert (Hne : patterns ≠ []) by (intros ->; by apply elem_of_nil in Hp).
  assert (Hidf : (∃ t, t ∈ Embeddings.tokenize (Embeddings.patternToText p)) →
                 Embeddings.idf m = table_of patterns).
  { intros [t Ht]. eapply similarCommand_idf; [done |]. by eapply tokens_in_table. }
  unfold Embeddings.queryVector. split.
  - intros Hpos.
    destruct (Embeddings.tokenize (Embeddings.patternToText p)) as [| t0 ts] eqn:Htokens.
    { exfalso. unfold Embeddings.cosineSimilarity in Hpos. rewrite toVector_no_terms in Hpos.
      destruct (Req_dec_T _ 0); [lra |]. destruct (Req_dec_T 0 0); [lra | done]. }
    rewrite Hidf in Hpos by (exists t0; left).
    apply cosineSimilarity_shared in Hpos; [done | |]; apply table_of_ge_1.
  - intros (t & Htq & Htp). rewrite Hidf by (by exists t).
    apply cosineSimilarity_shared; [apply table_of_ge_1 | apply table_of_ge_1 |].
    by exists t.
Qed.

End SimilarFacts.

(** The matches of the [similar] command come best first: in descending
    order of score, no more of them than the limit when that is not
    negative, no pattern id twice, and no pattern that was cut scoring
    above one that was kept; a query without a term of two characters or
    more finds nothing. *)
Theorem similarCommand_ranked (patterns : list Playbook.Pattern) (query : string)
    (limit : Z) (rebuild : bool) (d : Embeddings.Database) :
  let run := Embeddings.similarCommand patterns query limit rebuild d in
  StronglySorted (fun r r' : string * R => (r'.2 <= r.2)%R) run.2
  ∧ ((0 <= limit)%Z → (length run.2 ≤ Z.to_nat limit)%nat)
  ∧ NoDup (map fst run.2)
  ∧ (∃ cut, run.2 ++ cut ≡ₚ Embeddings.scored run.1 query
            ∧ ∀ r c, r ∈ run.2 → c ∈ cut → (c.2 <= r.2)%R)
  ∧ (Embeddings.tokenize query = [] → run.2 = []).
Proof.
  intros run. subst run.
  split; [apply similarCommand_sorted |]. split; [apply similarCommand_length |].
  rewrite similarCommand_results.
  set (m := (Embeddings.similarCommand patterns query limit rebuild d).1).
  split; [| split].
  - apply ranked_NoDup.
    exact (sublist_NoDup _ _ (similarCommand_keys patterns query limit rebuild d)
             (scored_keys m query)).
  - destruct (ranked_top JsArray.Rltb snd Rltb_asym Rgeb_trans limit
                (Embeddings.scored m query)) as (cut & Hperm & Htop).
    exists cut. split; [done |]. intros r c Hr Hc. by apply Rltb_false, Htop.
  - intros Hq. rewrite scored_no_terms by done. unfold JsArray.slice0. simpl.
    destruct (limit <? 0)%Z; apply take_nil.
Qed.

(** After a build, the [similar] command finds the patterns that share a
    term with the query and no others: every match is a pattern of the
    playbook whose indexed text has a term of the query, and, when the ids
    of the playbook are distinct and the limit cuts nothing, every such
    pattern is a match. *)
Theorem similarCommand_shares_term (patterns : list Playbook.Pattern) (query : string)
    (limit : Z) (rebuild : bool) (d : Embeddings.Database) :
  patterns ≠ [] →
  let results := (Embeddings.similarCommand patterns query limit rebuild d).2 in
  let shares p := ∃ t, t ∈ Embeddings.tokenize query
                       ∧ t ∈ Embeddings.tokenize (Embeddings.patternToText p) in
  (∀ r, r ∈ results → ∃ p, p ∈ patterns ∧ Playbook.id p = r.1 ∧ shares p)
  ∧ (NoDup (map Playbook.id patterns) → (Z.of_nat (length patterns) <= limit)%Z →
     ∀ p, p ∈ patterns → shares p → ∃ score, (Playbook.id p, score) ∈ results).
Proof.
  intros Hne results shares. subst results shares. cbv beta.
  rewrite similarCommand_results.
  set (m := (Embeddings.similarCommand patterns query limit rebuild d).1).
  destruct (similarCommand_state patterns query limit rebuild d Hne) as (Hvectors & _).
  fold m in Hvectors.
  match type of Hvectors with
  | _ = Embeddings.vectors (foldl (Embeddings.store_vector ?tab) ?m0 patterns) =>
      destruct (store_fold_index tab patterns m0 eq_refl) as (Hnd & Hin & Hkeys & Hall)
  end.
  rewrite <- Hvectors in Hnd, Hin, Hkeys, Hall. split.
  - intros r Hr. apply slice0_elem, sort_desc_elem, scored_elem in Hr as (e & He & -> & Hpos).
    destruct (Hin e He) as [(p & Hp & ->) _]. exists p. split; [done |]. split; [done |].
    simpl in Hpos. by apply (similarCommand_cosine patterns query limit rebuild d p Hp).
  - intros Hids Hlimit p Hp Hshares.
    exists (Embeddings.cosineSimilarity (Embeddings.queryVector m query)
              (Embeddings.toVector
                 (Embeddings.computeTf (Embeddings.tokenize (Embeddings.patternToText p)))
                 (Embeddings.computeIdf
                    (map (fun p => Embeddings.tokenize (Embeddings.patternToText p)) patterns)
                    (JsSet.of_list
                       (concat (map (fun p => Embeddings.tokenize (Embeddings.patternToText p))
                                    patterns)))))).
    rewrite slice0_all.
    + apply sort_desc_elem, scored_elem. eexists. split; [by apply (Hall Hids p Hp) |].
      split; [done |]. simpl.
      by apply (similarCommand_cosine patterns query limit rebuild d p Hp).
    + rewrite (Permutation_length (sort_desc_perm _ _ _)).
      pose proof (sublist_length _ _ (scored_keys m query)) as Hlen.
      rewrite !length_map in Hlen.
      assert (Hv : (length (Embeddings.vectors m) ≤ length patterns)%nat).
      { rewrite <- (length_map fst), <- (length_map Playbook.id patterns).
        apply submseteq_length, NoDup_submseteq; [done |].
        intros k (e & -> & He)%list_elem_of_fmap.
        destruct (Hin e He) as [(q & Hq & ->) _]. apply list_elem_of_fmap. by exists q. }
      lia.
Qed.

Lemma similarCommand_shares_term_witness :
  let results := (Embeddings.similarCommand [Examples.refused] "connection lost" 10 false
                    Examples.fresh).2 in
  (∀ r, r ∈ results →
        ∃ p, p ∈ [Examples.refused] ∧ Playbook.id p = r.1
             ∧ ∃ t, t ∈ Embeddings.tokenize "connection lost"
                    ∧ t ∈ Embeddings.tokenize (Embeddings.patternToText p))
  ∧ (NoDup (map Playbook.id [Examples.refused]) →
     (Z.of_nat (length [Examples.refused]) <= 10)%Z →
     ∀ p, p ∈ [Examples.refused] →
          (∃ t, t ∈ Embeddings.tokenize "connection lost"
                ∧ t ∈ Embeddings.tokenize (Embeddings.patternToText p)) →
          ∃ score, (Playbook.id p, score) ∈ results).
Proof.
  intros results.
  exact (similarCommand_shares_term [Examples.refused] "connection lost" 10 false
           Examples.fresh ltac:(discriminate)).
Defined.

(** What a build writes, a later run reads back: after a run of the
    [similar] command that built the index, a run that builds nothing (the
    playbook being empty) loads from the database every vector that the
    first run held in memory, with the same weights and the same magnitude,
    and every idf value, and leaves the database as it found it. *)
Theorem similarCommand_persists (patterns : list Playbook.Pattern) (query query' : string)
    (limit limit' : Z) (rebuild rebuild' : bool) (d : Embeddings.Database) :
  patterns ≠ [] →
  let built := (Embeddings.similarCommand patterns query limit rebuild d).1 in
  let later := (Embeddings.similarCommand [] query' limit' rebuild' (Embeddings.db built)).1 in
  (∀ e, e ∈ Embeddings.vectors built → e ∈ Embeddings.vectors later)
  ∧ (∀ t w, Embeddings.idf built !! t = Some w → Embeddings.idf later !! t = Some w)
  ∧ Embeddings.db later = Embeddings.db built.
Proof.
  intros Hne built later. subst later. rewrite similarCommand_fresh.
  destruct (similarCommand_state patterns query limit rebuild d Hne) as (Hvectors & Hdb & Hidf).
  fold built in Hvectors, Hdb, Hidf.
  match type of Hvectors with
  | _ = Embeddings.vectors (foldl (Embeddings.store_vector ?tab) ?m0 patterns) =>
      destruct (store_fold_index tab patterns m0 eq_refl) as (_ & Hin & _)
  end.
  rewrite <- Hvectors in Hin. rewrite Hdb. unfold Embeddings.load.
  cbn [Embeddings.initEmbeddingsDb Embeddings.idf Embeddings.vectors Embeddings.db
       Embeddings.embeddings Embeddings.vocabulary length Nat.eqb].
  rewrite map_size_empty. cbn [Nat.eqb]. split; [| split; [| done]].
  - intros e He. destruct (Hin e He) as [(p & Hp & Hvec) [text Htext]].
    apply list_elem_of_fmap. exists (e.1, (Embeddings.terms e.2, text)). split.
    + destruct e as [id v]. simpl in *. f_equal.
      injection Hvec as _ ->.
      destruct (toVector_spec
                  (Embeddings.computeTf (Embeddings.tokenize (Embeddings.patternToText p)))
                  (Embeddings.computeIdf
                     (map (fun p => Embeddings.tokenize (Embeddings.patternToText p)) patterns)
                     (JsSet.of_list
                        (concat (map (fun p => Embeddings.tokenize (Embeddings.patternToText p))
                                     patterns))))) as [_ Hmag].
      rewrite <- Hmag. by destruct (Embeddings.toVector _ _).
    + by apply elem_of_map_to_list.
  - intros t w Hw. rewrite Hidf in Hw.
    destruct (size _ =? 0)%nat; [done |]. by apply lookup_union_Some_l.
Qed.

Lemma similarCommand_persists_witness :
  let built := (Embeddings.similarCommand [Examples.refused] "connection lost" 10 false
                  Examples.fresh).1 in
  let later := (Embeddings.similarCommand [] "timeout" 5 false (Embeddings.db built)).1 in
  (∀ e, e ∈ Embeddings.vectors built → e ∈ Embeddings.vectors later)
  ∧ (∀ t w, Embeddings.idf built !! t = Some w → Embeddings.idf later !! t = Some w)
  ∧ Embeddings.db later = Embeddings.db built.
Proof.
  intros built later.
  exact (similarCommand_persists [Examples.refused] "connection lost" "timeout" 10 5
           false false Examples.fresh ltac:(discriminate)).
Defined.

(** ** The commands *)

Section SortedFacts.
Context {A B : Type}.

Lemma StronglySorted_map (R : A → A → Prop) (R' : B → B → Prop) (f : A → B) l :
  (∀ x y, R x y → R' (f x) (f y)) → StronglySorted R l → StronglySorted R' (map f l).
Proof.
  intros Hmono. induction 1 as [| x l Hl IH Hx]; simpl; constructor; [done |].
  apply Forall_forall. intros y (z & -> & Hz)%list_elem_of_fmap.
  rewrite Forall_forall in Hx. auto.
Qed.

Lemma StronglySorted_filter (R : A → A → Prop) (P : A → Prop) `{!∀ x, Decision (P x)} l :
  StronglySorted R l → StronglySorted R (filter P l).
Proof.
  induction 1 as [| x l Hl IH Hx]; [constructor |].
  rewrite filter_cons. destruct (decide (P x)); [| done].
  constructor; [done |]. apply Forall_forall. intros y [_ Hy]%list_elem_of_filter.
  rewrite Forall_forall in Hx. auto.
Qed.

End SortedFacts.

Section RoundFacts.
Open Scope R_scope.

Lemma round_percent (x : R) : 0 < x <= 1 → (0 <= JsNumber.round (x * 100) <= 100)%Z.
Proof.
  intros [Hpos Hle]. unfold JsNumber.round.
  pose proof (Zfloor_bound (x * 100 + / 2)) as [Hlow Hhigh].
  split.
  - apply (Zfloor_lub 0). lra.
  - assert (Hbelow : IZR (Zfloor (x * 100 + / 2)) < 101) by lra.
    apply lt_IZR in Hbelow. lia.
Qed.

Lemma round_mono (x y : R) : x <= y → (JsNumber.round x <= JsNumber.round y)%Z.
Proof. intros Hxy. unfold JsNumber.round. apply Zfloor_le. lra. Qed.

End RoundFacts.

Section EnrichFacts.

Lemma findPatternById_Some pb i p :
  Playbook.findPatternById pb i = Some p → p ∈ Playbook.patterns pb ∧ Playbook.id p = i.
Proof.
  unfold Playbook.findPatternById. intros [Hin Hid]%find_some.
  split; [by apply list_elem_of_In | by apply bool_decide_eq_true in Hid].
Qed.

Lemma enriched_elem playbook matches m :
  m ∈ filter (fun m => is_Some (Similar.pattern m)) (map (Similar.enrich playbook) matches)
  ↔ ∃ r p, r ∈ matches ∧ Playbook.findPatternById playbook r.1 = Some p
           ∧ m = {| Similar.patternId := r.1;
                    Similar.score := JsNumber.round (r.2 * 100);
                    Similar.pattern := Some p |}.
Proof.
  rewrite list_elem_of_filter, list_elem_of_fmap. split.
  - intros [[p Hp] (r & -> & Hr)]. exists r, p. simpl in Hp. split; [done |].
    split; [done |]. unfold Similar.enrich. by rewrite Hp.
  - intros (r & p & Hr & Hp & ->). split; [by eexists |].
    exists r. split; [| done]. unfold Similar.enrich. by rewrite Hp.
Qed.

End EnrichFacts.

(** What the [similar] command lists: every entry carries the record of
    the playbook that has its id, so an index row whose pattern is gone
    from the playbook is not listed and an empty playbook lists nothing,
    whatever the database holds; the entries come in descending order of
    score; a [--limit] that is no number lists nothing, and one that reads
    as a number that is not negative lists no more entries than it says;
    and over a database that earlier runs left, every score is a whole
    number from 0 to 100. *)
Theorem similar_enriched (query limit : string) (rebuild : bool)
    (store : Playbook.Store) (d : Embeddings.Database) :
  let listed := (Similar.similarCommand query limit rebuild store d).2 in
  (∀ m, m ∈ listed →
        ∃ p, Similar.pattern m = Some p ∧ p ∈ Playbook.patterns (Playbook.loadPlaybook store)
             ∧ Playbook.id p = Similar.patternId m)
  ∧ (Playbook.patterns (Playbook.loadPlaybook store) = [] → listed = [])
  ∧ StronglySorted (fun a b => (Similar.score b <= Similar.score a)%Z) listed
  ∧ (JsNumber.parseInt limit = None → listed = [])
  ∧ (∀ n, JsNumber.parseInt limit = Some n → (0 <= n)%Z → (length listed ≤ Z.to_nat n)%nat)
  ∧ (Spec.persisted d → ∀ m, m ∈ listed → (0 <= Similar.score m <= 100)%Z).
Proof.
  intros listed. subst listed. unfold Similar.similarCommand. cbn [snd].
  set (playbook := Playbook.loadPlaybook store).
  set (n := JsNumber.to_integer (JsNumber.parseInt limit)).
  set (run := Embeddings.similarCommand (Playbook.patterns playbook) query n rebuild d).
  split; [| split; [| split; [| split; [| split]]]].
  - intros m (r & p & Hr & Hp & ->)%enriched_elem. exists p.
    apply findPatternById_Some in Hp as [Hin Hid]. done.
  - intros Hempty.
    destruct (filter _ _) as [| m ms] eqn:Hlisted; [done |]. exfalso.
    assert (Hm : m ∈ filter (fun m => is_Some (Similar.pattern m))
                   (map (Similar.enrich playbook) run.2)) by (rewrite Hlisted; left).
    apply enriched_elem in Hm as (r & p & _ & Hp & _).
    apply findPatternById_Some in Hp as [Hin _]. rewrite Hempty in Hin.
    by apply elem_of_nil in Hin.
  - apply StronglySorted_filter.
    eapply (StronglySorted_map (fun r r' : string * R => (r'.2 <= r.2)%R));
      [| apply similarCommand_sorted].
    intros x y Hxy. simpl. apply round_mono. nra.
  - intros Hnan.
    assert (Hnone : run.2 = []).
    { subst run n. rewrite Hnan. apply length_zero_iff_nil.
      pose proof (similarCommand_length (Playbook.patterns playbook) query 0 rebuild d
                    ltac:(lia)) as Hlen.
      cbn [JsNumber.to_integer default]. change (Z.to_nat 0) with 0%nat in Hlen. lia. }
    by rewrite Hnone.
  - intros k Hk Hpos. etransitivity; [apply length_filter |]. rewrite length_map.
    subst run n. rewrite Hk. by apply similarCommand_length.
  - intros Hd m (r & p & Hr & Hp & ->)%enriched_elem. simpl.
    apply round_percent. by eapply similarCommand_score_bounds.
Qed.

Lemma similar_enriched_witness :
  (Similar.similarCommand "connection refused" "abc" false
     (Some {| Playbook.patterns := [Examples.refused] |}) Examples.fresh).2 = [].
Proof.
  apply (similar_enriched "connection refused" "abc" false
           (Some {| Playbook.patterns := [Examples.refused] |}) Examples.fresh).
  reflexivity.
Defined.

(** What the [context] command lists: the matches that
    [findMatchingPatterns] returns for the limit read from [--limit] (5
    when the option is absent or empty), best first, of which a [--service]
    that is not empty keeps those whose category holds it, whatever the
    case of the letters.  The limit is applied before the filter, so the
    list has no more entries than the limit says, and none when the limit
    is no number. *)
Theorem contextCommand_results `{RegexEngine} (error : string) (service limit : option string)
    (store : Playbook.Store) :
  let playbook := Playbook.loadPlaybook store in
  let n := JsNumber.parseInt (Reflect.or_string limit "5") in
  let matches := Matching.findMatchingPatterns playbook error (JsNumber.to_integer n) in
  let listed := ContextCommand.contextCommand error service limit store in
  sublist listed matches
  ∧ (∀ r, r ∈ listed
          ↔ r ∈ matches
            ∧ ∀ s, service = Some s → s ≠ "" →
                   JsString.includes
                     (JsString.toLowerCase (Playbook.category (Matching.pattern r)))
                     (JsString.toLowerCase s) = true)
  ∧ StronglySorted (fun r r' => (Matching.score r' <= Matching.score r)%Q) listed
  ∧ (∀ k, n = Some k → (0 <= k)%Z → (length listed ≤ Z.to_nat k)%nat)
  ∧ (Reflect.or_string limit "" = "" → (length listed ≤ 5)%nat)
  ∧ (n = None → listed = []).
Proof.
  intros playbook n matches listed.
  assert (Hlisted : listed = match service with
                             | Some s =>
                                 if String.eqb s "" then matches
                                 else filter (fun r => JsString.includes
                                        (JsString.toLowerCase
                                           (Playbook.category (Matching.pattern r)))
                                        (JsString.toLowerCase s) = true) matches
                             | None => matches
                             end) by reflexivity.
  assert (Hsub : sublist listed matches).
  { rewrite Hlisted. destruct service as [s |]; [| done].
    destruct (String.eqb s ""); [done | apply sublist_filter]. }
  assert (Hsorted : StronglySorted (fun r r' => (Matching.score r' <= Matching.score r)%Q)
                      matches) by apply findMatchingPatterns_sorted.
  split; [done |]. split; [| split; [| split; [| split]]].
  - intros r. rewrite Hlisted. destruct service as [s |].
    + destruct (String.eqb s "") eqn:Hs.
      * apply String.eqb_eq in Hs. split; [| by intros [? _]].
        intros Hr. split; [done |]. intros s' [= <-] Hne. done.
      * apply String.eqb_neq in Hs. rewrite list_elem_of_filter. split.
        -- intros [Hin Hr]. split; [done |]. by intros s' [= <-] _.
        -- intros [Hr Hin]. split; [by apply Hin | done].
    + split; [| by intros [? _]]. intros Hr. split; [done |]. by intros s [=].
  - rewrite Hlisted. destruct service as [s |]; [| done].
    destruct (String.eqb s ""); [done | by apply StronglySorted_filter].
  - intros k Hk Hpos. etransitivity; [apply (sublist_length _ _ Hsub) |].
    subst matches. rewrite Hk. by apply findMatchingPatterns_length.
  - intros Hdefault. etransitivity; [apply (sublist_length _ _ Hsub) |].
    subst matches n.
    assert (Reflect.or_string limit "5" = "5") as ->.
    { unfold Reflect.or_string in *. destruct limit as [l |]; [| done].
      destruct (String.eqb l "") eqn:Hl; [done |]. subst l. done. }
    by apply findMatchingPatterns_length.
  - intros Hnan. apply length_zero_iff_nil.
    pose proof (sublist_length _ _ Hsub) as Hlen.
    pose proof (findMatchingPatterns_length playbook error 0 ltac:(lia)) as Hzero.
    subst matches. rewrite Hnan in Hlen. cbn [JsNumber.to_integer default] in Hlen.
    change (Z.to_nat 0) with 0%nat in Hzero. lia.
Qed.

Lemma contextCommand_results_witness :
  (length (ContextCommand.contextCommand (H := LiteralEngine.engine) "ECONNREFUSED"
             (Some "NET") None (Some {| Playbook.patterns := [Examples.refused] |})) ≤ 5)%nat.
Proof.
  apply (contextCommand_results (H := LiteralEngine.engine) "ECONNREFUSED" (Some "NET") None
           (Some {| Playbook.patterns := [Examples.refused] |})).
  reflexivity.
Defined.

(** ** Statistics *)

Section StatsFacts.

#[local] Abbreviation sum_of f ps :=
  (foldr (fun (p : Playbook.Pattern) (acc : Z) => (f p + acc)%Z) 0%Z ps).
#[local] Abbreviation number_of P ps :=
  (Z.of_nat (length (filter P ps))).

Lemma count_category_other m c c' :
  c ≠ c' → Stats.count_category m c' !! c = m !! c.
Proof.
  intros Hne. unfold Stats.count_category.
  destruct (m !! c') as [[n |] |]; [by rewrite lookup_insert_ne .. |].
  repeat case_bool_decide; by rewrite ?lookup_insert_ne.
Qed.

Lemma count_category_same m c :
  c ∉ Stats.inherited →
  Stats.count_category m c !! c
  = match m !! c with
    | Some (Stats.Number n) => Some (Stats.Number (n + 1))
    | Some Stats.Text => Some Stats.Text
    | None => Some (Stats.Number 1)
    end.
Proof.
  intros Hc. unfold Stats.count_category.
  destruct (m !! c) as [[n |] |]; [by rewrite lookup_insert_eq .. |].
  rewrite bool_decide_eq_false_2.
  - rewrite bool_decide_eq_false_2 by done. by rewrite lookup_insert_eq.
  - intros ->. apply Hc. apply list_elem_of_In. simpl. tauto.
Qed.

Lemma count_category_inherited m c c' :
  c ∈ Stats.inherited →
  (∀ n, m !! c ≠ Some (Stats.Number n)) →
  ∀ n, Stats.count_category m c' !! c ≠ Some (Stats.Number n).
Proof.
  intros Hc Hm n. destruct (decide (c = c')) as [<- | Hne];
    [| by rewrite count_category_other].
  unfold Stats.count_category. destruct (m !! c) as [[k |] |] eqn:Hk.
  - by destruct (Hm k).
  - by rewrite lookup_insert_eq.
  - case_bool_decide; [by rewrite Hk |].
    rewrite bool_decide_eq_true_2 by done. by rewrite lookup_insert_eq.
Qed.

(** The loop of [statsCommand], from any values of its four variables. *)
Lemma tally_fold t0 ps :
  let t := foldl Stats.tally t0 ps in
  Stats.totalHelpful t
  = (Stats.totalHelpful t0 + sum_of (fun p => Playbook.helpful (Playbook.feedback p)) ps)%Z
  ∧ Stats.totalHarmful t
    = (Stats.totalHarmful t0 + sum_of (fun p => Playbook.harmful (Playbook.feedback p)) ps)%Z
  ∧ Stats.low (Stats.bySeverity t)
    = (Stats.low (Stats.bySeverity t0)
       + number_of (fun p => Playbook.severity p = Playbook.low) ps)%Z
  ∧ Stats.medium (Stats.bySeverity t)
    = (Stats.medium (Stats.bySeverity t0)
       + number_of (fun p => Playbook.severity p = Playbook.medium) ps)%Z
  ∧ Stats.high (Stats.bySeverity t)
    = (Stats.high (Stats.bySeverity t0)
       + number_of (fun p => Playbook.severity p = Playbook.high) ps)%Z
  ∧ Stats.byCategory t
    = foldl Stats.count_category (Stats.byCategory t0) (map Playbook.category ps).
Proof.
  revert t0. induction ps as [| p ps IH]; intros t0; cbv zeta.
  - simpl. repeat split; lia.
  - cbn [foldl map foldr]. destruct (IH (Stats.tally t0 p)) as (-> & -> & -> & -> & -> & ->).
    rewrite !filter_cons. unfold Stats.tally, Stats.count_severity. simpl.
    destruct (Playbook.severity p); simpl;
      repeat (destruct (decide _) as [? | ?]; try done); simpl length;
      repeat split; lia.
Qed.

Lemma category_fold m cats c :
  c ∉ Stats.inherited →
  foldl Stats.count_category m cats !! c
  = match m !! c with
    | Some (Stats.Number n) =>
        Some (Stats.Number (n + Z.of_nat (length (filter (fun x => x = c) cats))))
    | Some Stats.Text => Some Stats.Text
    | None =>
        match length (filter (fun x => x = c) cats) with
        | 0%nat => None
        | k => Some (Stats.Number (Z.of_nat k))
        end
    end.
Proof.
  intros Hc. revert m. induction cats as [| x cats IH]; intros m.
  - simpl. destruct (m !! c) as [[n |] |]; [| done | done]. do 2 f_equal. lia.
  - cbn [foldl]. rewrite IH, filter_cons. destruct (decide (x = c)) as [-> | Hne].
    + rewrite count_category_same by done.
      destruct (m !! c) as [[n |] |]; [| done |].
      * do 2 f_equal. simpl length. lia.
      * simpl length. destruct (length (filter _ cats)); do 2 f_equal; lia.
    + by rewrite count_category_other.
Qed.

Lemma category_fold_inherited m cats c :
  c ∈ Stats.inherited →
  (∀ n, m !! c ≠ Some (Stats.Number n)) →
  ∀ n, foldl Stats.count_category m cats !! c ≠ Some (Stats.Number n).
Proof.
  intros Hc. revert m. induction cats as [| x cats IH]; intros m Hm; [done |].
  cbn [foldl]. apply IH. by apply count_category_inherited.
Qed.

End StatsFacts.

(** What [statsCommand] reports: the number of patterns; for each
    severity the number of patterns that have it, the three adding up to
    the total; the sums of the helpful and of the harmful votes and their
    sum; and for every category that is not the name of a property that
    objects inherit, the number of patterns that have it, a category
    without a pattern being absent.  A category that is such a name
    ([constructor], [toString], ...) is never given a number. *)
Theorem statsCommand_counts (store : Playbook.Store) :
  let patterns := Playbook.patterns (Playbook.loadPlaybook store) in
  let stats := Stats.statsCommand store in
  let bySeverity s :=
    Z.of_nat (length (filter (fun p => Playbook.severity p = s) patterns)) in
  Stats.patternsTotal stats = length patterns
  ∧ (Stats.low (Stats.patternsBySeverity stats) = bySeverity Playbook.low
     ∧ Stats.medium (Stats.patternsBySeverity stats) = bySeverity Playbook.medium
     ∧ Stats.high (Stats.patternsBySeverity stats) = bySeverity Playbook.high)
  ∧ (Stats.low (Stats.patternsBySeverity stats) + Stats.medium (Stats.patternsBySeverity stats)
     + Stats.high (Stats.patternsBySeverity stats) = Z.of_nat (Stats.patternsTotal stats))%Z
  ∧ (Stats.helpful (Stats.feedbackStats stats)
     = foldr (fun p acc => Playbook.helpful (Playbook.feedback p) + acc)%Z 0%Z patterns
     ∧ Stats.harmful (Stats.feedbackStats stats)
       = foldr (fun p acc => Playbook.harmful (Playbook.feedback p) + acc)%Z 0%Z patterns
     ∧ Stats.total (Stats.feedbackStats stats)
       = (Stats.helpful (Stats.feedbackStats stats)
          + Stats.harmful (Stats.feedbackStats stats))%Z)
  ∧ (∀ c, c ∉ Stats.inherited →
          Stats.patternsByCategory stats !! c
          = match length (filter (fun p => Playbook.category p = c) patterns) with
            | 0%nat => None
            | k => Some (Stats.Number (Z.of_nat k))
            end)
  ∧ (∀ c n, c ∈ Stats.inherited →
            Stats.patternsByCategory stats !! c ≠ Some (Stats.Number n)).
Proof.
  intros patterns stats bySeverity. subst stats bySeverity. unfold Stats.statsCommand.
  fold patterns. cbn [Stats.patternsTotal Stats.patternsBySeverity Stats.feedbackStats
                      Stats.patternsByCategory Stats.helpful Stats.harmful Stats.total].
  match goal with
  | |- context [foldl Stats.tally ?t0 patterns] =>
      destruct (tally_fold t0 patterns) as (Hh & Hm & Hlow & Hmed & Hhigh & Hcat);
      set (t := foldl Stats.tally t0 patterns) in *
  end.
  simpl in Hh, Hm, Hlow, Hmed, Hhigh, Hcat.
  split; [done |]. split; [done |]. split; [| split; [done | split]].
  - rewrite Hlow, Hmed, Hhigh.
    clear. induction patterns as [| p ps IH]; [done |].
    rewrite !filter_cons. destruct (Playbook.severity p);
      repeat (destruct (decide _) as [? | ?]; try done); simpl length; lia.
  - intros c Hc. rewrite Hcat, (category_fold _ _ c Hc), lookup_empty.
    assert (Hlen : length (filter (fun x => x = c) (map Playbook.category patterns))
                   = length (filter (fun p => Playbook.category p = c) patterns)).
    { clear. induction patterns as [| p ps IH]; [done |].
      cbn [map]. rewrite !filter_cons.
      destruct (decide (Playbook.category p = c)); simpl; by rewrite IH. }
    by rewrite Hlen.
  - intros c n Hc. rewrite Hcat. apply category_fold_inherited; [done |].
    intros k. by rewrite lookup_empty.
Qed.

Section StatsAfterMark.

Lemma tally_shift t0 ps (h m : Z) :
  foldl Stats.tally
    {| Stats.byCategory := Stats.byCategory t0; Stats.bySeverity := Stats.bySeverity t0;
       Stats.totalHelpful := Stats.totalHelpful t0 + h;
       Stats.totalHarmful := Stats.totalHarmful t0 + m |} ps
  = let t := foldl Stats.tally t0 ps in
    {| Stats.byCategory := Stats.byCategory t; Stats.bySeverity := Stats.bySeverity t;
       Stats.totalHelpful := Stats.totalHelpful t + h;
       Stats.totalHarmful := Stats.totalHarmful t + m |}.
Proof.
  revert t0. induction ps as [| p ps IH]; intros t0; [done |].
  cbn [foldl]. rewrite <- IH. f_equal. unfold Stats.tally. simpl. f_equal; lia.
Qed.

Lemma tally_mark i ty ps t0 :
  i ∈ map Playbook.id ps →
  foldl Stats.tally t0 (Mark.mark_first i ty ps)
  = let t := foldl Stats.tally t0 ps in
    {| Stats.byCategory := Stats.byCategory t; Stats.bySeverity := Stats.bySeverity t;
       Stats.totalHelpful :=
         Stats.totalHelpful t + (if ty is Playbook.Helpful then 1 else 0);
       Stats.totalHarmful :=
         Stats.totalHarmful t + (if ty is Playbook.Harmful then 1 else 0) |}.
Proof.
  revert t0. induction ps as [| p ps IH]; intros t0 Hin; [by apply elem_of_nil in Hin |].
  cbn [Mark.mark_first]. case_bool_decide as Hp.
  - cbn [foldl]. rewrite <- tally_shift. f_equal.
    unfold Stats.tally. destruct ty; simpl; f_equal; lia.
  - cbn [foldl]. apply IH. cbn in Hin. apply elem_of_cons in Hin as [-> | Hin]; done.
Qed.

End StatsAfterMark.

(** A run of [markCommand] that succeeds shows in the statistics as one
    more vote of the kind given, and as nothing else: the number of
    patterns and the counts by severity and by category are as before.  A
    run of [reflectCommand] that saves adds the number of its new patterns
    to the total. *)
Theorem statsCommand_after_commands `{RegexEngine} (store : Playbook.Store) :
  (∀ i feedback counts,
     (Mark.markCommand i feedback store).2 = Mark.Marked counts →
     let before := Stats.statsCommand store in
     let after := Stats.statsCommand (Mark.markCommand i feedback store).1 in
     Stats.patternsTotal after = Stats.patternsTotal before
     ∧ Stats.patternsBySeverity after = Stats.patternsBySeverity before
     ∧ Stats.patternsByCategory after = Stats.patternsByCategory before
     ∧ Stats.total (Stats.feedbackStats after)
       = (Stats.total (Stats.feedbackStats before) + 1)%Z
     ∧ (Stats.helpful (Stats.feedbackStats after), Stats.harmful (Stats.feedbackStats after))
       = match Mark.parse_feedback feedback with
         | Some Playbook.Harmful =>
             (Stats.helpful (Stats.feedbackStats before),
              Stats.harmful (Stats.feedbackStats before) + 1)%Z
         | _ =>
             (Stats.helpful (Stats.feedbackStats before) + 1,
              Stats.harmful (Stats.feedbackStats before))%Z
         end)
  ∧ (∀ random rows,
       let run := Reflect.reflect random false rows store in
       Stats.patternsTotal (Stats.statsCommand run.1)
       = (Stats.patternsTotal (Stats.statsCommand store)
          + length (Reflect.newPatterns run.2))%nat).
Proof.
  split.
  - intros i feedback counts Hmarked before after. subst before after.
    assert (Hok : ∃ ty, Mark.parse_feedback feedback = Some ty
                        ∧ i ∈ map Playbook.id (Playbook.patterns (Playbook.loadPlaybook store))).
    { unfold Mark.markCommand in Hmarked.
      destruct (Mark.parse_feedback feedback) as [ty |]; [| done]. exists ty. split; [done |].
      destruct (Playbook.findPatternById _ i) as [p |] eqn:Hfind; [| done].
      apply findPatternById_Some in Hfind as [Hin <-].
      apply list_elem_of_fmap. by exists p. }
    destruct Hok as (ty & Hty & Hin).
    unfold Stats.statsCommand.
    pose proof (markCommand_patterns i feedback store) as Hps. rewrite Hty in Hps.
    rewrite Hps, Hty, (tally_mark i ty _ _ Hin).
    cbn [Stats.patternsTotal Stats.patternsBySeverity Stats.patternsByCategory
         Stats.feedbackStats Stats.total Stats.helpful Stats.harmful
         Stats.byCategory Stats.bySeverity Stats.totalHelpful Stats.totalHarmful].
    split; [by rewrite <- (length_map Playbook.id), mark_first_ids, length_map |].
    split; [done |]. split; [done |]. destruct ty; split; first [lia | f_equal; lia].
  - intros random rows run. subst run. unfold Stats.statsCommand.
    cbn [Stats.patternsTotal]. by rewrite reflect_patterns, length_app.
Qed.

Lemma statsCommand_after_commands_witness :
  let store := Some {| Playbook.patterns := [Examples.refused] |} in
  Stats.total (Stats.feedbackStats
                 (Stats.statsCommand (Mark.markCommand "slsm-001" "HELPFUL" store).1))
  = 1%Z.
Proof.
  intros store.
  pose proof (statsCommand_after_commands (H := LiteralEngine.engine) store) as [Hmark _].
  destruct (Hmark "slsm-001" "HELPFUL" {| Playbook.helpful := 1; Playbook.harmful := 0 |}
              eq_refl) as (_ & _ & _ & Htotal & _).
  exact Htotal.
Defined.

Section RatioFacts.

Lemma percent_range (a b : Z) :
  (0 <= a)%Z → (0 <= b)%Z → (0 < a + b)%Z →
  (0 <= inject_Z a / inject_Z (a + b) * 100 <= 100)%Q.
Proof.
  intros Ha Hb Hab.
  assert (Hpos : (0 < inject_Z (a + b))%Q).
  { replace 0%Q with (inject_Z 0) by reflexivity. rewrite <- Zlt_Qlt. lia. }
  assert (Ha' : (0 <= inject_Z a)%Q).
  { replace 0%Q with (inject_Z 0) by reflexivity. rewrite <- Zle_Qle. lia. }
  assert (Hle : (inject_Z a <= inject_Z (a + b))%Q) by (rewrite <- Zle_Qle; lia).
  split.
  - apply Qmult_le_0_compat; [| discriminate].
    apply Qle_shift_div_l; [done |]. by rewrite Qmult_0_l.
  - apply Qle_trans with (1 * 100)%Q; [| discriminate].
    apply Qmult_le_compat_r; [| discriminate].
    apply Qle_shift_div_r; [done |]. by rewrite Qmult_1_l.
Qed.

End RatioFacts.

(** The share of helpful votes that [contextCommand] prints for a pattern
    and [statsCommand] for the playbook: it is computed only when there is
    at least one vote, so nothing is divided by zero, and for counters that
    are not negative it lies between 0 and 100; without a vote nothing is
    printed. *)
Theorem feedback_ratio_range (helpful harmful : Z) :
  (0 <= helpful)%Z → (0 <= harmful)%Z →
  let f := {| Playbook.helpful := helpful; Playbook.harmful := harmful |} in
  let s := {| Stats.helpful := helpful; Stats.harmful := harmful;
              Stats.total := helpful + harmful |} in
  Stats.approval s = ContextCommand.feedback_ratio f
  ∧ match ContextCommand.feedback_ratio f with
    | Some ratio => (0 < helpful + harmful)%Z ∧ (0 <= ratio <= 100)%Q
    | None => helpful = 0%Z ∧ harmful = 0%Z
    end.
Proof.
  intros Hh Hm f s. split; [reflexivity |].
  unfold ContextCommand.feedback_ratio. simpl.
  destruct (0 <? helpful + harmful)%Z eqn:Hvotes.
  - apply Z.ltb_lt in Hvotes. split; [done |]. by apply percent_range.
  - apply Z.ltb_ge in Hvotes. lia.
Qed.

Lemma feedback_ratio_range_witness :
  Stats.approval {| Stats.helpful := 3; Stats.harmful := 1; Stats.total := 3 + 1 |}
  = ContextCommand.feedback_ratio {| Playbook.helpful := 3; Playbook.harmful := 1 |}
  ∧ match ContextCommand.feedback_ratio {| Playbook.helpful := 3; Playbook.harmful := 1 |} with
    | Some ratio => (0 < 3 + 1)%Z ∧ (0 <= ratio <= 100)%Q
    | None => 3%Z = 0%Z ∧ 1%Z = 0%Z
    end.
Proof. apply (feedback_ratio_range 3 1); lia. Defined.

(** ** Building the index again *)

Section RebuildFacts.

#[local] Abbreviation vector_of tab p :=
  (Embeddings.toVector
     (Embeddings.computeTf (Embeddings.tokenize (Embeddings.patternToText p))) tab).

#[local] Abbreviation table_of patterns :=
  (Embeddings.computeIdf
     (map (fun p => Embeddings.tokenize (Embeddings.patternToText p)) patterns)
     (JsSet.of_list
        (concat (map (fun p => Embeddings.tokenize (Embeddings.patternToText p)) patterns)))).

#[local] Abbreviation row_of tab p :=
  (Embeddings.terms (vector_of tab p), Embeddings.patternToText p).




End RebuildFacts.


(** ** Ties *)

Section StableFacts.
Context {A K : Type} (ltb : K → K → bool) (key : A → K).
Hypothesis geb_trans : ∀ a b c, ltb a b = false → ltb b c = false → ltb a c = false.

(** The elements whose key ranks with [k]. *)
#[local] Abbreviation level k :=
  (fun x : A => ltb (key x) k = false ∧ ltb k (key x) = false).

Lemma insert_desc_stable k x l :
  filter (level k) (JsArray.insert_desc ltb key x l) = filter (level k) (x :: l).
Proof.
  induction l as [| y l IH]; [done |]. simpl.
  destruct (ltb (key x) (key y)) eqn:Hxy; [| done].
  rewrite (filter_cons _ y), IH, !filter_cons.
  destruct (decide (level k x)) as [[Hx1 Hx2] | Hx]; [| done].
  destruct (decide (level k y)) as [[Hy1 Hy2] | Hy]; [| done].
  rewrite (geb_trans _ _ _ Hx1 Hy2) in Hxy. done.
Qed.

Lemma sort_desc_stable k l :
  filter (level k) (JsArray.sort_desc ltb key l) = filter (level k) l.
Proof.
  induction l as [| x l IH]; [done |]. simpl.
  by rewrite insert_desc_stable, !filter_cons, IH.
Qed.

Lemma sublist_filtered (P : A → Prop) `{!∀ x, Decision (P x)} (l1 l2 : list A) :
  sublist l1 l2 → sublist (filter P l1) (filter P l2).
Proof.
  induction 1 as [| x l1 l2 Hsub IH | x l1 l2 Hsub IH]; [done | |].
  - rewrite !filter_cons. destruct (decide (P x)); [by apply sublist_skip | done].
  - rewrite filter_cons. destruct (decide (P x)); [by apply sublist_cons | done].
Qed.

(** Two elements of the same rank stand in the ranked array as they stood
    in the array that was sorted. *)
Lemma ranked_stable limit l x y :
  sublist [x; y] (JsArray.slice0 limit (JsArray.sort_desc ltb key l)) →
  level (key x) x → level (key x) y →
  sublist [x; y] l.
Proof.
  intros Hsub Hx Hy.
  destruct (slice0_prefix limit (JsArray.sort_desc ltb key l)) as [n Hn].
  rewrite Hn in Hsub.
  assert (Hsorted : sublist [x; y] (JsArray.sort_desc ltb key l))
    by (etransitivity; [exact Hsub | apply sublist_take]).
  apply (sublist_filtered (level (key x))) in Hsorted.
  rewrite sort_desc_stable in Hsorted.
  rewrite !filter_cons, filter_nil in Hsorted.
  rewrite decide_True in Hsorted by done. rewrite decide_True in Hsorted by done.
  etransitivity; [exact Hsorted | apply sublist_filter].
Qed.

End StableFacts.

(** [findMatchingPatterns] breaks ties by the order of the playbook: of
    two results with the same score, the one that comes first is the one
    whose pattern comes first in the playbook. *)
Theorem findMatchingPatterns_stable `{RegexEngine} (pb : Playbook.Playbook) (q : string)
    (limit : Z) (r1 r2 : Matching.MatchResult) :
  sublist [r1; r2] (Matching.findMatchingPatterns pb q limit) →
  Matching.score r1 == Matching.score r2 →
  sublist [Matching.pattern r1; Matching.pattern r2] (Playbook.patterns pb).
Proof.
  intros Hsub Hscore. unfold Matching.findMatchingPatterns in Hsub.
  apply (ranked_stable JsArray.Qltb Matching.score Qgeb_trans) in Hsub.
  - etransitivity; [| apply (candidates_sublist pb q)].
    change [Matching.pattern r1; Matching.pattern r2] with (map Matching.pattern [r1; r2]).
    by apply fmap_sublist.
  - split; apply Qltb_false, Qle_refl.
  - split; apply Qltb_false; rewrite Hscore; apply Qle_refl.
Qed.

Lemma findMatchingPatterns_stable_witness :
  let twin :=
    {| Playbook.id := "slsm-002"; Playbook.fingerprint := "conn-refused-2";
       Playbook.pattern := "refused"; Playbook.severity := Playbook.low;
       Playbook.category := "network"; Playbook.title := "Refused";
       Playbook.symptoms := []; Playbook.root_causes := []; Playbook.fixes := [];
       Playbook.feedback := {| Playbook.helpful := 0; Playbook.harmful := 0 |} |} in
  sublist [Examples.refused; twin] [Examples.refused; twin].
Proof.
  intros twin.
  apply (findMatchingPatterns_stable (H := LiteralEngine.engine)
           {| Playbook.patterns := [Examples.refused; twin] |} "ECONNREFUSED: refused" 10
           {| Matching.pattern := Examples.refused; Matching.score := 100;
              Matching.matchedKeywords := ["econnrefused"; "refused"] |}
           {| Matching.pattern := twin; Matching.score := 100;
              Matching.matchedKeywords := ["econnrefused"; "refused"] |}).
  - vm_compute. apply sublist_skip, sublist_skip, sublist_nil.
  - reflexivity.
Defined.

